(** * etherlib: OpenEthereum-style transaction tracers

    A shallow embedding of the trace-construction code of the repository
    (packages [txtracev2] and [txtrace]) and of the storage/API codec of
    [pkg/txtracev2/internal_types.go], with the properties of the
    specification stated over it.

    Conventions.
    - Unsigned machine integers are [N]; where Go arithmetic can wrap the
      reduction modulo [2^w] is written out.  [*big.Int] is [option Z]
      ([None] is the nil pointer).
    - A Go [error] is its message; the nil error is [None].
    - A Go panic (index out of range, nil dereference) is the result [None]
      of a step.
    - A pointer to an [InternalActionTrace] is the position of the node in
      the list the tracer appends it to at allocation time; nodes are never
      removed from that list, so positions are stable.
    - [[]uint32] slices are slice headers over a heap of backing arrays,
      because the two revisions of the streaming tracer differ exactly in
      how a child's [TraceAddress] shares its parent's array. *)

From Stdlib Require Import ZArith NArith List String Lia Bool.
From Stdlib.Strings Require Import Byte.
From stdpp Require Import base tactics option list numbers strings gmap.

Open Scope N_scope.

Definition bytes := list byte.

(** [common.Address] is [[20]byte], [common.Hash] is [[32]byte]. *)
Definition common_Address := list byte.
Definition common_Hash := list byte.

Definition error := string.

#[global] Instance byte_eqdec : EqDecision byte := Byte.byte_eq_dec.

Definition wrap32 (n : N) : N := n mod 2 ^ 32.
Definition wrap64 (n : N) : N := n mod 2 ^ 64.

(** ** Go slices of [uint32] *)
Module GoSlice.

(** A backing array has a fixed length, the capacity of the slices that
    start at its first cell (every slice of the tracers does). *)
Abbreviation heap := (list (list N)).

Record slice := Slice { base : option nat; len : nat }.

Definition nil_slice : slice := Slice None 0.

Definition array (h : heap) (s : slice) : list N :=
  match base s with
  | Some a => default [] (h !! a)
  | None => []
  end.

Definition cap (h : heap) (s : slice) : nat := length (array h s).

(** The elements a slice denotes in a heap. *)
Definition elems (h : heap) (s : slice) : list N := take (len s) (array h s).

(** [make([]uint32, n)]: a fresh zeroed array of exactly [n] cells. *)
Definition make (h : heap) (n : nat) : heap * slice :=
  (h ++ [replicate n 0], Slice (Some (length h)) n).

(** [copy(dst, src)]: overwrites the first [min (len dst) (len src)] cells
    of [dst]. *)
Definition copy (h : heap) (dst src : slice) : heap :=
  match base dst with
  | Some a =>
      let k := Nat.min (len dst) (len src) in
      alter (fun arr => take k (elems h src) ++ drop k arr) a h
  | None => h
  end.

(** A slice header that fits its heap: the array exists and holds at least
    [len] cells. *)
Definition slice_ok (h : heap) (s : slice) : Prop :=
  match base s with
  | Some a => (a < length h)%nat ∧ (len s ≤ cap h s)%nat
  | None => len s = 0%nat
  end.

Section Append.

(** The capacity the runtime gives a grown slice, from the old capacity and
    the needed length.  The language leaves it to the implementation. *)
Variable growcap : nat -> nat -> nat.

(** [append(s, v)]: writes in place when the array has a spare cell,
    otherwise moves the elements to a fresh, larger array. *)
Definition append (h : heap) (s : slice) (v : N) : heap * slice :=
  if decide (len s < cap h s)%nat then
    match base s with
    | Some a => (alter (fun arr => <[len s := v]> arr) a h, Slice (Some a) (S (len s)))
    | None => (h, s)
    end
  else
    let c := growcap (cap h s) (S (len s)) in
    (h ++ [elems h s ++ v :: replicate (c - S (len s)) 0],
     Slice (Some (length h)) (S (len s))).

End Append.

(** Capacity growth of the gc runtime for 4-byte elements and capacities
    below 256 cells: the larger of the needed length and twice the old
    capacity, rounded up to the allocator's size class (8, 16, 24, 32, 48,
    then steps of 16 bytes up to 256, of 32 up to 512, of 64 up to 768, and
    896 and 1024). *)
Definition roundupsize (b : nat) : nat :=
  if decide (b <= 32)%nat then (8 * ((b + 7) / 8))%nat
  else if decide (b <= 48)%nat then 48%nat
  else if decide (b <= 256)%nat then (16 * ((b + 15) / 16))%nat
  else if decide (b <= 512)%nat then (32 * ((b + 31) / 32))%nat
  else if decide (b <= 768)%nat then (64 * ((b + 63) / 64))%nat
  else if decide (b <= 1024)%nat then (128 * ((b + 127) / 128))%nat
  else b.

Definition gc_growcap (oldcap needed : nat) : nat :=
  let newcap := if decide (2 * oldcap < needed)%nat then needed else (2 * oldcap)%nat in
  (roundupsize (4 * newcap) / 4)%nat.

End GoSlice.

(** ** Data model ([internal_types.go]) *)

Definition CallTypeCreate : N := 0.
Definition CallTypeCall : N := 1.
Definition CallTypeCallCode : N := 2.
Definition CallTypeDelegateCall : N := 3.
Definition CallTypeStaticCall : N := 4.
Definition CallTypeSuicide : N := 5.

Record InternalAction := mkInternalAction {
  CallType : N;
  From : option common_Address;
  To : option common_Address;
  Value : option Z;
  Gas : N;
  Init : bytes;
  Input : bytes;
  Address : option common_Address;
  RefundAddress : option common_Address;
  Balance : option Z
}.

Record InternalTraceActionResult := mkInternalTraceActionResult {
  GasUsed : N;
  Output : bytes;
  Code : bytes;
  ResultAddress : option common_Address
}.

(** [A] is the representation of [TraceAddress []uint32]: a slice header
    while the tracer runs, the denoted value once the trace is sealed. *)
Record InternalActionTrace (A : Type) := mkInternalActionTrace {
  Action : InternalAction;
  Result : option InternalTraceActionResult;
  Error : string;
  TraceAddress : A;
  Subtraces : N
}.
Arguments mkInternalActionTrace {A}.
Arguments Action {A}.
Arguments Result {A}.
Arguments Error {A}.
Arguments TraceAddress {A}.
Arguments Subtraces {A}.

Record InternalActionTraces (A : Type) := mkInternalActionTraces {
  Traces : list (InternalActionTrace A);
  BlockHash : common_Hash;
  BlockNumber : option Z;
  TransactionHash : common_Hash;
  TransactionPosition : N
}.
Arguments mkInternalActionTraces {A}.
Arguments Traces {A}.
Arguments BlockHash {A}.
Arguments BlockNumber {A}.
Arguments TransactionHash {A}.
Arguments TransactionPosition {A}.

Definition set_Result {A} (r : option InternalTraceActionResult)
  (t : InternalActionTrace A) : InternalActionTrace A :=
  mkInternalActionTrace (Action t) r (Error t) (TraceAddress t) (Subtraces t).

Definition set_Error {A} (e : string) (t : InternalActionTrace A) : InternalActionTrace A :=
  mkInternalActionTrace (Action t) (Result t) e (TraceAddress t) (Subtraces t).

Definition set_Subtraces {A} (n : N) (t : InternalActionTrace A) : InternalActionTrace A :=
  mkInternalActionTrace (Action t) (Result t) (Error t) (TraceAddress t) n.

(** ** The execution engine, at its interface *)
Module vm.

Definition OpCode := N.
Definition STOP : OpCode := 0x00.
Definition CREATE : OpCode := 0xf0.
Definition CALL : OpCode := 0xf1.
Definition CALLCODE : OpCode := 0xf2.
Definition RETURN : OpCode := 0xf3.
Definition DELEGATECALL : OpCode := 0xf4.
Definition CREATE2 : OpCode := 0xf5.
Definition STATICCALL : OpCode := 0xfa.
Definition REVERT : OpCode := 0xfd.
Definition SELFDESTRUCT : OpCode := 0xff.

Definition ErrDepth : error := "max call depth exceeded".
Definition ErrInsufficientBalance : error := "insufficient balance for transfer".
Definition ErrContractAddressCollision : error := "contract address collision".
Definition ErrNonceUintOverflow : error := "nonce uint64 overflow".

Definition CallCreateDepth : Z := 1024.

(** The three state queries the pre-checks make. *)
Record EVM := mkEVM {
  CanTransfer : common_Address -> Z -> bool;
  GetNonce : common_Address -> N;
  GetCodeHash : common_Address -> common_Hash
}.

(** [Memory]: the byte slice [store], and the cells of its array that lie
    beyond its length ([spare]), which a slice expression can reach. *)
Record Memory := mkMemory {
  store : bytes;
  spare : bytes
}.

(** [Memory.GetCopy(offset, size int64)].  A zero size and an offset at or
    past the length of the store give nil (the empty payload); otherwise
    the window [store[offset:offset+size]] is copied.  [None] is the panic
    of [make([]byte, size)] on a negative size, or of the slice expression
    on a negative offset or a window that ends past the array. *)
Definition GetCopy (m : Memory) (offset size : Z) : option bytes :=
  if decide (size = 0)%Z then Some []
  else if decide (offset < Z.of_nat (length (store m)))%Z then
    if decide (0 <= offset /\ 0 < size
               /\ offset + size <= Z.of_nat (length (store m) + length (spare m)))%Z
    then Some (take (Z.to_nat size) (drop (Z.to_nat offset) (store m ++ spare m)))
    else None
  else Some [].

(** [ScopeContext]: the operand stack (256-bit words, top last), the
    memory, and the executing contract's address. *)
Record ScopeContext := mkScope {
  Stack : list N;
  Memory_ : Memory;
  ContractAddress : common_Address
}.

(** [Stack.Back(n)]: the n-th word from the top. *)
Definition Back (s : ScopeContext) (n : nat) : option N :=
  if decide (n < length (Stack s))%nat then Stack s !! (length (Stack s) - 1 - n)%nat
  else None.

End vm.

(** [int64(x.Uint64())] of a 256-bit word. *)
Definition int64_of_word (x : N) : Z :=
  let u := Z.of_N (wrap64 x) in
  if decide (u < 2 ^ 63)%Z then u else (u - 2 ^ 64)%Z.

(** Big-endian bytes of a number, in a fixed width. *)
Definition byte_of_N (n : N) : byte := default x00 (Byte.of_N (n mod 256)).

Fixpoint be_fixed (width : nat) (n : N) : bytes :=
  match width with
  | O => []
  | S w => byte_of_N (n / 256 ^ N.of_nat w) :: be_fixed w n
  end.

(** [common.Address(x.Bytes20())]: the low 20 bytes of the word. *)
Definition Bytes20 (x : N) : common_Address := be_fixed 20 x.

Definition zero_Address : common_Address := replicate 20 x00.
Definition zero_Hash : common_Hash := replicate 32 x00.

(** [crypto.Keccak256Hash(nil)]. *)
Definition emptyCodeHash : common_Hash :=
  [xc5; xd2; x46; x01; x86; xf7; x23; x3c; x92; x7e; x7d; xb2; xdc; xc7; x03; xc0;
   xe5; x00; xb6; x53; xca; x82; x27; x3b; x7b; xfa; xd8; x04; x5d; x85; xa4; x70].

(** ** The streaming tracer (current revision of [txtracev2]) *)
Module Tracer.
Import GoSlice.

Abbreviation node := (InternalActionTrace slice).

(** [traceStack] holds pointers, innermost last, as in the source.

    Modelled from the spec: the declaration of [InternalActionTraceList],
    the type of [outPutTraces] in this revision, is not among the sources.
    It is the trace set of the specification (block hash, block number,
    transaction hash, transaction position and the ordered list of nodes),
    here the record of [internal_types.go] with the nodes of the tracer as
    elements. *)
Record OeTracer := mkOeTracer {
  heap_ : heap;
  traceStack : list nat;
  outPutTraces : InternalActionTraces slice;
  env : option vm.EVM
}.

Definition NewOeTracer (blockHash : common_Hash) (blockNumber : option Z)
  (transactionHash : common_Hash) (transactionPosition : N) : OeTracer :=
  mkOeTracer [] [] (mkInternalActionTraces [] blockHash blockNumber transactionHash
                      transactionPosition) None.

Definition traces (ot : OeTracer) : list node := Traces (outPutTraces ot).
Arguments traces : simpl never.

Definition with_state (h : heap) (st : list nat) (ts : list node) (ot : OeTracer) : OeTracer :=
  let o := outPutTraces ot in
  mkOeTracer h st
    (mkInternalActionTraces ts (BlockHash o) (BlockNumber o) (TransactionHash o)
       (TransactionPosition o))
    (env ot).

Definition set_env (e : vm.EVM) (ot : OeTracer) : OeTracer :=
  mkOeTracer (heap_ ot) (traceStack ot) (outPutTraces ot) (Some e).

Section WithRuntime.

Variable growcap : nat -> nat -> nat.

(** The block that [createEnter], [callEnter] and [suicideEnter] share word
    for word: allocate the node with an empty address; under an open parent
    copy the parent's address into a fresh array, append the parent's
    [Subtraces] and increment it; append the node to the output list and
    push it. *)
Definition enterTrace (action : InternalAction) (ot : OeTracer) : option OeTracer :=
  let '(h0, a0) := make (heap_ ot) 0 in
  match last (traceStack ot) with
  | None =>
      Some (with_state h0 (traceStack ot ++ [length (traces ot)])
              (traces ot ++ [mkInternalActionTrace action None "" a0 0]) ot)
  | Some top =>
      parent ← traces ot !! top;
      let '(h1, a1) := make h0 (len (TraceAddress parent)) in
      let h2 := copy h1 a1 (TraceAddress parent) in
      let '(h3, a2) := append growcap h2 a1 (Subtraces parent) in
      let ts := alter (set_Subtraces (wrap32 (Subtraces parent + 1))) top (traces ot) in
      Some (with_state h3 (traceStack ot ++ [length ts])
              (ts ++ [mkInternalActionTrace action None "" a2 0]) ot)
  end.

Definition createEnter (from address : common_Address) (input : bytes) (gas : N)
  (value : option Z) : OeTracer -> option OeTracer :=
  enterTrace (mkInternalAction CallTypeCreate (Some from) None value gas input []
                (Some address) None None).

Definition createExit (output : bytes) (gasUsed : N) (err : option error)
  (internalTrace : node) : node :=
  if decide (Error internalTrace ≠ "") then set_Result None internalTrace
  else match err with
       | Some e => set_Result None (set_Error e internalTrace)
       | None =>
           set_Result
             (Some (mkInternalTraceActionResult gasUsed [] output
                      (Address (Action internalTrace))))
             internalTrace
       end.

Definition callEnter (callType : N) (from to : common_Address) (input : bytes) (gas : N)
  (value : option Z) : OeTracer -> option OeTracer :=
  enterTrace (mkInternalAction callType (Some from) (Some to) value gas [] input
                None None None).

Definition callExit (output : bytes) (gasUsed : N) (err : option error)
  (internalTrace : node) : node :=
  if decide (Error internalTrace ≠ "") then set_Result None internalTrace
  else match err with
       | Some e => set_Result None (set_Error e internalTrace)
       | None =>
           set_Result (Some (mkInternalTraceActionResult gasUsed output [] None))
             internalTrace
       end.

Definition suicideEnter (address refundAddress : common_Address) (_ : bytes) (_ : N)
  (balance : option Z) : OeTracer -> option OeTracer :=
  enterTrace (mkInternalAction CallTypeSuicide None None None 0 [] []
                (Some address) (Some refundAddress) balance).

Definition suicideExit (output : bytes) (gasUsed : N) (err : option error)
  (internalTrace : node) : node :=
  if decide (Error internalTrace ≠ "") then set_Result None internalTrace
  else match err with
       | Some e => set_Result None (set_Error e internalTrace)
       | None => internalTrace
       end.

Definition CaptureStart (e : vm.EVM) (from to : common_Address) (create : bool)
  (input : bytes) (gas : N) (value : option Z) (ot : OeTracer) : option OeTracer :=
  ot1 ← (if create then createEnter from to input gas value ot
         else callEnter CallTypeCall from to input gas value ot);
  Some (set_env e ot1).

(** [internalTrace := traceStack[len-1]; traceStack = traceStack[:len-1]]. *)
Definition pop (ot : OeTracer) : option (nat * node * OeTracer) :=
  top ← last (traceStack ot);
  internalTrace ← traces ot !! top;
  Some (top, internalTrace,
        with_state (heap_ ot) (take (length (traceStack ot) - 1) (traceStack ot))
          (traces ot) ot).

Definition update (p : nat) (f : node -> node) (ot : OeTracer) : OeTracer :=
  with_state (heap_ ot) (traceStack ot) (alter f p (traces ot)) ot.

Definition CaptureEnd (output : bytes) (gasUsed : N) (err : option error)
  (ot : OeTracer) : option OeTracer :=
  '(p, internalTrace, ot1) ← pop ot;
  if decide (CallType (Action internalTrace) = CallTypeCreate)
  then Some (update p (createExit output gasUsed err) ot1)
  else Some (update p (callExit output gasUsed err) ot1).

Definition CaptureEnter (typ : vm.OpCode) (from to : common_Address) (input : bytes)
  (gas : N) (value : option Z) (ot : OeTracer) : option OeTracer :=
  if decide (typ = vm.CREATE ∨ typ = vm.CREATE2) then createEnter from to input gas value ot
  else if decide (typ = vm.CALL) then callEnter CallTypeCall from to input gas value ot
  else if decide (typ = vm.CALLCODE) then callEnter CallTypeCallCode from to input gas value ot
  else if decide (typ = vm.DELEGATECALL)
       then callEnter CallTypeDelegateCall from to input gas value ot
  else if decide (typ = vm.STATICCALL)
       then callEnter CallTypeStaticCall from to input gas value ot
  else if decide (typ = vm.SELFDESTRUCT) then suicideEnter from to input gas value ot
  else Some ot.

Definition CaptureExit (output : bytes) (gasUsed : N) (err : option error)
  (ot : OeTracer) : option OeTracer :=
  '(p, internalTrace, ot1) ← pop ot;
  let ct := CallType (Action internalTrace) in
  if decide (ct = CallTypeCreate) then Some (update p (createExit output gasUsed err) ot1)
  else if decide (ct = CallTypeCall ∨ ct = CallTypeCallCode ∨ ct = CallTypeDelegateCall
                  ∨ ct = CallTypeStaticCall)
       then Some (update p (callExit output gasUsed err) ot1)
  else if decide (ct = CallTypeSuicide)
       then Some (update p (suicideExit output gasUsed err) ot1)
  else Some ot1.

(** The two synthesizers.  [None] is a panic: of [Stack.Back] on a stack
    that is too short, of [Memory.GetCopy] on the input window, or of the
    callbacks. *)
Definition createPreProcessFailed (op : vm.OpCode) (scope : vm.ScopeContext) (gas : N)
  (value : option Z) (err : error) (ot : OeTracer) : option OeTracer :=
  offset ← vm.Back scope 1;
  size ← vm.Back scope 2;
  input ← vm.GetCopy (vm.Memory_ scope) (int64_of_word offset) (int64_of_word size);
  ot1 ← CaptureEnter op (vm.ContractAddress scope) zero_Address input gas value ot;
  CaptureExit [] 0 (Some err) ot1.

Definition callPreProcessFailed (op : vm.OpCode) (scope : vm.ScopeContext) (gas : N)
  (value : option Z) (err : error) (ot : OeTracer) : option OeTracer :=
  addr ← vm.Back scope 1;
  '(offset, size) ←
    (if decide (op = vm.CALL ∨ op = vm.CALLCODE)
     then o ← vm.Back scope 3; s ← vm.Back scope 4; Some (o, s)
     else o ← vm.Back scope 2; s ← vm.Back scope 3; Some (o, s));
  input ← vm.GetCopy (vm.Memory_ scope) (int64_of_word offset) (int64_of_word size);
  ot1 ← CaptureEnter op (vm.ContractAddress scope) (Bytes20 addr) input gas value ot;
  CaptureExit [] 0 (Some err) ot1.

Definition checkDepthAboveLitmit (depth : Z) : option error :=
  if decide (depth > vm.CallCreateDepth)%Z then Some vm.ErrDepth else None.

(** The three checks below dereference [ot.env]; the outer [option] is the
    panic when it is nil. *)
Definition checkCanTransfer (ot : OeTracer) (addr : common_Address) (value : Z)
  : option (option error) :=
  if decide (value ≠ 0%Z) then
    e ← env ot;
    Some (if vm.CanTransfer e addr value then None else Some vm.ErrInsufficientBalance)
  else Some None.

Definition checkNonceMatch (ot : OeTracer) (addr : common_Address) : option (option error) :=
  e ← env ot;
  let nonce := vm.GetNonce e addr in
  Some (if decide (wrap64 (nonce + 1) < nonce) then Some vm.ErrNonceUintOverflow else None).

Definition checkContractNotExist (ot : OeTracer) (addr : common_Address)
  : option (option error) :=
  e ← env ot;
  let contractHash := vm.GetCodeHash e addr in
  Some (if decide (vm.GetNonce e addr ≠ 0
                   ∨ (contractHash ≠ zero_Hash ∧ contractHash ≠ emptyCodeHash))
        then Some vm.ErrContractAddressCollision else None).

Definition CaptureState (op : vm.OpCode) (gas : N) (scope : vm.ScopeContext) (depth : Z)
  (err : option error) (ot : OeTracer) : option OeTracer :=
  if decide (op = vm.CREATE ∨ op = vm.CREATE2) then
    value ← vm.Back scope 0;
    let bigVal := Z.of_N value in
    let failed := fun e => createPreProcessFailed op scope gas (Some bigVal) e ot in
    match err with
    | Some e => failed e
    | None =>
    match checkDepthAboveLitmit depth with
    | Some e => failed e
    | None =>
    err ← checkCanTransfer ot (vm.ContractAddress scope) bigVal;
    match err with
    | Some e => failed e
    | None =>
    err ← checkNonceMatch ot (vm.ContractAddress scope);
    match err with
    | Some e => failed e
    | None =>
    err ← checkContractNotExist ot (vm.ContractAddress scope);
    match err with
    | Some e => failed e
    | None => Some ot
    end end end end end
  else if decide (op = vm.CALL ∨ op = vm.CALLCODE) then
    value ← vm.Back scope 2;
    let bigVal := Z.of_N value in
    let failed := fun e => callPreProcessFailed op scope gas (Some bigVal) e ot in
    (* [err = ot.checkDepthAboveLitmit(depth)] overwrites the parameter *)
    let err := checkDepthAboveLitmit depth in
    match err with
    | Some e => failed e
    | None =>
    match err with
    | Some e => failed e
    | None =>
    err ← checkCanTransfer ot (vm.ContractAddress scope) bigVal;
    match err with
    | Some e => failed e
    | None => Some ot
    end end end
  else if decide (op = vm.DELEGATECALL ∨ op = vm.STATICCALL) then
    let failed := fun e => callPreProcessFailed op scope gas None e ot in
    match err with
    | Some e => failed e
    | None =>
    match checkDepthAboveLitmit depth with
    | Some e => failed e
    | None => Some ot
    end end
  else if decide (op = vm.REVERT) then
    top ← last (traceStack ot);
    _ ← traces ot !! top;
    Some (update top (set_Error "execution reverted") ot)
  else Some ot.

Definition CaptureFault (ot : OeTracer) : option OeTracer := Some ot.

(** The callbacks of [vm.EVMLogger], as events of one tracer. *)
Inductive event :=
| EvStart (e : vm.EVM) (from to : common_Address) (create : bool) (input : bytes)
    (gas : N) (value : option Z)
| EvEnd (output : bytes) (gasUsed : N) (err : option error)
| EvEnter (typ : vm.OpCode) (from to : common_Address) (input : bytes) (gas : N)
    (value : option Z)
| EvExit (output : bytes) (gasUsed : N) (err : option error)
| EvState (op : vm.OpCode) (gas : N) (scope : vm.ScopeContext) (depth : Z)
    (err : option error)
| EvFault.

Definition step (ev : event) (ot : OeTracer) : option OeTracer :=
  match ev with
  | EvStart e from to create input gas value => CaptureStart e from to create input gas value ot
  | EvEnd output gasUsed err => CaptureEnd output gasUsed err ot
  | EvEnter typ from to input gas value => CaptureEnter typ from to input gas value ot
  | EvExit output gasUsed err => CaptureExit output gasUsed err ot
  | EvState op gas scope depth err => CaptureState op gas scope depth err ot
  | EvFault => CaptureFault ot
  end.

Fixpoint run (evs : list event) (ot : OeTracer) : option OeTracer :=
  match evs with
  | [] => Some ot
  | ev :: evs' => ot1 ← step ev ot; run evs' ot1
  end.

End WithRuntime.

(** The sealed value of a node: its address read through the heap. *)
Definition seal (h : heap) (t : node) : InternalActionTrace (list N) :=
  mkInternalActionTrace (Action t) (Result t) (Error t) (elems h (TraceAddress t))
    (Subtraces t).

Definition sealed (ot : OeTracer) : list (InternalActionTrace (list N)) :=
  map (seal (heap_ ot)) (traces ot).

(** *** Vocabulary of the statements *)

Definition call_like (typ : vm.OpCode) : bool :=
  bool_decide (typ ∈ [vm.CREATE; vm.CREATE2; vm.CALL; vm.CALLCODE; vm.DELEGATECALL;
                      vm.STATICCALL; vm.SELFDESTRUCT]).

(** Valid nesting order: the depth after an event that the engine may emit
    at depth [d].  The root is opened at depth 0 and closed at depth 1; an
    exit closes a nested node; opcodes are observed inside the root. *)
Definition nest (d : nat) (ev : event) : option nat :=
  match ev with
  | EvStart _ _ _ _ _ _ _ => if decide (d = 0)%nat then Some 1%nat else None
  | EvEnd _ _ _ => if decide (d = 1)%nat then Some 0%nat else None
  | EvEnter typ _ _ _ _ _ =>
      if call_like typ && bool_decide (1 ≤ d)%nat then Some (S d) else None
  | EvExit _ _ _ => if decide (2 ≤ d)%nat then Some (d - 1)%nat else None
  | EvState _ _ _ _ _ => if decide (1 ≤ d)%nat then Some d else None
  | EvFault => Some d
  end.

Fixpoint nesting (d : nat) (evs : list event) : option nat :=
  match evs with
  | [] => Some d
  | ev :: evs' => d' ← nest d ev; nesting d' evs'
  end.

Definition is_call_event (ev : event) : bool :=
  match ev with
  | EvEnter _ _ _ _ _ _ | EvExit _ _ _ => true
  | _ => false
  end.

(** The events that open or close a node. *)
Definition is_bracket_event (ev : event) : bool :=
  match ev with
  | EvState _ _ _ _ _ | EvFault => false
  | _ => true
  end.

Definition is_enter (ev : event) : bool :=
  match ev with
  | EvStart _ _ _ _ _ _ _ | EvEnter _ _ _ _ _ _ => true
  | _ => false
  end.

(** The action of the node an enter event creates. *)
Definition enter_action (ev : event) : option InternalAction :=
  match ev with
  | EvStart _ from to create input gas value =>
      Some (if create
            then mkInternalAction CallTypeCreate (Some from) None value gas input []
                   (Some to) None None
            else mkInternalAction CallTypeCall (Some from) (Some to) value gas [] input
                   None None None)
  | EvEnter typ from to input gas value =>
      if decide (typ = vm.CREATE ∨ typ = vm.CREATE2)
      then Some (mkInternalAction CallTypeCreate (Some from) None value gas input []
                   (Some to) None None)
      else if decide (typ = vm.SELFDESTRUCT)
      then Some (mkInternalAction CallTypeSuicide None None None 0 [] []
                   (Some from) (Some to) value)
      else if decide (typ = vm.CALL)
      then Some (mkInternalAction CallTypeCall (Some from) (Some to) value gas [] input
                   None None None)
      else if decide (typ = vm.CALLCODE)
      then Some (mkInternalAction CallTypeCallCode (Some from) (Some to) value gas [] input
                   None None None)
      else if decide (typ = vm.DELEGATECALL)
      then Some (mkInternalAction CallTypeDelegateCall (Some from) (Some to) value gas []
                   input None None None)
      else if decide (typ = vm.STATICCALL)
      then Some (mkInternalAction CallTypeStaticCall (Some from) (Some to) value gas []
                   input None None None)
      else None
  | _ => None
  end.

Definition enter_actions (evs : list event) : list InternalAction := omap enter_action evs.

(** An error value carries a message. *)
Definition err_ok (err : option error) : bool :=
  match err with Some e => bool_decide (e ≠ "") | None => true end.

Definition errs_ok (ev : event) : bool :=
  match ev with
  | EvEnd _ _ err | EvExit _ _ err | EvState _ _ _ _ err => err_ok err
  | _ => true
  end.

(** A node is closed when it has been allocated and is no longer open. *)
Definition closed (ot : OeTracer) (p : nat) : Prop :=
  (p < length (traces ot))%nat ∧ p ∉ traceStack ot.

Definition closed_nodes (ot : OeTracer) : list node :=
  omap (fun p => if decide (p ∈ traceStack ot) then None else traces ot !! p)
    (seq 0 (length (traces ot))).

Definition exactly_one (t : node) : Prop :=
  (Result t ≠ None ∧ Error t = "") ∨ (Result t = None ∧ Error t ≠ "").

Definition is_suicide (t : node) : Prop := CallType (Action t) = CallTypeSuicide.

Definition known_kind (t : node) : Prop := CallType (Action t) ≤ 5.

(** What holds of a closed node: a create or call node has exactly one of
    result and error, a selfdestruct node has no result. *)
Definition closed_ok (t : node) : Prop :=
  (¬ is_suicide t → exactly_one t) ∧ (is_suicide t → Result t = None).

(** Pointer discipline, kept by every callback: the open stack has no
    repeated node, points into the node list, and open nodes carry no
    result yet. *)
Record PInv (ot : OeTracer) : Prop := mkPInv {
  pinv_nodup : NoDup (traceStack ot);
  pinv_bound : ∀ p, p ∈ traceStack ot → (p < length (traces ot))%nat;
  pinv_open : ∀ p t, p ∈ traceStack ot → traces ot !! p = Some t → Result t = None
}.

(** The states reached at nesting depth [d] of a validly nested stream. *)
Record Inv (d : nat) (ot : OeTracer) : Prop := mkInv {
  inv_pinv : PInv ot;
  inv_depth : length (traceStack ot) = d;
  inv_kind : ∀ p t, traces ot !! p = Some t → known_kind t;
  inv_root : ∀ r st t, traceStack ot = r :: st → traces ot !! r = Some t → ¬ is_suicide t;
  inv_closed : ∀ p t, traces ot !! p = Some t → p ∉ traceStack ot → closed_ok t
}.

(** Node [x] carries the revert mark, and no result once closed. *)
Definition marked (ot : OeTracer) (x : nat) : Prop :=
  ∃ t, traces ot !! x = Some t ∧ Error t = "execution reverted"
       ∧ (x ∉ traceStack ot → Result t = None).

(** The events that record an error on the innermost open node: an exit
    that is handed an error, and an observed REVERT. *)
Definition sets_error (ev : event) : bool :=
  match ev with
  | EvExit _ _ (Some _) | EvEnd _ _ (Some _) => true
  | EvState op _ _ _ _ => bool_decide (op = vm.REVERT)
  | _ => false
  end.

(** While the stream [evs] runs from [init], such an event arrives at a
    moment when node [p] is the innermost open node: the exit is the exit
    of [p], the REVERT is observed in [p]. *)
Definition blamed (growcap : nat -> nat -> nat) (init : OeTracer) (evs : list event)
  (p : nat) : Prop :=
  ∃ pre ev post ot0,
    evs = pre ++ ev :: post ∧ run growcap pre init = Some ot0
    ∧ last (traceStack ot0) = Some p ∧ sets_error ev = true.

(** *** Concrete inputs *)

Definition witness_env : vm.EVM := vm.mkEVM (fun _ _ => true) (fun _ => 0) (fun _ => zero_Hash).

Definition witness_body : list event :=
  [EvEnter vm.CALL zero_Address zero_Address [] 50 None;
   EvEnter vm.CREATE zero_Address zero_Address [] 20 None;
   EvEnter vm.SELFDESTRUCT zero_Address zero_Address [] 0 None;
   EvExit [] 0 None;
   EvExit [] 5 None;
   EvExit [] 5 None].

Definition witness_events : list event :=
  EvStart witness_env zero_Address zero_Address false [] 100 None
  :: witness_body ++ [EvEnd [] 9 None].

Definition witness_init : OeTracer := NewOeTracer zero_Hash (Some 1%Z) zero_Hash 0.

(** A root call closed with an error value whose message is empty. *)
Definition empty_message_events : list event :=
  [EvStart witness_env zero_Address zero_Address false [] 100 None;
   EvEnd [] 9 (Some "")].

(** The effect of a synthesized enter and exit with error [e]: the open
    stack is as before and one node has been appended, with that error and
    no result; the older nodes keep everything but, for the parent, the
    child count. *)
Definition synthesized (e : error) (ot ot' : OeTracer) : Prop :=
  traceStack ot' = traceStack ot
  ∧ ∃ ts t, traces ot' = ts ++ [t] ∧ length ts = length (traces ot)
      ∧ Error t = e ∧ Result t = None
      ∧ ∀ q t0, traces ot !! q = Some t0 →
          ∃ t', ts !! q = Some t' ∧ Action t' = Action t0 ∧ Result t' = Result t0
                ∧ Error t' = Error t0 ∧ TraceAddress t' = TraceAddress t0.

(** One enter for [op] with the given operands, immediately followed by
    one exit that carries no output, zero gas used and the error [e]; the
    node that has been appended has the action of that enter. *)
Definition emits (growcap : nat -> nat -> nat) (op : vm.OpCode) (from to : common_Address)
  (input : bytes) (gas : N) (value : option Z) (e : error) (ot ot' : OeTracer) : Prop :=
  ∃ ot1 t,
    CaptureEnter growcap op from to input gas value ot = Some ot1
    ∧ CaptureExit [] 0 (Some e) ot1 = Some ot'
    ∧ synthesized e ot ot'
    ∧ last (traces ot') = Some t
    ∧ enter_action (EvEnter op from to input gas value) = Some (Action t).

(** A CREATE2 observed below the root, with value 7, offset 0 and size 0
    on the operand stack. *)
Definition create2_scope : vm.ScopeContext :=
  vm.mkScope [0; 0; 0; 7] (vm.mkMemory [] []) zero_Address.

Definition call_scope : vm.ScopeContext :=
  vm.mkScope [0; 0; 0; 0; 0; 0; 1000] (vm.mkMemory [] []) zero_Address.




(** A selfdestruct whose exit is handed an error. *)
Definition failed_suicide_events : list event :=
  [EvStart witness_env zero_Address zero_Address false [] 100 None;
   EvEnter vm.SELFDESTRUCT zero_Address zero_Address [] 0 None;
   EvExit [] 0 (Some "out of gas");
   EvEnd [] 9 None].

(** Every node's address is a slice that fits the heap. *)
Definition HInv (ot : OeTracer) : Prop :=
  ∀ q t, traces ot !! q = Some t → slice_ok (heap_ ot) (TraceAddress t).

(** The heap only grows and the nodes keep their slice headers. *)
Definition extends (ot ot' : OeTracer) : Prop :=
  (∃ k, heap_ ot' = heap_ ot ++ k)
  ∧ ∀ q t, traces ot !! q = Some t →
      ∃ t', traces ot' !! q = Some t' ∧ TraceAddress t' = TraceAddress t.

(** The address of the [q]-th node, read through the heap. *)
Definition address_of (ot : OeTracer) (q : nat) : option (list N) :=
  t ← traces ot !! q; Some (elems (heap_ ot) (TraceAddress t)).

(** The engine environment of the examples, with every transfer refused. *)
Definition poor_env : vm.EVM := vm.mkEVM (fun _ _ => false) (fun _ => 0) (fun _ => zero_Hash).

(** A CALL with value 5 (third word from the top). *)
Definition call_value_scope : vm.ScopeContext :=
  vm.mkScope [0; 0; 0; 0; 5; 0; 1000] (vm.mkMemory [] []) zero_Address.

(** The root call has been entered and a nested call is open. *)
Definition revert_pre : list event :=
  [EvStart witness_env zero_Address zero_Address false [] 100 None;
   EvEnter vm.CALL zero_Address zero_Address [] 50 None].

Definition revert_post : list event :=
  [EvExit [x01] 5 None; EvEnd [] 9 None].

(** What closing the innermost node does: it is popped and rewritten in
    place by the exit function of its kind. *)
Definition closes (f : node -> node) (p : nat) (t : node) (ot ot' : OeTracer) : Prop :=
  exists st, traceStack ot = st ++ [p] /\ traces ot !! p = Some t
    /\ traceStack ot' = st /\ traces ot' = alter f p (traces ot)
    /\ heap_ ot' = heap_ ot /\ env ot' = env ot.

End Tracer.

(** ** The streaming tracer, earlier revision of [txtracev2]

    The revision that goes with [internal_types.go]: nodes are collected in
    [traces] and copied into [outPutTraces] when the root closes; a child's
    address is appended directly to the parent's slice.  Byte payloads are
    kept as values; that this revision stores the caller's buffers without
    copying them is not modelled. *)
Module Legacy.
Import GoSlice.

Abbreviation node := (InternalActionTrace slice).

Record OeTracer := mkOeTracer {
  heap_ : heap;
  traces : list node;
  traceStack : list nat;
  outPutTraces : InternalActionTraces slice
}.

Definition NewOeTracer (blockHash : common_Hash) (blockNumber : option Z)
  (transactionHash : common_Hash) (transactionPosition : N) : OeTracer :=
  mkOeTracer [] [] [] (mkInternalActionTraces [] blockHash blockNumber transactionHash
                         transactionPosition).

Definition with_state (h : heap) (ts : list node) (st : list nat) (ot : OeTracer) : OeTracer :=
  mkOeTracer h ts st (outPutTraces ot).

Section WithRuntime.

Variable growcap : nat -> nat -> nat.

(** The block shared by the three enter functions of this revision. *)
Definition enterTrace (action : InternalAction) (ot : OeTracer) : option OeTracer :=
  match last (traceStack ot) with
  | None =>
      Some (with_state (heap_ ot)
              (traces ot ++ [mkInternalActionTrace action None "" nil_slice 0])
              (traceStack ot ++ [length (traces ot)]) ot)
  | Some top =>
      parent ← traces ot !! top;
      let '(h1, a1) := append growcap (heap_ ot) (TraceAddress parent) (Subtraces parent) in
      let ts := alter (set_Subtraces (wrap32 (Subtraces parent + 1))) top (traces ot) in
      Some (with_state h1 (ts ++ [mkInternalActionTrace action None "" a1 0])
              (traceStack ot ++ [length ts]) ot)
  end.

Definition createEnter (from address : common_Address) (input : bytes) (gas : N)
  (value : option Z) : OeTracer -> option OeTracer :=
  enterTrace (mkInternalAction CallTypeCreate (Some from) None value gas input []
                (Some address) None None).

Definition createExit (output : bytes) (gasUsed : N) (err : option error)
  (internalTrace : node) : node :=
  match err with
  | Some e => set_Result None (set_Error e internalTrace)
  | None =>
      set_Result
        (Some (mkInternalTraceActionResult gasUsed [] output (Address (Action internalTrace))))
        internalTrace
  end.

Definition callEnter (callType : N) (from to : common_Address) (input : bytes) (gas : N)
  (value : option Z) : OeTracer -> option OeTracer :=
  enterTrace (mkInternalAction callType (Some from) (Some to) value gas [] input
                None None None).

Definition callExit (output : bytes) (gasUsed : N) (err : option error)
  (internalTrace : node) : node :=
  match err with
  | Some e => set_Result None (set_Error e internalTrace)
  | None => set_Result (Some (mkInternalTraceActionResult gasUsed output [] None)) internalTrace
  end.

Definition suicideEnter (address refundAddress : common_Address) (_ : bytes) (_ : N)
  (balance : option Z) : OeTracer -> option OeTracer :=
  enterTrace (mkInternalAction CallTypeSuicide None None None 0 [] []
                (Some address) (Some refundAddress) balance).

Definition suicideExit (output : bytes) (gasUsed : N) (err : option error)
  (internalTrace : node) : node :=
  match err with
  | Some e => set_Result None (set_Error e internalTrace)
  | None => internalTrace
  end.

Definition CaptureStart (from to : common_Address) (create : bool) (input : bytes) (gas : N)
  (value : option Z) (ot : OeTracer) : option OeTracer :=
  if create then createEnter from to input gas value ot
  else callEnter CallTypeCall from to input gas value ot.

Definition pop (ot : OeTracer) : option (nat * node * OeTracer) :=
  top ← last (traceStack ot);
  internalTrace ← traces ot !! top;
  Some (top, internalTrace,
        with_state (heap_ ot) (traces ot)
          (take (length (traceStack ot) - 1) (traceStack ot)) ot).

Definition update (p : nat) (f : node -> node) (ot : OeTracer) : OeTracer :=
  with_state (heap_ ot) (alter f p (traces ot)) (traceStack ot) ot.

(** The closing loop copies every node, slice headers included, into
    [outPutTraces.Traces]. *)
Definition finish (ot : OeTracer) : OeTracer :=
  let o := outPutTraces ot in
  mkOeTracer (heap_ ot) (traces ot) (traceStack ot)
    (mkInternalActionTraces (Traces o ++ traces ot) (BlockHash o) (BlockNumber o)
       (TransactionHash o) (TransactionPosition o)).

Definition CaptureEnd (output : bytes) (gasUsed : N) (err : option error)
  (ot : OeTracer) : option OeTracer :=
  '(p, internalTrace, ot1) ← pop ot;
  if decide (CallType (Action internalTrace) = CallTypeCreate)
  then Some (finish (update p (createExit output gasUsed err) ot1))
  else Some (finish (update p (callExit output gasUsed err) ot1)).

Definition CaptureEnter (typ : vm.OpCode) (from to : common_Address) (input : bytes)
  (gas : N) (value : option Z) (ot : OeTracer) : option OeTracer :=
  if decide (typ = vm.CREATE ∨ typ = vm.CREATE2) then createEnter from to input gas value ot
  else if decide (typ = vm.CALL) then callEnter CallTypeCall from to input gas value ot
  else if decide (typ = vm.CALLCODE) then callEnter CallTypeCallCode from to input gas value ot
  else if decide (typ = vm.DELEGATECALL)
       then callEnter CallTypeDelegateCall from to input gas value ot
  else if decide (typ = vm.STATICCALL)
       then callEnter CallTypeStaticCall from to input gas value ot
  else if decide (typ = vm.SELFDESTRUCT) then suicideEnter from to input gas value ot
  else Some ot.

Definition CaptureExit (output : bytes) (gasUsed : N) (err : option error)
  (ot : OeTracer) : option OeTracer :=
  '(p, internalTrace, ot1) ← pop ot;
  let ct := CallType (Action internalTrace) in
  if decide (ct = CallTypeCreate) then Some (update p (createExit output gasUsed err) ot1)
  else if decide (ct = CallTypeCall ∨ ct = CallTypeCallCode ∨ ct = CallTypeDelegateCall
                  ∨ ct = CallTypeStaticCall)
       then Some (update p (callExit output gasUsed err) ot1)
  else if decide (ct = CallTypeSuicide)
       then Some (update p (suicideExit output gasUsed err) ot1)
  else Some ot1.

Inductive event :=
| EvStart (from to : common_Address) (create : bool) (input : bytes) (gas : N)
    (value : option Z)
| EvEnd (output : bytes) (gasUsed : N) (err : option error)
| EvEnter (typ : vm.OpCode) (from to : common_Address) (input : bytes) (gas : N)
    (value : option Z)
| EvExit (output : bytes) (gasUsed : N) (err : option error).

Definition step (ev : event) (ot : OeTracer) : option OeTracer :=
  match ev with
  | EvStart from to create input gas value => CaptureStart from to create input gas value ot
  | EvEnd output gasUsed err => CaptureEnd output gasUsed err ot
  | EvEnter typ from to input gas value => CaptureEnter typ from to input gas value ot
  | EvExit output gasUsed err => CaptureExit output gasUsed err ot
  end.

Fixpoint run (evs : list event) (ot : OeTracer) : option OeTracer :=
  match evs with
  | [] => Some ot
  | ev :: evs' => ot1 ← step ev ot; run evs' ot1
  end.

End WithRuntime.

(** The address the [p]-th allocated node denotes in the current heap. *)
Definition address_of (ot : OeTracer) (p : nat) : option (list N) :=
  t ← traces ot !! p; Some (elems (heap_ ot) (TraceAddress t)).

(** The address the [p]-th node of the sealed output denotes. *)
Definition output_address_of (ot : OeTracer) (p : nat) : option (list N) :=
  t ← Traces (outPutTraces ot) !! p; Some (elems (heap_ ot) (TraceAddress t)).

(** A root call whose callee makes two calls in a row. *)
Definition two_calls_open : list event :=
  [EvStart zero_Address zero_Address false [] 100 None;
   EvEnter vm.CALL zero_Address zero_Address [] 50 None;
   EvEnter vm.CALL zero_Address zero_Address [] 20 None].

Definition two_calls_rest : list event :=
  [EvExit [] 5 None;
   EvEnter vm.CALL zero_Address zero_Address [] 20 None;
   EvExit [] 5 None;
   EvExit [] 9 None;
   EvEnd [] 12 None].

Definition legacy_init : OeTracer := NewOeTracer zero_Hash (Some 1%Z) zero_Hash 0.

End Legacy.

(** ** RLP, as go-ethereum's [rlp] package encodes and decodes it

    The storage form is [rlp.EncodeToBytes] of the struct.  The package is a
    library outside the repository; it is modelled in two layers: the byte
    encoding of items (strings and lists) with the canonical-form checks of
    the decoder, and the per-type rules that map the fields of the structs
    to items, including the [rlp:"nil"] tag of pointer fields. *)
Module rlp.

#[warnings="-register-all"] Inductive item :=
| Str (b : bytes)
| List (xs : list item).

(** Base-256 digits, least significant first; [fuel] bounds the number of
    digits. *)
Fixpoint le_bytes (fuel : nat) (n : N) : bytes :=
  match fuel with
  | O => []
  | S f => if decide (n = 0) then [] else byte_of_N n :: le_bytes f (n / 256)
  end.

(** Minimal big-endian bytes of a number; empty for zero. *)
Definition be_bytes (n : N) : bytes := rev (le_bytes (N.to_nat (N.size n)) n).

Definition be_value (b : bytes) : N :=
  fold_left (fun acc x => acc * 256 + Byte.to_N x) b 0.

Definition encode_header (offset : N) (size : nat) : bytes :=
  let n := N.of_nat size in
  if decide (n < 56) then [byte_of_N (offset + n)]
  else let bl := be_bytes n in byte_of_N (offset + 55 + N.of_nat (length bl)) :: bl.

Fixpoint encode (i : item) : bytes :=
  match i with
  | Str b =>
      match b with
      | [x] => if decide (Byte.to_N x < 128) then [x] else encode_header 0x80 1 ++ b
      | _ => encode_header 0x80 (length b) ++ b
      end
  | List xs =>
      let payload := concat (map encode xs) in
      encode_header 0xc0 (length payload) ++ payload
  end.

Inductive kind := Byte_ | String_ | List_.

(** A size of [lenlen] bytes after the header byte: big-endian, no leading
    zero, and not below 56 (else the short form was due). *)
Definition read_size (lenlen : N) (b : bytes) : option (nat * bytes) :=
  let k := N.to_nat lenlen in
  if decide (length b < k)%nat then None
  else match take k b with
       | [] => None
       | x :: _ =>
           if decide (Byte.to_N x = 0) then None
           else let n := be_value (take k b) in
                if decide (n < 56) then None else Some (N.to_nat n, drop k b)
       end.

Definition take_payload (k : kind) (size : nat) (b : bytes) : option (kind * bytes * bytes) :=
  if decide (length b < size)%nat then None else Some (k, take size b, drop size b).

(** The kind and payload of the next value, and the bytes after it. *)
Definition read_kind (b : bytes) : option (kind * bytes * bytes) :=
  match b with
  | [] => None
  | x :: rest =>
      let v := Byte.to_N x in
      if decide (v < 0x80) then Some (Byte_, [x], rest)
      else if decide (v < 0xb8) then take_payload String_ (N.to_nat (v - 0x80)) rest
      else if decide (v < 0xc0) then
        '(n, rest') ← read_size (v - 0xb7) rest; take_payload String_ n rest'
      else if decide (v < 0xf8) then take_payload List_ (N.to_nat (v - 0xc0)) rest
      else '(n, rest') ← read_size (v - 0xf7) rest; take_payload List_ n rest'
  end.

(** A one-byte string below 0x80 must use the single-byte form. *)
Definition canonical_string (payload : bytes) : bool :=
  match payload with
  | [x] => bool_decide (128 ≤ Byte.to_N x)
  | _ => true
  end.

Fixpoint decode_item (fuel : nat) (b : bytes) : option (item * bytes) :=
  match fuel with
  | O => None
  | S f =>
      '(k, payload, rest) ← read_kind b;
      match k with
      | Byte_ => Some (Str payload, rest)
      | String_ => if canonical_string payload then Some (Str payload, rest) else None
      | List_ => xs ← decode_items f payload; Some (List xs, rest)
      end
  end
with decode_items (fuel : nat) (b : bytes) : option (list item) :=
  match fuel with
  | O => None
  | S f =>
      match b with
      | [] => Some []
      | _ => '(i, rest) ← decode_item f b; xs ← decode_items f rest; Some (i :: xs)
      end
  end.

(** Fuel that suffices to decode the encoding of an item. *)
Fixpoint fuel_needed (i : item) : nat :=
  match i with
  | Str _ => 1%nat
  | List xs => S (fold_right (fun x acc => S (Nat.max (fuel_needed x) acc)) 1%nat xs)
  end.

Definition fuel_needed_items (xs : list item) : nat :=
  fold_right (fun x acc => S (Nat.max (fuel_needed x) acc)) 1%nat xs.

(** One value, and nothing after it. *)
Definition decode (b : bytes) : option item :=
  '(i, rest) ← decode_item (2 * length b) b;
  if decide (rest = []) then Some i else None.

(** Every string and every list payload has a size that fits [uint64]. *)
Fixpoint sizes_ok (i : item) : bool :=
  match i with
  | Str b => bool_decide (N.of_nat (length b) < 2 ^ 64)
  | List xs =>
      bool_decide (N.of_nat (length (concat (map encode xs))) < 2 ^ 64)
      && forallb sizes_ok xs
  end.

(** *** Per-type rules *)

Definition enc_uint (n : N) : item := Str (be_bytes n).

(** Unsigned integers of [size] bytes: no leading zero, no overflow. *)
Definition dec_uint (size : nat) (i : item) : option N :=
  match i with
  | Str b =>
      if decide (size < length b)%nat then None
      else match b with
           | x :: _ => if decide (Byte.to_N x = 0) then None else Some (be_value b)
           | [] => Some 0
           end
  | List _ => None
  end.

(** [*big.Int]: a nil pointer is written as the empty string; negative
    numbers are refused. *)
Definition enc_big (z : option Z) : option item :=
  match z with
  | None => Some (Str [])
  | Some v => if decide (v < 0)%Z then None else Some (Str (be_bytes (Z.to_N v)))
  end.

Definition dec_bigval (i : item) : option Z :=
  match i with
  | Str b =>
      match b with
      | x :: _ => if decide (Byte.to_N x = 0) then None else Some (Z.of_N (be_value b))
      | [] => Some 0%Z
      end
  | List _ => None
  end.

(** The decoder of a [*big.Int] allocates the number when the pointer is
    nil, so an empty input comes back as a non-nil zero. *)
Definition dec_big (i : item) : option (option Z) := v ← dec_bigval i; Some (Some v).

(** A [*big.Int] field tagged [rlp:"nil"]: the package picks the decoder
    of [*big.Int] by the type, before it looks at the tag, so the tag
    changes nothing and an empty input is again a non-nil zero. *)
Definition dec_big_nil (i : item) : option (option Z) := dec_big i.

Definition enc_bytes (b : bytes) : item := Str b.

Definition dec_bytes (i : item) : option bytes :=
  match i with Str b => Some b | List _ => None end.

Definition enc_string (s : string) : item := Str (list_byte_of_string s).

Definition dec_string (i : item) : option string :=
  match i with Str b => Some (string_of_list_byte b) | List _ => None end.

(** Byte arrays ([common.Address], [common.Hash]) need the exact length. *)
Definition enc_array (a : bytes) : item := Str a.

Definition dec_array (n : nat) (i : item) : option bytes :=
  match i with
  | Str b => if decide (length b = n) then Some b else None
  | List _ => None
  end.

Definition enc_array_nil (a : option bytes) : item :=
  match a with Some b => Str b | None => Str [] end.

Definition dec_array_nil (n : nat) (i : item) : option (option bytes) :=
  match i with
  | Str [] => Some None
  | _ => b ← dec_array n i; Some (Some b)
  end.

Definition enc_uint32s (l : option (list N)) : item := List (map enc_uint (default [] l)).

(** A decoded slice is never nil. *)
Definition dec_uint32s (i : item) : option (option (list N)) :=
  match i with
  | List xs => l ← mapM (dec_uint 4) xs; Some (Some l)
  | Str _ => None
  end.

Definition enc_InternalAction (a : InternalAction) : option item :=
  value ← enc_big (Value a);
  balance ← enc_big (Balance a);
  Some (List [enc_uint (CallType a); enc_array_nil (From a); enc_array_nil (To a); value;
              enc_uint (Gas a); enc_bytes (Init a); enc_bytes (Input a);
              enc_array_nil (Address a); enc_array_nil (RefundAddress a); balance]).

Definition dec_InternalAction (i : item) : option InternalAction :=
  match i with
  | List [callType; from; to; value; gas; init; input; address; refundAddress; balance] =>
      callType ← dec_uint 1 callType;
      from ← dec_array_nil 20 from;
      to ← dec_array_nil 20 to;
      value ← dec_big_nil value;
      gas ← dec_uint 8 gas;
      init ← dec_bytes init;
      input ← dec_bytes input;
      address ← dec_array_nil 20 address;
      refundAddress ← dec_array_nil 20 refundAddress;
      balance ← dec_big_nil balance;
      Some (mkInternalAction callType from to value gas init input address refundAddress
              balance)
  | _ => None
  end.

Definition enc_Result (r : option InternalTraceActionResult) : item :=
  match r with
  | None => List []
  | Some r =>
      List [enc_uint (GasUsed r); enc_bytes (Output r); enc_bytes (Code r);
            enc_array_nil (ResultAddress r)]
  end.

Definition dec_Result (i : item) : option (option InternalTraceActionResult) :=
  match i with
  | List [] => Some None
  | List [gasUsed; output; code; address] =>
      gasUsed ← dec_uint 8 gasUsed;
      output ← dec_bytes output;
      code ← dec_bytes code;
      address ← dec_array_nil 20 address;
      Some (Some (mkInternalTraceActionResult gasUsed output code address))
  | _ => None
  end.

Abbreviation value_trace := (InternalActionTrace (option (list N))).
Abbreviation value_traces := (InternalActionTraces (option (list N))).

Definition enc_InternalActionTrace (t : value_trace) : option item :=
  action ← enc_InternalAction (Action t);
  Some (List [action; enc_Result (Result t); enc_string (Error t);
              enc_uint32s (TraceAddress t); enc_uint (Subtraces t)]).

Definition dec_InternalActionTrace (i : item) : option value_trace :=
  match i with
  | List [action; result; err; traceAddress; subtraces] =>
      action ← dec_InternalAction action;
      result ← dec_Result result;
      err ← dec_string err;
      traceAddress ← dec_uint32s traceAddress;
      subtraces ← dec_uint 4 subtraces;
      Some (mkInternalActionTrace action result err traceAddress subtraces)
  | _ => None
  end.

Definition enc_InternalActionTraces (it : value_traces) : option item :=
  ts ← mapM enc_InternalActionTrace (Traces it);
  blockNumber ← enc_big (BlockNumber it);
  Some (List [List ts; enc_array (BlockHash it); blockNumber;
              enc_array (TransactionHash it); enc_uint (TransactionPosition it)]).

Definition dec_InternalActionTraces (i : item) : option value_traces :=
  match i with
  | List [List ts; blockHash; blockNumber; transactionHash; transactionPosition] =>
      ts ← mapM dec_InternalActionTrace ts;
      blockHash ← dec_array 32 blockHash;
      blockNumber ← dec_big blockNumber;
      transactionHash ← dec_array 32 transactionHash;
      transactionPosition ← dec_uint 8 transactionPosition;
      Some (mkInternalActionTraces ts blockHash blockNumber transactionHash
              transactionPosition)
  | _ => None
  end.

(** [rlp.EncodeToBytes(it)]; fails on a negative number and on sizes
    beyond [uint64]. *)
Definition EncodeToBytes (it : value_traces) : option bytes :=
  i ← enc_InternalActionTraces it;
  if sizes_ok i then Some (encode i) else None.

(** [rlp.DecodeBytes(raw, new(InternalActionTraces))]. *)
Definition DecodeBytes (raw : bytes) : option value_traces :=
  i ← decode raw; dec_InternalActionTraces i.

End rlp.

(** ** The API form ([RpcActionTrace])

    Byte payloads are their contents: a nil and an empty payload, which the
    API renders alike, are not told apart.  [TraceAddress] keeps the
    difference, since [ToRpcTraces] tests it. *)
Module Rpc.

Record RpcAction := mkRpcAction {
  CallType : option string;
  From : option common_Address;
  To : option common_Address;
  Value : option Z;
  Gas : N;
  Init : bytes;
  Input : bytes;
  Address : option common_Address;
  RefundAddress : option common_Address;
  Balance : option Z
}.

Record RpcActionResult := mkRpcActionResult {
  GasUsed : N;
  Output : option bytes;
  Code : option bytes;
  ResultAddress : option common_Address
}.

Record RpcActionTrace := mkRpcActionTrace {
  Action : RpcAction;
  BlockHash : common_Hash;
  BlockNumber : option Z;
  Result : option RpcActionResult;
  Error : string;
  Subtraces : N;
  TraceAddress : option (list N);
  TransactionHash : common_Hash;
  TransactionPosition : N;
  TraceType : string
}.

End Rpc.

(** ** Conversion to the API form and reading from the store
    ([internal_types.go]) *)
Module Codec.

Definition Call : string := "call".
Definition CallCode : string := "callcode".
Definition DelegateCall : string := "delegatecall".
Definition StaticCall : string := "staticcall".

Definition set_TraceType (s : string) (r : Rpc.RpcActionTrace) : Rpc.RpcActionTrace :=
  Rpc.mkRpcActionTrace (Rpc.Action r) (Rpc.BlockHash r) (Rpc.BlockNumber r) (Rpc.Result r)
    (Rpc.Error r) (Rpc.Subtraces r) (Rpc.TraceAddress r) (Rpc.TransactionHash r)
    (Rpc.TransactionPosition r) s.

Definition set_Action (a : Rpc.RpcAction) (r : Rpc.RpcActionTrace) : Rpc.RpcActionTrace :=
  Rpc.mkRpcActionTrace a (Rpc.BlockHash r) (Rpc.BlockNumber r) (Rpc.Result r)
    (Rpc.Error r) (Rpc.Subtraces r) (Rpc.TraceAddress r) (Rpc.TransactionHash r)
    (Rpc.TransactionPosition r) (Rpc.TraceType r).

Definition set_Error (e : string) (r : Rpc.RpcActionTrace) : Rpc.RpcActionTrace :=
  Rpc.mkRpcActionTrace (Rpc.Action r) (Rpc.BlockHash r) (Rpc.BlockNumber r) (Rpc.Result r)
    e (Rpc.Subtraces r) (Rpc.TraceAddress r) (Rpc.TransactionHash r)
    (Rpc.TransactionPosition r) (Rpc.TraceType r).

Definition set_Result (res : option Rpc.RpcActionResult) (r : Rpc.RpcActionTrace)
  : Rpc.RpcActionTrace :=
  Rpc.mkRpcActionTrace (Rpc.Action r) (Rpc.BlockHash r) (Rpc.BlockNumber r) res
    (Rpc.Error r) (Rpc.Subtraces r) (Rpc.TraceAddress r) (Rpc.TransactionHash r)
    (Rpc.TransactionPosition r) (Rpc.TraceType r).

Definition set_TraceAddress (a : option (list N)) (r : Rpc.RpcActionTrace)
  : Rpc.RpcActionTrace :=
  Rpc.mkRpcActionTrace (Rpc.Action r) (Rpc.BlockHash r) (Rpc.BlockNumber r) (Rpc.Result r)
    (Rpc.Error r) (Rpc.Subtraces r) a (Rpc.TransactionHash r)
    (Rpc.TransactionPosition r) (Rpc.TraceType r).

(** The functions below update [rpcTrace] through a pointer; a nil
    [interTrace.Result] dereferenced is the panic [None]. *)
Definition toRpcTraceCreate (interTrace : rlp.value_trace) (rpcTrace : Rpc.RpcActionTrace)
  : option Rpc.RpcActionTrace :=
  let a := Rpc.Action rpcTrace in
  let rpcTrace :=
    set_Action (Rpc.mkRpcAction (Rpc.CallType a) (From (Action interTrace)) (Rpc.To a)
                  (Rpc.Value a) (Rpc.Gas a) (Rpc.Init a) (Rpc.Input a) (Rpc.Address a)
                  (Rpc.RefundAddress a) (Rpc.Balance a)) rpcTrace in
  if decide (Error interTrace ≠ "") then Some (set_Error (Error interTrace) rpcTrace)
  else
    res ← Result interTrace;
    Some (set_Result (Some (Rpc.mkRpcActionResult (GasUsed res) None (Some (Code res))
                              (ResultAddress res))) rpcTrace).

Definition toRpcTraceCall (interTrace : rlp.value_trace) (rpcTrace : Rpc.RpcActionTrace)
  : option Rpc.RpcActionTrace :=
  let ct := CallType (Action interTrace) in
  let callType :=
    if decide (ct = CallTypeCall) then Call
    else if decide (ct = CallTypeCallCode) then CallCode
    else if decide (ct = CallTypeDelegateCall) then DelegateCall
    else if decide (ct = CallTypeStaticCall) then StaticCall
    else Call in
  let a := Rpc.Action rpcTrace in
  let rpcTrace :=
    set_Action (Rpc.mkRpcAction (Some callType) (From (Action interTrace))
                  (To (Action interTrace)) (Rpc.Value a) (Rpc.Gas a) (Rpc.Init a)
                  (Rpc.Input a) (Rpc.Address a) (Rpc.RefundAddress a) (Rpc.Balance a))
      rpcTrace in
  if decide (Error interTrace ≠ "") then Some (set_Error (Error interTrace) rpcTrace)
  else
    res ← Result interTrace;
    Some (set_Result (Some (Rpc.mkRpcActionResult (GasUsed res) (Some (Output res)) None
                              None)) rpcTrace).

Definition toRpcTraceSuicide (interTrace : rlp.value_trace) (rpcTrace : Rpc.RpcActionTrace)
  : Rpc.RpcActionTrace :=
  let a := Rpc.Action rpcTrace in
  let balance := default 0%Z (Balance (Action interTrace)) in
  set_Action (Rpc.mkRpcAction (Rpc.CallType a) (Rpc.From a) (Rpc.To a) None (Rpc.Gas a)
                (Rpc.Init a) (Rpc.Input a) (Address (Action interTrace))
                (RefundAddress (Action interTrace)) (Some balance)) rpcTrace.

(** The body of the loop of [ToRpcTraces], for one [interTrace]. *)
Definition toRpcTrace (it : rlp.value_traces) (interTrace : rlp.value_trace)
  : option Rpc.RpcActionTrace :=
  let value := default 0%Z (Value (Action interTrace)) in
  let rpcTrace :=
    Rpc.mkRpcActionTrace
      (Rpc.mkRpcAction None None None (Some value) (Gas (Action interTrace))
         (Init (Action interTrace)) (Input (Action interTrace)) None None None)
      (BlockHash it) (BlockNumber it) None "" (Subtraces interTrace)
      (TraceAddress interTrace) (TransactionHash it) (TransactionPosition it) "" in
  let rpcTrace :=
    if decide (Rpc.TraceAddress rpcTrace = None) then set_TraceAddress (Some []) rpcTrace
    else rpcTrace in
  let ct := CallType (Action interTrace) in
  if decide (ct = CallTypeCreate) then toRpcTraceCreate interTrace (set_TraceType "create" rpcTrace)
  else if decide (ct = CallTypeSuicide)
       then Some (toRpcTraceSuicide interTrace (set_TraceType "suicide" rpcTrace))
  else toRpcTraceCall interTrace (set_TraceType "call" rpcTrace).

Definition ToRpcTraces (it : rlp.value_traces) : option (list Rpc.RpcActionTrace) :=
  mapM (toRpcTrace it) (Traces it).

(** The store, read side: [ReadTxTrace] returns the bytes and an error. *)
Record Store := mkStore {
  ReadTxTrace : common_Hash -> bytes * option error
}.

(** The three errors [ReadRpcTxTrace] can return: the store's own, the
    "not found in tracedb" one and the "failed to decode rlp traces" one. *)
Inductive read_error :=
| StoreError (e : error)
| NotFound (txHash : common_Hash)
| DecodeFailed.

(** The result pair of [ReadRpcTxTrace]; [None] is a panic of
    [ToRpcTraces]. *)
Definition ReadRpcTxTrace (store : Store) (txHash : common_Hash)
  : option (list Rpc.RpcActionTrace + read_error) :=
  let '(raw, err) := ReadTxTrace store txHash in
  match err with
  | Some e => Some (inr (StoreError e))
  | None =>
      if decide (raw = []) then Some (inr (NotFound txHash))
      else match rlp.DecodeBytes raw with
           | None => Some (inr DecodeFailed)
           | Some interTxs => ts ← ToRpcTraces interTxs; Some (inl ts)
           end
  end.

(** What decoding returns for an encoded trace set: a number comes back
    allocated, tagged or not, so a nil number comes back as zero; a slice
    comes back allocated. *)
Definition normalize_big (z : option Z) : option Z := Some (default 0%Z z).

Definition normalize_action (a : InternalAction) : InternalAction :=
  mkInternalAction (CallType a) (From a) (To a) (normalize_big (Value a)) (Gas a) (Init a)
    (Input a) (Address a) (RefundAddress a) (normalize_big (Balance a)).

Definition normalize_trace (t : rlp.value_trace) : rlp.value_trace :=
  mkInternalActionTrace (normalize_action (Action t)) (Result t) (Error t)
    (Some (default [] (TraceAddress t))) (Subtraces t).

Definition normalize (it : rlp.value_traces) : rlp.value_traces :=
  mkInternalActionTraces (map normalize_trace (Traces it)) (BlockHash it)
    (Some (default 0%Z (BlockNumber it))) (TransactionHash it) (TransactionPosition it).

(** Ranges that the Go types of the fields impose, and numbers that the
    encoder accepts. *)
Definition address_ok (a : option common_Address) : bool :=
  match a with Some b => bool_decide (length b = 20%nat) | None => true end.

Definition big_ok (z : option Z) : bool :=
  match z with Some v => bool_decide (0 ≤ v)%Z | None => true end.

Definition action_ok (a : InternalAction) : bool :=
  bool_decide (CallType a < 2 ^ 8) && address_ok (From a) && address_ok (To a)
  && big_ok (Value a) && bool_decide (Gas a < 2 ^ 64) && address_ok (Address a)
  && address_ok (RefundAddress a) && big_ok (Balance a).

Definition result_ok (r : option InternalTraceActionResult) : bool :=
  match r with
  | Some r => bool_decide (GasUsed r < 2 ^ 64) && address_ok (ResultAddress r)
  | None => true
  end.

Definition trace_ok (t : rlp.value_trace) : bool :=
  action_ok (Action t) && result_ok (Result t)
  && forallb (fun n => bool_decide (n < 2 ^ 32)) (default [] (TraceAddress t))
  && bool_decide (Subtraces t < 2 ^ 32).

Definition fields_ok (it : rlp.value_traces) : bool :=
  forallb trace_ok (Traces it)
  && bool_decide (length (BlockHash it) = 32%nat)
  && match BlockNumber it with Some v => bool_decide (0 ≤ v)%Z | None => false end
  && bool_decide (length (TransactionHash it) = 32%nat)
  && bool_decide (TransactionPosition it < 2 ^ 64).

(** A well-formed trace set: the fields are in range and the storage form
    has sizes that fit [uint64]. *)
Definition well_formed (it : rlp.value_traces) : bool :=
  fields_ok it
  && match rlp.enc_InternalActionTraces it with
     | Some i => rlp.sizes_ok i
     | None => false
     end.

(** *** Concrete inputs *)

Definition empty_traces : rlp.value_traces :=
  mkInternalActionTraces [] zero_Hash (Some 7%Z) zero_Hash 0.

(** A selfdestruct that failed. *)
Definition failed_suicide : rlp.value_trace :=
  mkInternalActionTrace
    (mkInternalAction CallTypeSuicide None None None 0 [] [] (Some zero_Address)
       (Some zero_Address) (Some 5%Z))
    None "out of gas" (Some [0]) 0.

(** A call with a zero value behind the pointer and a nil address slice. *)
Definition root_call : rlp.value_trace :=
  mkInternalActionTrace
    (mkInternalAction CallTypeCall (Some zero_Address) (Some zero_Address) (Some 0%Z) 21000
       [] [x01; x02] None None None)
    (Some (mkInternalTraceActionResult 9 [xff] [] None)) "" None 1.

Definition sample_traces : rlp.value_traces :=
  mkInternalActionTraces [root_call; failed_suicide] zero_Hash (Some 7%Z) zero_Hash 3.

(** The trace set of [TestCodec] ([internal_types_test.go]). *)
Definition test_codec_input : rlp.value_traces :=
  mkInternalActionTraces
    [mkInternalActionTrace
       (mkInternalAction 1 (Some zero_Address) None (Some 0%Z) 1 [] [] None None (Some 0%Z))
       (Some (mkInternalTraceActionResult 1 [] [] None)) "" (Some []) 1]
    zero_Hash (Some 0%Z) zero_Hash 1.

(** The sample with a nil block number. *)
Definition sample_nil_number : rlp.value_traces :=
  mkInternalActionTraces [root_call] zero_Hash None zero_Hash 3.

(** A store that holds one payload for every hash. *)
Definition const_store (raw : bytes) : Store := mkStore (fun _ => (raw, None)).

End Codec.

(** ** The tree tracer (package [txtrace]): post-processing *)
Module V1.

Definition CALL : string := "call".
Definition CREATE : string := "create".
Definition SELFDESTRUCT : string := "suicide".

Record TAction := mkTAction {
  CallType : option string;
  From : option common_Address;
  To : option common_Address;
  Value : Z;
  Gas : N;
  Init : bytes;
  Input : bytes;
  Address : option common_Address;
  RefundAddress : option common_Address;
  Balance : option Z
}.

Record TResult := mkTResult {
  GasUsed : N;
  Output : option bytes;
  Code : bytes;
  ResultAddress : option common_Address;
  RetOffset : N;
  RetSize : N
}.

(** [childTraces] holds the children a node owns.  In the flattened list
    the field of a copy still points at the children, which is not
    rendered (the field is unexported); the copies of the model carry the
    children as they were built. *)
#[warnings="-register-all"] Inductive ActionTrace := mkActionTrace {
  childTraces : list ActionTrace;
  Subtraces : N;
  TraceAddress : list N;
  TraceType : string;
  Action : TAction;
  Result : option TResult;
  Error : string;
  BlockHash : common_Hash;
  BlockNumber : Z;
  TransactionHash : common_Hash;
  TransactionPosition : N
}.

Record CallTrace := mkCallTrace {
  Actions : list ActionTrace
}.

Definition set_Subtraces (n : N) (t : ActionTrace) : ActionTrace :=
  mkActionTrace (childTraces t) n (TraceAddress t) (TraceType t) (Action t) (Result t)
    (Error t) (BlockHash t) (BlockNumber t) (TransactionHash t) (TransactionPosition t).

Definition set_Action (a : TAction) (t : ActionTrace) : ActionTrace :=
  mkActionTrace (childTraces t) (Subtraces t) (TraceAddress t) (TraceType t) a (Result t)
    (Error t) (BlockHash t) (BlockNumber t) (TransactionHash t) (TransactionPosition t).

Definition set_Result (r : option TResult) (t : ActionTrace) : ActionTrace :=
  mkActionTrace (childTraces t) (Subtraces t) (TraceAddress t) (TraceType t) (Action t) r
    (Error t) (BlockHash t) (BlockNumber t) (TransactionHash t) (TransactionPosition t).

Definition set_Gas (g : N) (a : TAction) : TAction :=
  mkTAction (CallType a) (From a) (To a) (Value a) g (Init a) (Input a) (Address a)
    (RefundAddress a) (Balance a).

Definition set_From (f : option common_Address) (a : TAction) : TAction :=
  mkTAction (CallType a) f (To a) (Value a) (Gas a) (Init a) (Input a) (Address a)
    (RefundAddress a) (Balance a).

(** [callTrace.Actions = append(callTrace.Actions, *actionTrace)]. *)
Definition AddTrace (actionTrace : ActionTrace) (callTrace : CallTrace) : CallTrace :=
  mkCallTrace (Actions callTrace ++ [actionTrace]).

Definition lastTrace (callTrace : CallTrace) : option ActionTrace := last (Actions callTrace).

(** A write through the pointer [callTrace.lastTrace()]. *)
Definition update_last (f : ActionTrace -> ActionTrace) (callTrace : CallTrace) : CallTrace :=
  mkCallTrace (alter f (length (Actions callTrace) - 1)%nat (Actions callTrace)).

(** The two conditionals of the loop body of [processTrace], on the child
    object, for a parent whose [Action.Gas] is [gas]. *)
Definition adjustChild (gas : N) (childTrace : ActionTrace) : ActionTrace :=
  let childTrace :=
    match Result childTrace with
    | Some res =>
        if decide (GasUsed res < gas)
        then set_Action (set_Gas (gas - GasUsed res) (Action childTrace)) childTrace
        else set_Action (set_Gas (GasUsed res) (Action childTrace)) childTrace
    | None => childTrace
    end in
  if decide (TraceType childTrace = SELFDESTRUCT)
  then set_Result None (set_Action (set_From None (set_Gas 0 (Action childTrace))) childTrace)
  else childTrace.

(** [processTrace(trace)], where [trace] points at the last element of
    [callTrace.Actions] (at both call sites).  The element is a copy of the
    node [built] whose [Action.Gas] is [gas]; the copy has the children of
    [built], on which the recursion runs. *)
Fixpoint processTraceOf (gas : N) (built : ActionTrace) (callTrace : CallTrace) : CallTrace :=
  let callTrace :=
    update_last (set_Subtraces (N.of_nat (length (childTraces built)))) callTrace in
  fold_left
    (fun callTrace childTrace =>
       let child := adjustChild gas childTrace in
       let callTrace := AddTrace child callTrace in
       processTraceOf (Gas (Action child)) childTrace callTrace)
    (childTraces built) callTrace.

Definition processTrace (callTrace : CallTrace) : option CallTrace :=
  trace ← lastTrace callTrace;
  Some (processTraceOf (Gas (Action trace)) trace callTrace).

(** [processLastTrace] indexes [Actions[len-1]]. *)
Definition processLastTrace (callTrace : CallTrace) : option CallTrace :=
  processTrace callTrace.

(** *** The pass in the words of the specification

    A child that has a result is rendered with gas [parent.gas -
    gasUsed] when that difference is positive and with [gasUsed]
    otherwise; a selfdestruct child has its gas zeroed, its [from] cleared
    and its result dropped; the flat list is the preorder of the rendered
    children, each with its number of children as [subtraces]. *)
Definition render (parent_gas : N) (child : ActionTrace) : ActionTrace :=
  let child :=
    match Result child with
    | Some res =>
        let diff := (Z.of_N parent_gas - Z.of_N (GasUsed res))%Z in
        set_Action
          (set_Gas (if decide (0 < diff)%Z then Z.to_N diff else GasUsed res) (Action child))
          child
    | None => child
    end in
  if decide (TraceType child = SELFDESTRUCT)
  then set_Result None (set_Action (set_From None (set_Gas 0 (Action child))) child)
  else child.

Fixpoint flatten (parent_gas : N) (child : ActionTrace) : list ActionTrace :=
  let rendered := render parent_gas child in
  set_Subtraces (N.of_nat (length (childTraces child))) rendered
  :: concat (map (flatten (Gas (Action rendered))) (childTraces child)).

(** *** Concrete input: a root with gas 100 whose call (gas used 30) made
    a selfdestruct, followed by a call that used 200. *)
Definition leaf (traceType : string) (result : option TResult) : ActionTrace :=
  mkActionTrace [] 0 [] traceType
    (mkTAction None (Some zero_Address) None 0 7 [] [] None None None)
    result "" zero_Hash 1 zero_Hash 0.

Definition sample_result (gasUsed : N) : TResult := mkTResult gasUsed None [] None 0 0.

Definition sample_root : ActionTrace :=
  mkActionTrace
    [mkActionTrace [leaf SELFDESTRUCT (Some (sample_result 0))] 0 [0] CALL
       (mkTAction None (Some zero_Address) None 0 7 [] [] None None None)
       (Some (sample_result 30)) "" zero_Hash 1 zero_Hash 0;
     leaf CALL (Some (sample_result 200))]
    0 [] CALL
    (mkTAction None (Some zero_Address) None 0 100 [] [] None None None)
    (Some (sample_result 0)) "" zero_Hash 1 zero_Hash 0.

End V1.

(** ** The in-memory store of the tests ([trace_logger_test.go])

    [MemoryStore] keeps the payloads in a Go map keyed by the transaction
    hash. *)
Module MemoryStore.

#[global] Instance byte_countable : Countable byte :=
  inj_countable' Byte.to_N (fun n => default x00 (Byte.of_N n))
    (fun b => f_equal (default x00) (Byte.of_to_N b)).

Abbreviation MemoryStore := (gmap common_Hash bytes).

(** A missing key is the error "tx not found", with a nil payload. *)
Definition ReadTxTrace (store : MemoryStore) (txHash : common_Hash) : bytes * option error :=
  match store !! txHash with
  | Some raw => (raw, None)
  | None => ([], Some "tx not found")
  end.

Definition WriteTxTrace (store : MemoryStore) (txHash : common_Hash) (trace : bytes)
  : MemoryStore * option error :=
  (<[txHash := trace]> store, None).

(** The store as [ReadRpcTxTrace] sees it. *)
Definition reader (store : MemoryStore) : Codec.Store := Codec.mkStore (ReadTxTrace store).

End MemoryStore.

(** ** Output and persistence of the earlier revision

    [GetInternalTraces] hands out [outPutTraces]; what the encoder and
    [ToRpcTraces] read of it are the nodes with their addresses read through
    the heap, a nil slice being the one without an array. *)
Module LegacyStore.
Import GoSlice Legacy.

Definition seal_address (h : heap) (s : slice) : option (list N) :=
  match base s with
  | Some _ => Some (elems h s)
  | None => None
  end.

Definition seal (h : heap) (t : node) : rlp.value_trace :=
  mkInternalActionTrace (Action t) (Result t) (Error t) (seal_address h (TraceAddress t))
    (Subtraces t).

Definition GetInternalTraces (ot : OeTracer) : rlp.value_traces :=
  let o := outPutTraces ot in
  mkInternalActionTraces (map (seal (heap_ ot)) (Traces o)) (BlockHash o) (BlockNumber o)
    (TransactionHash o) (TransactionPosition o).

(** [GetRpcTraces]; [None] is the panic of [ToRpcTraces]. *)
Definition GetRpcTraces (ot : OeTracer) : option (list Rpc.RpcActionTrace) :=
  Codec.ToRpcTraces (GetInternalTraces ot).

(** [PersistTrace] over a store with states [S] and the given
    [WriteTxTrace]; the result is the state the store is left in.  Without a
    store ([ot.store == nil]) nothing happens; an encoding error is logged
    and nothing is written; an error of the write is logged. *)
Definition PersistTrace {S : Type}
  (write : S -> common_Hash -> bytes -> S * option error)
  (store : option S) (ot : OeTracer) : option S :=
  match store with
  | None => None
  | Some s =>
      match rlp.EncodeToBytes (GetInternalTraces ot) with
      | None => Some s
      | Some tracesBytes =>
          Some (fst (write s (TransactionHash (outPutTraces ot)) tracesBytes))
      end
  end.

End LegacyStore.

(** ** The shape of the node list of the streaming tracer

    What the addresses and child counts of the current revision add up to:
    the node list is the preorder of a tree. *)
Module Shape.
Import GoSlice Tracer.

(** Lexicographic order on addresses; a proper prefix comes first. *)
Fixpoint lex_lt (a b : list N) : bool :=
  match a, b with
  | _, [] => false
  | [], _ :: _ => true
  | x :: a', y :: b' => bool_decide (x < y) || (bool_decide (x = y) && lex_lt a' b')
  end.

(** The address and the child count of every node, in list order. *)
Definition shape (ot : OeTracer) : list (list N * N) :=
  map (fun t => (elems (heap_ ot) (TraceAddress t), Subtraces t)) (traces ot).

(** A node list [sh] with open stack [st] is the preorder of a tree under
    construction: the open nodes are a chain of ancestors, everything that
    follows an open node lies below it, addresses increase along the list,
    the children of a node with count [s] are numbered [0 .. s-1], and every
    node but the first has its parent before it. *)
Record Tree (sh : list (list N * N)) (st : list nat) : Prop := mkTree {
  tree_stack_bound : forall p, p ∈ st -> (p < length sh)%nat;
  tree_stack_sorted : forall i j p q,
    (i < j)%nat -> st !! i = Some p -> st !! j = Some q -> (p < q)%nat;
  tree_sorted : forall i j a s b s',
    (i < j)%nat -> sh !! i = Some (a, s) -> sh !! j = Some (b, s') -> lex_lt a b = true;
  tree_open : forall p j a s b s',
    p ∈ st -> (p < j)%nat -> sh !! p = Some (a, s) -> sh !! j = Some (b, s') ->
    exists k rest, b = a ++ k :: rest /\ k < s;
  tree_children : forall p a s k,
    sh !! p = Some (a, s) -> (k < s <-> exists j s', sh !! j = Some (a ++ [k], s'));
  tree_count : forall p a s, sh !! p = Some (a, s) -> s <= N.of_nat (length sh);
  tree_parent : forall j b s',
    sh !! j = Some (b, s') ->
    (j = 0%nat /\ b = [])
    \/ exists p a s k, (p < j)%nat /\ sh !! p = Some (a, s) /\ b = a ++ [k]
}.

Definition is_start (ev : event) : bool :=
  match ev with
  | EvStart _ _ _ _ _ _ _ => true
  | _ => false
  end.

(** The states of one transaction at nesting depth [d]. *)
Record SInv (d : nat) (ot : OeTracer) : Prop := mkSInv {
  sinv_heap : HInv ot;
  sinv_pinv : PInv ot;
  sinv_depth : length (traceStack ot) = d;
  sinv_tree : Tree (shape ot) (traceStack ot)
}.

(** A root call that makes a call, which creates a contract and then
    calls again. *)
Definition shape_body : list event :=
  [EvEnter vm.CALL zero_Address zero_Address [] 50 None;
   EvEnter vm.CREATE zero_Address zero_Address [] 20 None;
   EvExit [] 5 None;
   EvEnter vm.STATICCALL zero_Address zero_Address [] 20 None;
   EvExit [] 5 None;
   EvExit [] 5 None;
   EvEnter vm.CALL zero_Address zero_Address [] 20 None;
   EvExit [] 5 None;
   EvEnd [] 9 None].

End Shape.

(** ** The pre-checks, as decision lists

    The error that a list of checks evaluated in order reports: the first
    one that fails. *)
Module Preflight.
Import Tracer.

(** Creation, in the order engine error, depth limit, balance, nonce
    overflow, address collision. *)
Definition first_failure_create (err : option error) (depth : Z) (e : vm.EVM)
  (addr : common_Address) (value : Z) : option error :=
  match err with
  | Some x => Some x
  | None =>
      if decide (depth > vm.CallCreateDepth)%Z then Some vm.ErrDepth
      else if decide (value <> 0%Z /\ vm.CanTransfer e addr value = false)
           then Some vm.ErrInsufficientBalance
      else if decide (vm.GetNonce e addr = 2 ^ 64 - 1) then Some vm.ErrNonceUintOverflow
      else if decide (vm.GetNonce e addr <> 0
                      \/ (vm.GetCodeHash e addr <> zero_Hash
                          /\ vm.GetCodeHash e addr <> emptyCodeHash))
           then Some vm.ErrContractAddressCollision
      else None
  end.

(** DELEGATECALL and STATICCALL: engine error, then depth limit. *)
Definition first_failure_delegate (err : option error) (depth : Z) : option error :=
  match err with
  | Some x => Some x
  | None => if decide (depth > vm.CallCreateDepth)%Z then Some vm.ErrDepth else None
  end.

(** CALL and CALLCODE as the code has them: depth limit, then balance. *)
Definition first_failure_call (depth : Z) (e : vm.EVM) (addr : common_Address) (value : Z)
  : option error :=
  if decide (depth > vm.CallCreateDepth)%Z then Some vm.ErrDepth
  else if decide (value <> 0%Z /\ vm.CanTransfer e addr value = false)
       then Some vm.ErrInsufficientBalance
  else None.

(** The operand stack of a CREATE at nonce [2^64 - 1]. *)
Definition full_nonce_env : vm.EVM :=
  vm.mkEVM (fun _ _ => true) (fun _ => 2 ^ 64 - 1) (fun _ => zero_Hash).

End Preflight.

(** ** Event streams of the earlier revision *)
Module LegacyRun.
Import GoSlice Legacy.

(** Valid nesting order, as for the current revision. *)
Definition nest (d : nat) (ev : event) : option nat :=
  match ev with
  | EvStart _ _ _ _ _ _ => if decide (d = 0)%nat then Some 1%nat else None
  | EvEnd _ _ _ => if decide (d = 1)%nat then Some 0%nat else None
  | EvEnter typ _ _ _ _ _ =>
      if Tracer.call_like typ && bool_decide (1 ≤ d)%nat then Some (S d) else None
  | EvExit _ _ _ => if decide (2 ≤ d)%nat then Some (d - 1)%nat else None
  end.

Fixpoint nesting (d : nat) (evs : list event) : option nat :=
  match evs with
  | [] => Some d
  | ev :: evs' => d' ← nest d ev; nesting d' evs'
  end.

Definition is_call_event (ev : event) : bool :=
  match ev with
  | EvEnter _ _ _ _ _ _ | EvExit _ _ _ => true
  | _ => false
  end.

Definition is_enter (ev : event) : bool :=
  match ev with
  | EvStart _ _ _ _ _ _ | EvEnter _ _ _ _ _ _ => true
  | _ => false
  end.

Definition is_end (ev : event) : bool :=
  match ev with
  | EvEnd _ _ _ => true
  | _ => false
  end.

(** Error values carry a message. *)
Definition errs_ok (ev : event) : bool :=
  match ev with
  | EvEnd _ _ err | EvExit _ _ err => Tracer.err_ok err
  | _ => true
  end.

(** A node that [ToRpcTraces] converts without a nil dereference. *)
Definition convertible {A} (t : InternalActionTrace A) : Prop :=
  CallType (Action t) = CallTypeSuicide \/ Error t <> "" \/ Result t <> None.

(** The states at nesting depth [d]. *)
Record LInv (d : nat) (ot : OeTracer) : Prop := mkLInv {
  linv_nodup : NoDup (traceStack ot);
  linv_bound : forall p, p ∈ traceStack ot -> (p < length (traces ot))%nat;
  linv_depth : length (traceStack ot) = d;
  linv_kind : forall p t, traces ot !! p = Some t -> CallType (Action t) <= 5;
  linv_closed : forall p t, traces ot !! p = Some t -> p ∉ traceStack ot -> convertible t
}.

(** One complete transaction: a start, nested calls, the end. *)
Definition transaction (evs : list event) : Prop :=
  exists from to create input gas value body output gasUsed err,
    evs = EvStart from to create input gas value :: body ++ [EvEnd output gasUsed err]
    /\ forallb is_call_event body = true
    /\ forallb errs_ok evs = true
    /\ nesting 1 body = Some 1%nat.

(** A root call that makes one call. *)
Definition one_call : list event :=
  [EvStart zero_Address zero_Address false [] 100 None;
   EvEnter vm.CALL zero_Address zero_Address [] 50 None;
   EvExit [] 5 None;
   EvEnd [] 12 None].

End LegacyRun.

(** ** The tree tracer (package [txtrace]): helpers of [CaptureState]

    [int] is taken to be 64 bits wide, as on the platforms the engine runs
    on. *)
Module V1Helpers.
Import GoSlice V1.

(** Two's-complement wrap-around of [int64] arithmetic. *)
Definition int64 (z : Z) : Z := ((z + 2 ^ 63) mod 2 ^ 64 - 2 ^ 63)%Z.

(** [stackPeek]: the outer [option] is the panic of the index expression;
    the words of the stack are 256-bit numbers, top last. *)
Definition stackPeek (stackData : list N) (pos : Z) : option Z :=
  if decide (Z.of_nat (length stackData) <= pos \/ pos < 0)%Z then Some 0%Z
  else
    let i := (Z.of_nat (length stackData) - 1 - pos)%Z in
    if decide (0 <= i)%Z then x ← stackData !! Z.to_nat i; Some (Z.of_N x) else None.

(** The slice expression [memory[lo:hi]] of a byte slice whose capacity is
    its length; [None] is the panic. *)
Definition subslice (memory : bytes) (lo hi : Z) : option bytes :=
  if decide (0 <= lo /\ lo <= hi /\ hi <= Z.of_nat (length memory))%Z
  then Some (take (Z.to_nat (hi - lo)) (drop (Z.to_nat lo) memory))
  else None.

(** [memorySlice]: the outer [option] is the panic, the inner one the nil
    slice. *)
Definition memorySlice (memory : bytes) (offset size : Z) : option (option bytes) :=
  if decide (size = 0)%Z then Some (Some [])
  else if decide (int64 (offset + size) < offset \/ offset < 0)%Z then Some None
  else if decide (Z.of_nat (length memory) < int64 (offset + size))%Z then Some None
  else b ← subslice memory offset (int64 (offset + size)); Some (Some b).

(** [s[i] = f(s[i])], with the bounds check of the index expression. *)
Definition index_update (h : heap) (s : slice) (i : Z) (f : N -> N) : option heap :=
  if decide (0 <= i < Z.of_nat (len s))%Z then
    match base s with
    | Some a => Some (alter (alter f (Z.to_nat i)) a h)
    | None => None
    end
  else None.

(** [s[:hi]], with its bounds check. *)
Definition reslice (h : heap) (s : slice) (hi : Z) : option slice :=
  if decide (0 <= hi <= Z.of_nat (cap h s))%Z then Some (Slice (base s) (Z.to_nat hi))
  else None.

(** [depth - 1] for an [int] [depth]: the subtraction wraps around at the
    least value, whose predecessor is the greatest. *)
Definition pred_int (depth : Z) : Z :=
  if decide (depth = - 2 ^ 63)%Z then (2 ^ 63 - 1)%Z else (depth - 1)%Z.

Section WithRuntime.

Variable growcap : nat -> nat -> nat.

Definition addTraceAddress (h : heap) (traceAddress : slice) (depth : Z)
  : option (heap * slice) :=
  let index := pred_int depth in
  let '(h1, result) := make h (len traceAddress) in
  let h2 := copy h1 result traceAddress in
  if decide (Z.of_nat (len result) <= index)%Z then Some (append growcap h2 result 0)
  else h3 ← index_update h2 result index (fun x => wrap32 (x + 1)); Some (h3, result).

Definition removeTraceAddressLevel (h : heap) (traceAddress : slice) (depth : Z)
  : option (heap * slice) :=
  if decide (depth < Z.of_nat (len traceAddress))%Z then
    let '(h1, result) := make h (len traceAddress) in
    let h2 := copy h1 result traceAddress in
    result' ← reslice h2 result (Z.of_nat (len result) - 1);
    Some (h2, result')
  else Some (h, traceAddress).

End WithRuntime.

(** The number of nodes of a tree. *)
Fixpoint size (t : ActionTrace) : nat :=
  S (list_sum (map size (childTraces t))).

(** A heap that holds the address [[3; 1; 4]] in an array with a spare
    cell. *)
Definition sample_heap : heap := [[3; 1; 4; 0]].
Definition sample_address : slice := Slice (Some 0%nat) 3.

End V1Helpers.

(** ** The tree tracer (package [txtrace]): the tracer around the tree

    The callbacks and accessors of [OeTracer] other than [CaptureState],
    which grows the tree.  A [*TResult] is modelled as the result it points
    at, owned by its trace: the elements of [Actions] that these functions
    write through ([Actions[0]] and the last element) do not share a result
    with another element of the list.  [rlp.EncodeToBytes] of the action
    list and the store are parameters. *)
Module V1Tracer.
Import V1.

Record depthState := mkDepthState { level : Z; create : bool }.

(** [CallTrace] with its [Stack] of pointers, here positions in
    [Actions]. *)
Record Holder := mkHolder {
  holder : CallTrace;
  Stack : list nat
}.

Record OeTracer := mkOeTracer {
  from : option common_Address;
  to : option common_Address;
  newAddress : option common_Address;
  blockHash : common_Hash;
  tx : common_Hash;
  txIndex : N;
  blockNumber : Z;
  value : Z;
  gasUsed : N;
  traceHolder : option Holder;
  inputData : bytes;
  state : list depthState;
  traceAddress : list N;
  reverted : bool;
  output : bytes;
  err : option error
}.

Definition set_traceHolder (h : option Holder) (ot : OeTracer) : OeTracer :=
  mkOeTracer (from ot) (to ot) (newAddress ot) (blockHash ot) (tx ot) (txIndex ot)
    (blockNumber ot) (value ot) (gasUsed ot) h (inputData ot) (state ot)
    (traceAddress ot) (reverted ot) (output ot) (err ot).

Definition set_gasUsed (g : N) (ot : OeTracer) : OeTracer :=
  mkOeTracer (from ot) (to ot) (newAddress ot) (blockHash ot) (tx ot) (txIndex ot)
    (blockNumber ot) (value ot) g (traceHolder ot) (inputData ot) (state ot)
    (traceAddress ot) (reverted ot) (output ot) (err ot).

Definition set_output (o : bytes) (ot : OeTracer) : OeTracer :=
  mkOeTracer (from ot) (to ot) (newAddress ot) (blockHash ot) (tx ot) (txIndex ot)
    (blockNumber ot) (value ot) (gasUsed ot) (traceHolder ot) (inputData ot) (state ot)
    (traceAddress ot) (reverted ot) o (err ot).

Definition zero_TAction : TAction := mkTAction None None None 0 0 [] [] None None None.
Definition zero_TResult : TResult := mkTResult 0 None [] None 0 0.

Definition NewActionTrace (bHash : common_Hash) (bNumber : Z) (tHash : common_Hash)
  (tPos : N) (tType : string) : ActionTrace :=
  mkActionTrace [] 0 [] tType zero_TAction (Some zero_TResult) "" bHash bNumber tHash tPos.

Definition NewActionTraceFromTrace (actionTrace : ActionTrace) (tType : string)
  (traceAddress : list N) : ActionTrace :=
  let trace :=
    NewActionTrace (BlockHash actionTrace) (BlockNumber actionTrace)
      (TransactionHash actionTrace) (TransactionPosition actionTrace) tType in
  mkActionTrace (childTraces trace) (Subtraces trace) traceAddress (TraceType trace)
    (Action trace) (Result trace) (Error trace) (BlockHash trace) (BlockNumber trace)
    (TransactionHash trace) (TransactionPosition trace).

Definition NewTAction (from to : option common_Address) (gas : N) (data : bytes) (value : Z)
  (callType : option string) : TAction :=
  match callType with
  | None => mkTAction callType from to value gas data [] None None None
  | Some _ => mkTAction callType from to value gas [] data None None None
  end.

Definition set_Error (e : string) (t : ActionTrace) : ActionTrace :=
  mkActionTrace (childTraces t) (Subtraces t) (TraceAddress t) (TraceType t) (Action t)
    (Result t) e (BlockHash t) (BlockNumber t) (TransactionHash t) (TransactionPosition t).

Definition GetErrorTrace (blockHash : common_Hash) (blockNumber : Z)
  (to : option common_Address) (txHash : common_Hash) (index : N) (err : option error)
  : ActionTrace :=
  let blockTrace := NewActionTrace blockHash blockNumber txHash index "empty" in
  let txAction :=
    match to with
    | Some _ => NewTAction (Some zero_Address) to 0 [] 0 None
    | None => NewTAction (Some zero_Address) None 0 [] 0 None
    end in
  let blockTrace := set_Result None (set_Action txAction blockTrace) in
  match err with
  | Some e => set_Error e blockTrace
  | None => set_Error "Reverted" blockTrace
  end.

Definition set_ResultGasUsed (g : N) (t : ActionTrace) : ActionTrace :=
  match Result t with
  | Some r =>
      set_Result (Some (mkTResult g (Output r) (Code r) (ResultAddress r) (RetOffset r)
                          (RetSize r))) t
  | None => t
  end.

(** [CaptureStart]; the engine, the sender and the value it is given are
    not used, the tracer's own fields are. *)
Definition CaptureStart (to_ : common_Address) (create_ : bool) (input : bytes) (gas : N)
  (ot : OeTracer) : OeTracer :=
  let callType := match to ot with Some _ => CALL | None => CREATE end in
  let newAddress := match to ot with Some _ => None | None => Some to_ end in
  let gas := if decide (gas = 0 /\ gasUsed ot <> 0) then gasUsed ot else gas in
  let rootTrace := NewActionTrace (blockHash ot) (blockNumber ot) (tx ot) (txIndex ot) callType in
  let rootTrace :=
    if decide (CREATE = callType) then
      let txAction := NewTAction (from ot) (to ot) gas input (value ot) None in
      let rootTrace :=
        match newAddress with
        | Some a => set_Result (Some (mkTResult 0 None (output ot) (Some a) 0 0)) rootTrace
        | None => rootTrace
        end in
      set_Action txAction rootTrace
    else
      let txAction := NewTAction (from ot) (to ot) gas input (value ot) (Some callType) in
      set_Action txAction
        (set_Result (Some (mkTResult 0 (Some (output ot)) [] None 0 0)) rootTrace) in
  let tracesHolder := AddTrace rootTrace (mkCallTrace []) in
  mkOeTracer (from ot) (to ot) (V1Tracer.newAddress ot) (blockHash ot) (tx ot) (txIndex ot)
    (blockNumber ot) (value ot) (gasUsed ot)
    (Some (mkHolder tracesHolder [(length (Actions tracesHolder) - 1)%nat]))
    input [mkDepthState 0 create_] [] (reverted ot) (output ot) (err ot).

(** [CaptureEnd]; [None] is the panic on a nil holder or an empty list. *)
Definition CaptureEnd (output_ : bytes) (gasUsed_ : N) (ot : OeTracer) : option OeTracer :=
  if decide (0 < gasUsed_) then
    h ← traceHolder ot;
    _ ← Actions (holder h) !! 0%nat;
    let c := mkCallTrace (alter (set_ResultGasUsed gasUsed_) 0%nat (Actions (holder h))) in
    _ ← lastTrace c;
    let c := update_last (fun t => set_Action (set_Gas gasUsed_ (Action t)) t) c in
    Some (set_output output_
            (set_gasUsed gasUsed_ (set_traceHolder (Some (mkHolder c (Stack h))) ot)))
  else Some (set_output output_ ot).

(** [Finalize]. *)
Definition Finalize (ot : OeTracer) : option OeTracer :=
  match traceHolder ot with
  | Some h =>
      _ ← lastTrace (holder h);
      let c := update_last (fun t => set_Action (set_Gas (gasUsed ot) (Action t)) t)
                 (holder h) in
      let c := update_last (set_ResultGasUsed (gasUsed ot)) c in
      c ← processLastTrace c;
      Some (set_traceHolder (Some (mkHolder c (Stack h))) ot)
  | None => Some ot
  end.

Definition GetResult (ot : OeTracer) : list ActionTrace :=
  match traceHolder ot with
  | Some h => Actions (holder h)
  | None => []
  end.

Definition reset (ot : OeTracer) : OeTracer :=
  mkOeTracer None None (newAddress ot) (blockHash ot) (tx ot) (txIndex ot)
    (blockNumber ot) (value ot) (gasUsed ot) None [] (state ot)
    (traceAddress ot) false (output ot) (err ot).

(** A tracer that was given a message and no more. *)
Definition idle (to_ : option common_Address) (txIndex_ gasUsed_ : N) : OeTracer :=
  mkOeTracer (Some zero_Address) to_ None zero_Hash zero_Hash txIndex_ 1 0 gasUsed_ None []
    [] [] false [] None.

Section Persist.

Context {S : Type}.
Variable write : S -> common_Hash -> bytes -> S * option error.
Variable encode : list ActionTrace -> option bytes.

(** [PersistTrace]: the state the store is left in, and the tracer. *)
Definition PersistTrace (store : option S) (ot : OeTracer) : option S * OeTracer :=
  let ot :=
    match traceHolder ot with
    | Some _ => ot
    | None =>
        set_traceHolder
          (Some (mkHolder
                   (AddTrace (GetErrorTrace (blockHash ot) (blockNumber ot) (to ot) (tx ot)
                                (gasUsed ot) (err ot)) (mkCallTrace [])) []))
          ot
    end in
  match store with
  | Some s =>
      let actions := GetResult ot in
      if decide (length actions = 0%nat) then (Some s, ot)
      else match encode actions with
           | None => (Some s, ot)
           | Some tracesBytes =>
               let '(s', e) := write s (tx ot) tracesBytes in
               match e with
               | Some _ => (Some s', ot)
               | None => (Some s', reset ot)
               end
           end
  | None => (None, reset ot)
  end.

End Persist.

End V1Tracer.

(** * Properties *)

(** ** Go slices *)
Module GoSliceFacts.
Import GoSlice.

(** Growing the heap does not disturb a slice that fits it. *)
Lemma slice_ok_elems_app (h k : heap) (s : slice) :
  slice_ok h s -> elems (h ++ k) s = elems h s.
Proof.
  unfold slice_ok, elems, array. destruct (base s) as [a|]; [|done].
  intros [Hlt _]. by rewrite lookup_app_l.
Qed.

Lemma slice_ok_app (h k : heap) (s : slice) : slice_ok h s -> slice_ok (h ++ k) s.
Proof.
  unfold slice_ok, cap, array. destruct (base s) as [a|]; [|done].
  intros [Hlt Hcap]. rewrite lookup_app_l by done. rewrite length_app. split; [lia|done].
Qed.

End GoSliceFacts.
(** ** The streaming tracer *)
Module TracerFacts.
Import GoSlice GoSliceFacts Tracer.

Section Steps.

Variable growcap : nat -> nat -> nat.

Implicit Types (ot : OeTracer) (t : node) (p : nat).

Lemma traces_with_state h st ts ot : traces (with_state h st ts ot) = ts.
Proof. done. Qed.

Lemma traces_update p f ot : traces (update p f ot) = alter f p (traces ot).
Proof. done. Qed.

Lemma pop_snoc ot st p t :
  traceStack ot = st ++ [p] -> traces ot !! p = Some t ->
  pop ot = Some (p, t, with_state (heap_ ot) st (traces ot) ot).
Proof.
  intros Hst Ht. unfold pop. rewrite Hst, last_snoc. simpl. rewrite Ht. simpl.
  rewrite length_app. simpl.
  replace (length st + 1 - 1)%nat with (length st) by lia.
  by rewrite take_app_length.
Qed.

Lemma pop_inv ot p t ot1 :
  pop ot = Some (p, t, ot1) ->
  exists st, traceStack ot = st ++ [p] /\ traces ot !! p = Some t
             /\ ot1 = with_state (heap_ ot) st (traces ot) ot.
Proof.
  unfold pop. intros H.
  destruct (last (traceStack ot)) as [top|] eqn:Hl; simpl in H; [|done].
  destruct (traces ot !! top) as [x|] eqn:Hx; simpl in H; [|done].
  apply last_Some in Hl as [st Hst]. exists st.
  inversion H; subst. split; [done|]. split; [done|].
  rewrite Hst, length_app. simpl.
  replace (length st + 1 - 1)%nat with (length st) by lia.
  by rewrite take_app_length.
Qed.

(** What an enter does to the node list and the stack. *)
Lemma enterTrace_inv action ot ot' :
  enterTrace growcap action ot = Some ot' ->
  exists ts a,
    traces ot' = ts ++ [mkInternalActionTrace action None "" a 0]
    /\ traceStack ot' = traceStack ot ++ [length (traces ot)]
    /\ env ot' = env ot
    /\ length ts = length (traces ot)
    /\ (forall q, last (traceStack ot) <> Some q -> ts !! q = traces ot !! q)
    /\ (forall q t, last (traceStack ot) = Some q -> traces ot !! q = Some t ->
          ts !! q = Some (set_Subtraces (wrap32 (Subtraces t + 1)) t)).
Proof.
  unfold enterTrace. intros H.
  destruct (last (traceStack ot)) as [top|] eqn:Hl.
  - destruct (traces ot !! top) as [parent|] eqn:Hp; simpl in H; [|done].
    destruct (append _ _ _ _) as [h3 a2]. inversion H; subst; clear H.
    eexists _, _. rewrite traces_with_state. split; [done|].
    simpl. rewrite !length_alter. split_and!; try done.
    + intros q Hq. apply list_lookup_alter_ne. congruence.
    + intros q t Hq Ht. simplify_eq. rewrite list_lookup_alter_eq, Hp. simpl.
      congruence.
  - inversion H; subst; clear H. eexists _, _. rewrite traces_with_state.
    split_and!; try done.
Qed.

(** An enter succeeds when the innermost pointer is valid. *)
Lemma enterTrace_total action ot :
  (forall q, last (traceStack ot) = Some q -> (q < length (traces ot))%nat) ->
  is_Some (enterTrace growcap action ot).
Proof.
  intros Hv. unfold enterTrace.
  destruct (last (traceStack ot)) as [top|] eqn:Hl; [|done].
  destruct (lookup_lt_is_Some_2 (traces ot) top (Hv _ eq_refl)) as [parent ->].
  simpl. by destruct (append _ _ _ _).
Qed.

Lemma CaptureEnter_cases typ from to input gas value ot :
  (call_like typ = true /\ exists action,
      enter_action (EvEnter typ from to input gas value) = Some action
      /\ CaptureEnter growcap typ from to input gas value ot = enterTrace growcap action ot)
  \/ (call_like typ = false
      /\ enter_action (EvEnter typ from to input gas value) = None
      /\ CaptureEnter growcap typ from to input gas value ot = Some ot).
Proof.
  unfold CaptureEnter, enter_action, call_like.
  destruct (decide (typ = vm.CREATE \/ typ = vm.CREATE2)) as [[->| ->]|Hc];
    [left; split; [done|]; eexists; split; [done|done].. |].
  destruct (decide (typ = vm.CALL)) as [->|?];
    [left; split; [done|]; eexists; split; [done|done]|].
  destruct (decide (typ = vm.CALLCODE)) as [->|?];
    [left; split; [done|]; eexists; split; [done|done]|].
  destruct (decide (typ = vm.DELEGATECALL)) as [->|?];
    [left; split; [done|]; eexists; split; [done|done]|].
  destruct (decide (typ = vm.STATICCALL)) as [->|?];
    [left; split; [done|]; eexists; split; [done|done]|].
  destruct (decide (typ = vm.SELFDESTRUCT)) as [->|?];
    [left; split; [done|]; eexists; split; [done|done]|].
  right. split; [|done].
  apply bool_decide_eq_false. rewrite !elem_of_cons, elem_of_nil. tauto.
Qed.


Lemma CaptureExit_inv output gasUsed err ot ot' :
  CaptureExit output gasUsed err ot = Some ot' ->
  exists f p t, closes f p t ot ot'
    /\ ((CallType (Action t) = CallTypeCreate /\ f = createExit output gasUsed err)
        \/ (CallType (Action t) <> CallTypeCreate /\ CallType (Action t) <> CallTypeSuicide
            /\ CallType (Action t) <= 5 /\ f = callExit output gasUsed err)
        \/ (CallType (Action t) = CallTypeSuicide /\ f = suicideExit output gasUsed err)
        \/ (5 < CallType (Action t) /\ f = id)).
Proof.
  unfold CaptureExit. intros H.
  destruct (pop ot) as [[[p t] ot1]|] eqn:Hpop; simpl in H; [|done].
  apply pop_inv in Hpop as (st & Hst & Ht & ->).
  unfold CallTypeCreate, CallTypeCall, CallTypeCallCode, CallTypeDelegateCall,
    CallTypeStaticCall, CallTypeSuicide in *.
  repeat case_decide; inversion H; subst; clear H.
  - eexists _, p, t. split; [by exists st|]. by left.
  - eexists _, p, t. split; [by exists st|]. right; left. split_and!; try done; lia.
  - eexists _, p, t. split; [by exists st|]. right; right; left. done.
  - exists id, p, t. split.
    + exists st. split_and!; try done. simpl. rewrite traces_with_state.
      symmetry. by apply list_alter_id.
    + right; right; right. split; [lia|done].
Qed.

Lemma CaptureEnd_inv output gasUsed err ot ot' :
  CaptureEnd output gasUsed err ot = Some ot' ->
  exists f p t, closes f p t ot ot'
    /\ ((CallType (Action t) = CallTypeCreate /\ f = createExit output gasUsed err)
        \/ (CallType (Action t) <> CallTypeCreate /\ f = callExit output gasUsed err)).
Proof.
  unfold CaptureEnd. intros H.
  destruct (pop ot) as [[[p t] ot1]|] eqn:Hpop; simpl in H; [|done].
  apply pop_inv in Hpop as (st & Hst & Ht & ->).
  case_decide; inversion H; subst; clear H.
  - eexists _, p, t. split; [by exists st|]. by left.
  - eexists _, p, t. split; [by exists st|]. by right.
Qed.

Lemma closes_PInv f p t ot ot' : PInv ot -> closes f p t ot ot' -> PInv ot'.
Proof.
  intros [Hnd Hb Ho] (st & Hst & Ht & Hst' & Hts & _ & _).
  rewrite Hst in *. apply NoDup_app in Hnd as (Hnd & Hdisj & _).
  constructor; rewrite ?Hst', ?Hts.
  - done.
  - intros q Hq. rewrite length_alter. apply Hb. apply elem_of_app. by left.
  - intros q t' Hq Hq'. rewrite list_lookup_alter_ne in Hq'.
    + apply (Ho q); [|done]. apply elem_of_app. by left.
    + intros ->. apply (Hdisj _ Hq). by apply list_elem_of_singleton.
Qed.

Lemma enterTrace_PInv action ot ot' :
  PInv ot -> enterTrace growcap action ot = Some ot' -> PInv ot'.
Proof.
  intros [Hnd Hb Ho] H.
  apply enterTrace_inv in H as (ts & a & Hts & Hst & _ & Hlen & Hne & Heq).
  constructor; rewrite Hst, ?Hts.
  - apply NoDup_app. split_and!; [done| |apply NoDup_singleton].
    intros q Hq ->%list_elem_of_singleton. apply Hb in Hq. lia.
  - intros q [Hq| ->%list_elem_of_singleton]%elem_of_app;
      rewrite length_app, Hlen; simpl; [apply Hb in Hq|]; lia.
  - intros q t [Hq| ->%list_elem_of_singleton]%elem_of_app Hlk.
    + pose proof (Hb _ Hq) as Hlt. rewrite lookup_app_l in Hlk by lia.
      destruct (decide (last (traceStack ot) = Some q)) as [Hl|Hl].
      * destruct (lookup_lt_is_Some_2 _ _ Hlt) as [t0 Ht0].
        rewrite (Heq _ _ Hl Ht0) in Hlk. inversion Hlk; subst. simpl. by apply (Ho q).
      * rewrite (Hne _ Hl) in Hlk. by apply (Ho q).
    + rewrite <- Hlen, lookup_app_r, Nat.sub_diag in Hlk by lia.
      by inversion Hlk.
Qed.

Lemma update_top_PInv f p ot :
  PInv ot -> (forall t, Result (f t) = Result t) -> PInv (update p f ot).
Proof.
  intros [Hnd Hb Ho] Hf. constructor; rewrite ?traces_update; simpl.
  - done.
  - intros q Hq. rewrite length_alter. by apply Hb.
  - intros q t Hq Hlk. destruct (decide (p = q)) as [->|Hne].
    + rewrite list_lookup_alter_eq in Hlk.
      destruct (traces ot !! q) as [t0|] eqn:Ht0; [|done].
      inversion Hlk; subst. rewrite Hf. by apply (Ho q).
    + rewrite list_lookup_alter_ne in Hlk by done. by apply (Ho q).
Qed.

Lemma set_env_PInv e ot : PInv ot -> PInv (set_env e ot).
Proof. by intros [???]. Qed.

Lemma CaptureEnter_PInv typ from to input gas value ot ot' :
  PInv ot -> CaptureEnter growcap typ from to input gas value ot = Some ot' -> PInv ot'.
Proof.
  intros HI H.
  destruct (CaptureEnter_cases typ from to input gas value ot)
    as [(_ & action & _ & Heq)|(_ & _ & Heq)]; rewrite Heq in H.
  - by eapply enterTrace_PInv.
  - by inversion H; subst.
Qed.

Lemma CaptureExit_PInv output gasUsed err ot ot' :
  PInv ot -> CaptureExit output gasUsed err ot = Some ot' -> PInv ot'.
Proof.
  intros HI (f & p & t & Hc & _)%CaptureExit_inv. by eapply closes_PInv.
Qed.

Lemma createPreProcessFailed_inv op scope gas value err ot ot' :
  createPreProcessFailed growcap op scope gas value err ot = Some ot' ->
  exists input ot1,
    CaptureEnter growcap op (vm.ContractAddress scope) zero_Address input gas value ot
      = Some ot1
    /\ CaptureExit [] 0 (Some err) ot1 = Some ot'.
Proof.
  unfold createPreProcessFailed. intros H.
  apply bind_Some in H as (offset & _ & H).
  apply bind_Some in H as (size & _ & H).
  apply bind_Some in H as (input & _ & H).
  apply bind_Some in H as (ot1 & H1 & H). eauto.
Qed.

Lemma callPreProcessFailed_inv op scope gas value err ot ot' :
  callPreProcessFailed growcap op scope gas value err ot = Some ot' ->
  exists to input ot1,
    CaptureEnter growcap op (vm.ContractAddress scope) to input gas value ot = Some ot1
    /\ CaptureExit [] 0 (Some err) ot1 = Some ot'.
Proof.
  unfold callPreProcessFailed. intros H.
  apply bind_Some in H as (addr & _ & H).
  apply bind_Some in H as ([offset size] & _ & H).
  apply bind_Some in H as (input & _ & H).
  apply bind_Some in H as (ot1 & H1 & H). eauto.
Qed.

Lemma createPreProcessFailed_PInv op scope gas value err ot ot' :
  PInv ot -> createPreProcessFailed growcap op scope gas value err ot = Some ot' -> PInv ot'.
Proof.
  intros HI (input & ot1 & H1 & H2)%createPreProcessFailed_inv.
  eapply CaptureExit_PInv; [|done]. by eapply CaptureEnter_PInv.
Qed.

Lemma callPreProcessFailed_PInv op scope gas value err ot ot' :
  PInv ot -> callPreProcessFailed growcap op scope gas value err ot = Some ot' -> PInv ot'.
Proof.
  intros HI (to & input & ot1 & H1 & H2)%callPreProcessFailed_inv.
  eapply CaptureExit_PInv; [|done]. by eapply CaptureEnter_PInv.
Qed.

(** The outcomes of [CaptureState]: nothing, a synthesized failed call, or
    the revert mark on the innermost node. *)
Lemma CaptureState_cases op gas scope depth err ot ot' :
  CaptureState growcap op gas scope depth err ot = Some ot' ->
  ot' = ot
  \/ (exists value e, createPreProcessFailed growcap op scope gas value e ot = Some ot'
        /\ (op = vm.CREATE \/ op = vm.CREATE2)
        /\ (err = Some e \/ e = vm.ErrDepth \/ e = vm.ErrInsufficientBalance
            \/ e = vm.ErrNonceUintOverflow \/ e = vm.ErrContractAddressCollision))
  \/ (exists value e, callPreProcessFailed growcap op scope gas value e ot = Some ot'
        /\ (op = vm.CALL \/ op = vm.CALLCODE \/ op = vm.DELEGATECALL \/ op = vm.STATICCALL)
        /\ (err = Some e \/ e = vm.ErrDepth \/ e = vm.ErrInsufficientBalance))
  \/ (op = vm.REVERT /\ exists top, last (traceStack ot) = Some top
        /\ is_Some (traces ot !! top)
        /\ ot' = update top (set_Error "execution reverted") ot).
Proof.
  unfold CaptureState, checkDepthAboveLitmit, checkCanTransfer, checkNonceMatch,
    checkContractNotExist. intros H.
  destruct (decide (op = vm.CREATE \/ op = vm.CREATE2)) as [Hop|_].
  { apply bind_Some in H as (value & _ & H).
    destruct err as [e|]; [right; left; eauto 10|].
    case_decide; [right; left; eauto 10|].
    apply bind_Some in H as (r & Hr & H).
    destruct r as [e|].
    { right; left. eexists _, e. split; [done|]. split; [done|].
      repeat case_decide; simplify_option_eq; repeat case_match; simplify_eq; eauto 10. }
    apply bind_Some in H as (r & Hr2 & H).
    destruct r as [e|].
    { right; left. eexists _, e. split; [done|]. split; [done|].
      repeat case_decide; simplify_option_eq; repeat case_match; simplify_eq; eauto 10. }
    apply bind_Some in H as (r & Hr3 & H).
    destruct r as [e|].
    { right; left. eexists _, e. split; [done|]. split; [done|].
      repeat case_decide; simplify_option_eq; repeat case_match; simplify_eq; eauto 10. }
    left. by inversion H. }
  destruct (decide (op = vm.CALL \/ op = vm.CALLCODE)) as [Hop|_].
  { apply bind_Some in H as (value & _ & H).
    case_decide.
    { right; right; left. eexists _, _. split; [done|]. split; [tauto|]. eauto. }
    apply bind_Some in H as (r & Hr & H).
    destruct r as [e|].
    { right; right; left. eexists _, e. split; [done|]. split; [tauto|].
      repeat case_decide; simplify_option_eq; repeat case_match; simplify_eq; eauto 10. }
    left. by inversion H. }
  destruct (decide (op = vm.DELEGATECALL \/ op = vm.STATICCALL)) as [Hop|_].
  { destruct err as [e|].
    { right; right; left. eexists _, e. split; [done|]. split; [tauto|]. eauto. }
    case_decide.
    { right; right; left. eexists _, _. split; [done|]. split; [tauto|]. eauto. }
    left. by inversion H. }
  destruct (decide (op = vm.REVERT)) as [Hop|_].
  { apply bind_Some in H as (top & Htop & H).
    apply bind_Some in H as (t & Ht & H).
    right; right; right. split; [done|]. exists top. split_and!; eauto.
    by inversion H. }
  left. by inversion H.
Qed.

Lemma CaptureState_PInv op gas scope depth err ot ot' :
  PInv ot -> CaptureState growcap op gas scope depth err ot = Some ot' -> PInv ot'.
Proof.
  intros HI H. apply CaptureState_cases in H
    as [->|[(v & e & H & _)|[(v & e & H & _)|(_ & top & _ & _ & ->)]]].
  - done.
  - by eapply createPreProcessFailed_PInv.
  - by eapply callPreProcessFailed_PInv.
  - by apply update_top_PInv.
Qed.

Lemma CaptureEnd_PInv output gasUsed err ot ot' :
  PInv ot -> CaptureEnd output gasUsed err ot = Some ot' -> PInv ot'.
Proof.
  intros HI (f & p & t & Hc & _)%CaptureEnd_inv. by eapply closes_PInv.
Qed.

Lemma CaptureStart_inv e from to create input gas value ot ot' :
  CaptureStart growcap e from to create input gas value ot = Some ot' ->
  exists action ot1,
    enter_action (EvStart e from to create input gas value) = Some action
    /\ enterTrace growcap action ot = Some ot1 /\ ot' = set_env e ot1.
Proof.
  unfold CaptureStart. intros H. apply bind_Some in H as (ot1 & H1 & H).
  inversion H; subst. destruct create; eexists _, ot1; eauto.
Qed.

Lemma step_PInv ev ot ot' : PInv ot -> step growcap ev ot = Some ot' -> PInv ot'.
Proof.
  intros HI H. destruct ev; simpl in H.
  - apply CaptureStart_inv in H as (action & ot1 & _ & H1 & ->).
    apply set_env_PInv. by eapply enterTrace_PInv.
  - by eapply CaptureEnd_PInv.
  - by eapply CaptureEnter_PInv.
  - by eapply CaptureExit_PInv.
  - by eapply CaptureState_PInv.
  - by inversion H; subst.
Qed.

Lemma run_app evs1 evs2 ot :
  run growcap (evs1 ++ evs2) ot = ot1 ← run growcap evs1 ot; run growcap evs2 ot1.
Proof.
  revert ot. induction evs1 as [|ev evs1 IH]; intros ot; simpl; [done|].
  destruct (step growcap ev ot); simpl; [apply IH|done].
Qed.

Lemma run_PInv evs ot ot' : PInv ot -> run growcap evs ot = Some ot' -> PInv ot'.
Proof.
  revert ot. induction evs as [|ev evs IH]; intros ot HI H; simpl in H.
  - by inversion H; subst.
  - apply bind_Some in H as (ot1 & H1 & H). eapply IH; [|done]. by eapply step_PInv.
Qed.

Lemma NewOeTracer_PInv bh bn th tp : PInv (NewOeTracer bh bn th tp).
Proof.
  constructor; simpl.
  - constructor.
  - by intros p ?%elem_of_nil.
  - by intros p t ?%elem_of_nil.
Qed.


(** *** Stack balance and discovery order *)

Lemma fmap_Action_alter (f : node -> node) p (l : list node) :
  (forall t, Action (f t) = Action t) -> Action <$> alter f p l = Action <$> l.
Proof.
  intros Hf. apply list_eq. intros i. rewrite !list_lookup_fmap.
  destruct (decide (p = i)) as [->|Hne].
  - rewrite list_lookup_alter_eq. destruct (l !! i); simpl; [|done]. by rewrite Hf.
  - by rewrite list_lookup_alter_ne.
Qed.

Lemma createExit_Action o g err t : Action (createExit o g err t) = Action t.
Proof. unfold createExit. repeat case_match; done. Qed.

Lemma callExit_Action o g err t : Action (callExit o g err t) = Action t.
Proof. unfold callExit. repeat case_match; done. Qed.

Lemma suicideExit_Action o g err t : Action (suicideExit o g err t) = Action t.
Proof. unfold suicideExit. repeat case_match; done. Qed.

Lemma enterTrace_Actions action ot ot' :
  PInv ot -> enterTrace growcap action ot = Some ot' ->
  Action <$> traces ot' = (Action <$> traces ot) ++ [action].
Proof.
  intros HI H. apply enterTrace_inv in H as (ts & a & Hts & _ & _ & Hlen & Hne & Heq).
  rewrite Hts, fmap_app. simpl. f_equal.
  apply list_eq. intros i. rewrite !list_lookup_fmap.
  destruct (decide (last (traceStack ot) = Some i)) as [Hl|Hl].
  - destruct (traces ot !! i) as [t|] eqn:Ht.
    + by rewrite (Heq _ _ Hl Ht).
    + apply lookup_ge_None in Ht. rewrite lookup_ge_None_2 by lia. done.
  - by rewrite Hne.
Qed.

Lemma closes_Actions f p t ot ot' :
  closes f p t ot ot' -> (forall t, Action (f t) = Action t) ->
  Action <$> traces ot' = Action <$> traces ot.
Proof.
  intros (st & _ & _ & _ & -> & _) Hf. by apply fmap_Action_alter.
Qed.

Lemma CaptureExit_Actions o g err ot ot' :
  CaptureExit o g err ot = Some ot' -> Action <$> traces ot' = Action <$> traces ot.
Proof.
  intros (f & p & t & Hc & Hf)%CaptureExit_inv. eapply closes_Actions; [done|].
  intros t0. destruct Hf as [[_ ->]|[(_ & _ & _ & ->)|[[_ ->]|[_ ->]]]];
    auto using createExit_Action, callExit_Action, suicideExit_Action.
Qed.

Lemma CaptureEnd_Actions o g err ot ot' :
  CaptureEnd o g err ot = Some ot' -> Action <$> traces ot' = Action <$> traces ot.
Proof.
  intros (f & p & t & Hc & Hf)%CaptureEnd_inv. eapply closes_Actions; [done|].
  intros t0. destruct Hf as [[_ ->]|[_ ->]];
    auto using createExit_Action, callExit_Action.
Qed.

Lemma pop_total ot :
  PInv ot -> traceStack ot <> [] -> is_Some (pop ot).
Proof.
  intros [_ Hb _] Hne. unfold pop.
  destruct (last (traceStack ot)) as [top|] eqn:Hl.
  - simpl. assert (top ∈ traceStack ot) as Hin by by apply last_Some_elem_of.
    destruct (lookup_lt_is_Some_2 _ _ (Hb _ Hin)) as [t ->]. by eexists.
  - by apply last_None in Hl.
Qed.

Lemma CaptureExit_total o g err ot :
  PInv ot -> traceStack ot <> [] -> is_Some (CaptureExit o g err ot).
Proof.
  intros HI Hne. destruct (pop_total ot HI Hne) as [[[p t] ot1] Hp].
  unfold CaptureExit. rewrite Hp. simpl. repeat case_decide; by eexists.
Qed.

Lemma CaptureEnd_total o g err ot :
  PInv ot -> traceStack ot <> [] -> is_Some (CaptureEnd o g err ot).
Proof.
  intros HI Hne. destruct (pop_total ot HI Hne) as [[[p t] ot1] Hp].
  unfold CaptureEnd. rewrite Hp. simpl. repeat case_decide; by eexists.
Qed.

Lemma enterTrace_total' action ot : PInv ot -> is_Some (enterTrace growcap action ot).
Proof.
  intros [_ Hb _]. apply enterTrace_total. intros q Hq. apply Hb.
  by apply last_Some_elem_of.
Qed.

Lemma closes_depth f p t ot ot' :
  closes f p t ot ot' -> length (traceStack ot) = S (length (traceStack ot')).
Proof. intros (st & -> & _ & -> & _). rewrite length_app. simpl. lia. Qed.

Lemma enterTrace_depth action ot ot' :
  enterTrace growcap action ot = Some ot' ->
  length (traceStack ot') = S (length (traceStack ot)).
Proof.
  intros (ts & a & _ & -> & _)%enterTrace_inv. rewrite length_app. simpl. lia.
Qed.

Lemma enter_actions_single ev :
  enter_actions [ev] = match enter_action ev with Some a => [a] | None => [] end.
Proof. unfold enter_actions. simpl. by destruct (enter_action ev). Qed.

(** One bracket event at a valid depth: the callback returns, the stack
    has the new depth, and the node list grows by exactly the node of an
    enter. *)
Lemma step_bracket d d' ev ot :
  PInv ot -> length (traceStack ot) = d ->
  is_bracket_event ev = true -> nest d ev = Some d' ->
  exists ot', step growcap ev ot = Some ot'
    /\ length (traceStack ot') = d'
    /\ Action <$> traces ot' = (Action <$> traces ot) ++ enter_actions [ev].
Proof.
  intros HI Hd Hb Hn. destruct ev; simpl in Hb, Hn; try done.
  - (* start *)
    case_decide; [|done]. inversion Hn; subst d'.
    pose proof (enterTrace_total'
                  (default (mkInternalAction 0 None None None 0 [] [] None None None)
                     (enter_action (EvStart e from to create input gas value))) ot HI)
      as [ot1 H1].
    exists (set_env e ot1). simpl. unfold CaptureStart.
    assert (Hstart : (if create then createEnter growcap from to input gas value ot
                      else callEnter growcap CallTypeCall from to input gas value ot)
                     = Some ot1) by (destruct create; exact H1).
    rewrite Hstart. simpl. split; [done|]. split.
    + simpl. rewrite (enterTrace_depth _ _ _ H1). lia.
    + change (traces (set_env e ot1)) with (traces ot1).
      rewrite (enterTrace_Actions _ _ _ HI H1). unfold enter_actions. simpl. done.
  - (* end *)
    case_decide; [|done]. inversion Hn; subst d'.
    destruct (CaptureEnd_total output gasUsed err ot HI) as [ot' H'].
    { intros Hnil. rewrite Hnil in Hd. simpl in Hd. lia. }
    exists ot'. split; [done|]. split.
    + pose proof H' as (f & p & t & Hc & _)%CaptureEnd_inv.
      apply closes_depth in Hc. lia.
    + rewrite (CaptureEnd_Actions _ _ _ _ _ H'). unfold enter_actions. simpl.
      by rewrite app_nil_r.
  - (* enter *)
    destruct (call_like typ) eqn:Hcl; simpl in Hn; [|done].
    case_bool_decide; [|done]. inversion Hn; subst d'. cbn [step].
    destruct (CaptureEnter_cases typ from to input gas value ot)
      as [(_ & action & Ha & Heq)|(Hf & _)]; [|congruence].
    rewrite Heq. destruct (enterTrace_total' action ot HI) as [ot' H'].
    exists ot'. split; [done|]. split.
    + rewrite (enterTrace_depth _ _ _ H'). lia.
    + by rewrite (enterTrace_Actions _ _ _ HI H'), enter_actions_single, Ha.
  - (* exit *)
    case_decide; [|done]. inversion Hn; subst d'.
    destruct (CaptureExit_total output gasUsed err ot HI) as [ot' H'].
    { intros Hnil. rewrite Hnil in Hd. simpl in Hd. lia. }
    exists ot'. split; [done|]. split.
    + pose proof H' as (f & p & t & Hc & _)%CaptureExit_inv.
      apply closes_depth in Hc. lia.
    + rewrite (CaptureExit_Actions _ _ _ _ _ H'). unfold enter_actions. simpl.
      by rewrite app_nil_r.
Qed.

Lemma enter_actions_cons ev evs :
  enter_actions (ev :: evs) = enter_actions [ev] ++ enter_actions evs.
Proof. unfold enter_actions. simpl. by destruct (enter_action ev). Qed.

Lemma enter_actions_app evs1 evs2 :
  enter_actions (evs1 ++ evs2) = enter_actions evs1 ++ enter_actions evs2.
Proof. unfold enter_actions. apply omap_app. Qed.

(** A validly nested run of bracket events returns; after every prefix the
    node list holds exactly the nodes of the enter events seen so far, in
    their order. *)
Lemma run_brackets evs : forall d d' ot,
  PInv ot -> length (traceStack ot) = d ->
  forallb is_bracket_event evs = true -> nesting d evs = Some d' ->
  exists ot', run growcap evs ot = Some ot'
    /\ PInv ot'
    /\ length (traceStack ot') = d'
    /\ (forall k, exists otk, run growcap (take k evs) ot = Some otk
          /\ Action <$> traces otk = (Action <$> traces ot) ++ enter_actions (take k evs)).
Proof.
  induction evs as [|ev evs IH]; intros d d' ot HI Hd Hb Hn; simpl in *.
  - inversion Hn; subst. exists ot. split_and!; try done.
    intros k. exists ot. rewrite take_nil. simpl. split; [done|].
    by rewrite app_nil_r.
  - apply andb_prop in Hb as [Hb1 Hb2].
    apply bind_Some in Hn as (d1 & Hn1 & Hn).
    destruct (step_bracket d d1 ev ot HI Hd Hb1 Hn1) as (ot1 & H1 & Hd1 & Ha1).
    pose proof (step_PInv _ _ _ HI H1) as HI1.
    destruct (IH d1 d' ot1 HI1 Hd1 Hb2 Hn) as (ot' & H' & HI' & Hd' & Hk).
    exists ot'. rewrite H1. simpl. split_and!; try done.
    intros [|k].
    + exists ot. split; [done|]. simpl. by rewrite app_nil_r.
    + destruct (Hk k) as (otk & Hr & Ha). exists otk.
      change (take (S k) (ev :: evs)) with (ev :: take k evs).
      cbn [run]. rewrite H1. split; [exact Hr|].
      by rewrite Ha, Ha1, (enter_actions_cons ev (take k evs)), app_assoc.
Qed.


Lemma nesting_app evs1 evs2 d :
  nesting d (evs1 ++ evs2) = d1 ← nesting d evs1; nesting d1 evs2.
Proof.
  revert d. induction evs1 as [|ev evs1 IH]; intros d; simpl; [done|].
  destruct (nest d ev); simpl; [apply IH|done].
Qed.

Lemma nest_enter_action d d' ev :
  nest d ev = Some d' -> is_enter ev = true -> is_Some (enter_action ev).
Proof.
  destruct ev; simpl; try done.
  intros H _. destruct (call_like typ) eqn:Hc; [|done].
  destruct (CaptureEnter_cases typ from to input gas value (NewOeTracer [] None [] 0))
    as [(_ & action & Ha & _)|(Hf & _)]; [|congruence].
  simpl in Ha. by rewrite Ha.
Qed.

Lemma enter_actions_length evs : forall d d',
  nesting d evs = Some d' -> length (enter_actions evs) = length (filter is_enter evs).
Proof.
  induction evs as [|ev evs IH]; intros d d' H; [done|].
  simpl in H. apply bind_Some in H as (d1 & H1 & H).
  rewrite enter_actions_cons, length_app, (IH _ _ H), enter_actions_single.
  rewrite filter_cons. destruct (decide (is_enter ev)) as [He|He].
  - apply Is_true_true in He.
    destruct (nest_enter_action _ _ _ H1 He) as [a ->]. done.
  - apply Is_true_false in He.
    destruct ev; simpl in He; try done.
Qed.

(** C2. For an event sequence made of a start event, N-1 further enter
    events and N matching exit events in valid nesting order, the streaming
    builder returns with an empty trace stack and exactly N nodes in its
    output list; after every prefix of the sequence the output list holds
    the nodes of exactly the enter events seen so far, in their order, so
    each node is appended at its enter event and not at its close. *)
Theorem stack_balance e from to create input gas value body output gasUsed err bh bn th tp :
  forallb is_call_event body = true ->
  nesting 1 body = Some 1%nat ->
  let evs := EvStart e from to create input gas value :: body ++ [EvEnd output gasUsed err] in
  let init := NewOeTracer bh bn th tp in
  exists ot, run growcap evs init = Some ot
    /\ traceStack ot = []
    /\ length (traces ot) = length (filter is_enter evs)
    /\ length (filter is_enter evs) = S (length (filter is_enter body))
    /\ forall k, exists otk, run growcap (take k evs) init = Some otk
          /\ Action <$> traces otk = enter_actions (take k evs).
Proof.
  intros Hb Hn evs init.
  assert (Hnest : nesting 0 evs = Some 0%nat).
  { unfold evs. simpl. rewrite nesting_app, Hn. done. }
  assert (Hbr : forallb is_bracket_event evs = true).
  { unfold evs. simpl. rewrite forallb_app. simpl. rewrite andb_true_r.
    rewrite forallb_forall in *. intros ev Hev. specialize (Hb ev Hev).
    by destruct ev. }
  destruct (run_brackets evs 0 0 init (NewOeTracer_PInv bh bn th tp) eq_refl Hbr Hnest)
    as (ot & Hrun & _ & Hd & Hk0).
  assert (Hk : forall k, exists otk, run growcap (take k evs) init = Some otk
            /\ Action <$> traces otk = enter_actions (take k evs)).
  { intros k. destruct (Hk0 k) as (otk & Hr & Ha). exists otk. split; [done|exact Ha]. }
  exists ot. split; [done|]. split; [by apply nil_length_inv|].
  assert (Hlen : length (traces ot) = length (filter is_enter evs)).
  { destruct (Hk (length evs)) as (otk & Hr & Ha). rewrite firstn_all in Hr, Ha.
    rewrite Hrun in Hr. inversion Hr; subst otk.
    rewrite <- (enter_actions_length evs _ _ Hnest), <- Ha.
    by rewrite length_fmap. }
  split; [done|]. split.
  - unfold evs. rewrite filter_cons. simpl. rewrite filter_app, length_app.
    simpl. lia.
  - exact Hk.
Qed.

End Steps.

Lemma stack_balance_witness :
  exists ot,
    run gc_growcap
      (EvStart witness_env zero_Address zero_Address false [] 100 None
       :: witness_body ++ [EvEnd [] 9 None]) (NewOeTracer [] None [] 0) = Some ot
    /\ traceStack ot = [] /\ length (traces ot) = 4%nat.
Proof.
  destruct (stack_balance gc_growcap witness_env zero_Address zero_Address false [] 100 None
              witness_body [] 9 None [] None [] 0 eq_refl eq_refl)
    as (ot & Hrun & Hst & Hlen & _).
  exists ot. split; [exact Hrun|]. split; [exact Hst|]. exact Hlen.
Defined.

Section ClosedNodes.

Variable growcap : nat -> nat -> nat.

Implicit Types (ot : OeTracer) (t : node) (p : nat).

(** *** Result and error of closed nodes *)

Lemma createExit_exactly_one o g err t :
  err_ok err = true -> exactly_one (createExit o g err t).
Proof.
  intros He. unfold createExit, exactly_one. case_decide as HE.
  - right. done.
  - destruct err as [e|]; simpl.
    + right. split; [done|]. simpl in He. by apply bool_decide_eq_true in He.
    + left. done.
Qed.

Lemma callExit_exactly_one o g err t :
  err_ok err = true -> exactly_one (callExit o g err t).
Proof.
  intros He. unfold callExit, exactly_one. case_decide as HE.
  - right. done.
  - destruct err as [e|]; simpl.
    + right. split; [done|]. simpl in He. by apply bool_decide_eq_true in He.
    + left. done.
Qed.

Lemma suicideExit_Result o g err t :
  Result t = None -> Result (suicideExit o g err t) = None.
Proof. intros Hr. unfold suicideExit. repeat case_match; done. Qed.

Lemma enterTrace_Inv d action ot ot' :
  Inv d ot -> CallType action <= 5 ->
  (d = 0%nat -> CallType action <> CallTypeSuicide) ->
  enterTrace growcap action ot = Some ot' -> Inv (S d) ot'.
Proof.
  intros [HP Hd Hk Hr Hc] Hkind Hroot H.
  pose proof (enterTrace_PInv growcap _ _ _ HP H) as HP'.
  pose proof (enterTrace_depth growcap _ _ _ H) as Hd'.
  apply enterTrace_inv in H as (ts & a & Hts & Hst & _ & Hlen & Hne & Heq).
  assert (Hold : forall q t, ts !! q = Some t ->
            exists t0, traces ot !! q = Some t0 /\ Action t = Action t0
                       /\ Result t = Result t0 /\ Error t = Error t0
                       /\ (last (traceStack ot) <> Some q -> t = t0)).
  { intros q t Hq. destruct (decide (last (traceStack ot) = Some q)) as [Hl|Hl].
    - destruct (traces ot !! q) as [t0|] eqn:Ht0.
      + rewrite (Heq _ _ Hl Ht0) in Hq. inversion Hq; subst.
        exists t0. split_and!; try done.
      + apply lookup_ge_None in Ht0. apply lookup_lt_Some in Hq. lia.
    - rewrite (Hne _ Hl) in Hq. exists t. split_and!; done. }
  constructor; [done|lia|..]; rewrite ?Hst, Hts.
  - intros q t Hq. apply lookup_app_Some in Hq as [Hq|[_ Hq]].
    + apply Hold in Hq as (t0 & Ht0 & Ha & _). unfold known_kind. rewrite Ha.
      by apply (Hk q).
    + rewrite Hlen in Hq. destruct (q - length (traces ot))%nat; [|done].
      inversion Hq; subst. done.
  - intros r st t Hstk Hq. destruct (traceStack ot) as [|r0 st0] eqn:Hs.
    + simpl in Hstk. inversion Hstk; subst. rewrite <- Hlen in Hq.
      rewrite lookup_app_r, Nat.sub_diag in Hq by lia. inversion Hq; subst.
      unfold is_suicide. simpl. by apply Hroot.
    + simpl in Hstk. inversion Hstk; subst.
      apply lookup_app_Some in Hq as [Hq|[Hge Hq]].
      * apply Hold in Hq as (t0 & Ht0 & Ha & _). unfold is_suicide. rewrite Ha.
        by apply (Hr r st0 t0).
      * destruct HP as [_ Hb _]. specialize (Hb r). rewrite Hs in Hb.
        specialize (Hb ltac:(by left)). lia.
  - intros q t Hq Hnin. apply not_elem_of_app in Hnin as [Hnin Hnq].
    rewrite list_elem_of_singleton in Hnq.
    apply lookup_app_Some in Hq as [Hq|[Hge Hq]].
    + apply Hold in Hq as (t0 & Ht0 & _ & _ & _ & Hsame).
      rewrite Hsame.
      * by apply (Hc q).
      * intros Hl. apply Hnin. by apply last_Some_elem_of.
    + apply lookup_lt_Some in Hq. simpl in Hq. lia.
Qed.

Lemma closes_Inv d f p t ot ot' :
  Inv (S d) ot -> closes f p t ot ot' ->
  (forall t, Action (f t) = Action t) -> closed_ok (f t) -> Inv d ot'.
Proof.
  intros [HP Hd Hk Hr Hc] Hcl Hf Hok.
  pose proof (closes_PInv _ _ _ _ _ HP Hcl) as HP'.
  pose proof (closes_depth _ _ _ _ _ Hcl) as Hd'.
  destruct Hcl as (st & Hst & Ht & Hst' & Hts & _ & _).
  destruct HP as [Hnd _ _]. rewrite Hst in Hnd.
  apply NoDup_app in Hnd as (_ & Hdisj & _).
  constructor; [done|lia|..]; rewrite ?Hst', Hts.
  - intros q t' Hq. destruct (decide (p = q)) as [->|Hne].
    + rewrite list_lookup_alter_eq, Ht in Hq. inversion Hq; subst.
      unfold known_kind. rewrite Hf. by apply (Hk q).
    + rewrite list_lookup_alter_ne in Hq by done. by apply (Hk q).
  - intros r st2 t' Hstk Hq. subst st.
    assert (p <> r) as Hne.
    { intros ->. apply (Hdisj r); [rewrite Hstk; by left|].
      by apply list_elem_of_singleton. }
    rewrite list_lookup_alter_ne in Hq by done.
    apply (Hr r (st2 ++ [p]) t'); [|done]. by rewrite Hst, Hstk.
  - intros q t' Hq Hnin. destruct (decide (p = q)) as [->|Hne].
    + rewrite list_lookup_alter_eq, Ht in Hq. by inversion Hq; subst.
    + rewrite list_lookup_alter_ne in Hq by done. apply (Hc q); [done|].
      rewrite Hst. apply not_elem_of_app. split; [done|].
      rewrite list_elem_of_singleton. congruence.
Qed.

Lemma CaptureExit_Inv d o g err ot ot' :
  Inv (S (S d)) ot -> err_ok err = true ->
  CaptureExit o g err ot = Some ot' -> Inv (S d) ot'.
Proof.
  intros HI He H. pose proof H as (f & p & t & Hcl & Hf)%CaptureExit_inv.
  assert (Result t = None) as Hopen.
  { destruct HI as [[_ _ Ho] _ _ _ _]. destruct Hcl as (st & Hst & Ht & _).
    apply (Ho p); [|done]. rewrite Hst. apply elem_of_app. right.
    by apply list_elem_of_singleton. }
  assert (known_kind t) as Hkt.
  { destruct HI as [_ _ Hk _ _]. destruct Hcl as (st & Hst & Ht & _). by apply (Hk p). }
  destruct Hf as [[Hct ->]|[(Hnc & Hns & _ & ->)|[[Hct ->]|[Hct ->]]]].
  - eapply closes_Inv; [done|done|apply createExit_Action|].
    split.
    + intros _. by apply createExit_exactly_one.
    + unfold is_suicide. rewrite createExit_Action, Hct. done.
  - eapply closes_Inv; [done|done|apply callExit_Action|].
    split.
    + intros _. by apply callExit_exactly_one.
    + unfold is_suicide. rewrite callExit_Action. done.
  - eapply closes_Inv; [done|done|apply suicideExit_Action|].
    split.
    + unfold is_suicide. rewrite suicideExit_Action. done.
    + intros _. by apply suicideExit_Result.
  - unfold known_kind in Hkt. lia.
Qed.

Lemma CaptureEnd_Inv o g err ot ot' :
  Inv 1 ot -> err_ok err = true -> CaptureEnd o g err ot = Some ot' -> Inv 0 ot'.
Proof.
  intros HI He H. pose proof H as (f & p & t & Hcl & Hf)%CaptureEnd_inv.
  assert (~ is_suicide t) as Hroot.
  { destruct HI as [_ Hd _ Hr _]. destruct Hcl as (st & Hst & Ht & _).
    rewrite Hst, length_app in Hd. simpl in Hd.
    destruct st; [|simpl in Hd; lia]. by apply (Hr p [] t). }
  destruct Hf as [[Hct ->]|[Hnc ->]].
  - eapply closes_Inv; [done|done|apply createExit_Action|].
    split.
    + intros _. by apply createExit_exactly_one.
    + unfold is_suicide. rewrite createExit_Action. done.
  - eapply closes_Inv; [done|done|apply callExit_Action|].
    split.
    + intros _. by apply callExit_exactly_one.
    + unfold is_suicide. rewrite callExit_Action. done.
Qed.

Lemma enter_action_kind ev action :
  enter_action ev = Some action -> CallType action <= 5.
Proof.
  destruct ev; simpl; try done.
  - destruct create; intros [= <-]; simpl; unfold CallTypeCreate, CallTypeCall; lia.
  - repeat case_decide; intros [= <-]; simpl;
      unfold CallTypeCreate, CallTypeCall, CallTypeCallCode, CallTypeDelegateCall,
        CallTypeStaticCall, CallTypeSuicide; lia.
Qed.

Lemma CaptureEnter_Inv d typ from to input gas value ot ot' :
  Inv (S d) ot -> call_like typ = true ->
  CaptureEnter growcap typ from to input gas value ot = Some ot' -> Inv (S (S d)) ot'.
Proof.
  intros HI Hcl H.
  destruct (CaptureEnter_cases growcap typ from to input gas value ot)
    as [(_ & action & Ha & Heq)|(Hf & _)]; [|congruence].
  rewrite Heq in H. eapply enterTrace_Inv; [done| |done|done].
  by eapply enter_action_kind.
Qed.

Lemma update_top_Inv d top f ot :
  Inv d ot -> top ∈ traceStack ot ->
  (forall t, Action (f t) = Action t) -> (forall t, Result (f t) = Result t) ->
  Inv d (update top f ot).
Proof.
  intros [HP Hd Hk Hr Hc] Hin Hfa Hfr. constructor; rewrite ?traces_update; simpl.
  - by apply update_top_PInv.
  - done.
  - intros q t Hq. destruct (decide (top = q)) as [->|Hne].
    + rewrite list_lookup_alter_eq in Hq.
      destruct (traces ot !! q) as [t0|] eqn:Ht0; [|done]. inversion Hq; subst.
      unfold known_kind. rewrite Hfa. by apply (Hk q).
    + rewrite list_lookup_alter_ne in Hq by done. by apply (Hk q).
  - intros r st t Hst Hq. destruct (decide (top = r)) as [->|Hne].
    + rewrite list_lookup_alter_eq in Hq.
      destruct (traces ot !! r) as [t0|] eqn:Ht0; [|done]. inversion Hq; subst.
      unfold is_suicide. rewrite Hfa. by apply (Hr r st t0).
    + rewrite list_lookup_alter_ne in Hq by done. by apply (Hr r st t).
  - intros q t Hq Hnin. rewrite list_lookup_alter_ne in Hq.
    + by apply (Hc q).
    + intros ->. done.
Qed.

Lemma set_env_Inv d e ot : Inv d ot -> Inv d (set_env e ot).
Proof. intros [HP ????]. constructor; try done. by apply set_env_PInv. Qed.

Lemma const_errs_ok e :
  e = vm.ErrDepth \/ e = vm.ErrInsufficientBalance \/ e = vm.ErrNonceUintOverflow
  \/ e = vm.ErrContractAddressCollision -> err_ok (Some e) = true.
Proof. by intros [->|[->|[->| ->]]]. Qed.

Lemma CaptureState_Inv d op gas scope depth err ot ot' :
  Inv (S d) ot -> err_ok err = true ->
  CaptureState growcap op gas scope depth err ot = Some ot' -> Inv (S d) ot'.
Proof.
  intros HI He H. apply CaptureState_cases in H
    as [->|[(v & e & H & Hop & Herr)|[(v & e & H & Hop & Herr)|(_ & top & Hl & _ & ->)]]].
  - done.
  - apply createPreProcessFailed_inv in H as (input & ot1 & H1 & H2).
    eapply CaptureExit_Inv; [| |done].
    + eapply CaptureEnter_Inv; [done| |done]. by destruct Hop as [-> | ->].
    + destruct Herr as [->|Hc]; [done|by apply const_errs_ok].
  - apply callPreProcessFailed_inv in H as (to & input & ot1 & H1 & H2).
    eapply CaptureExit_Inv; [| |done].
    + eapply CaptureEnter_Inv; [done| |done]. by destruct Hop as [->|[->|[->| ->]]].
    + destruct Herr as [->|Hc]; [done|apply const_errs_ok; tauto].
  - apply update_top_Inv; [done|by apply last_Some_elem_of|done|done].
Qed.

Lemma NewOeTracer_Inv bh bn th tp : Inv 0 (NewOeTracer bh bn th tp).
Proof.
  constructor; [apply NewOeTracer_PInv|done|..]; unfold traces; simpl.
  - by intros p t ?.
  - done.
  - by intros p t ?.
Qed.

Lemma step_Inv d d' ev ot ot' :
  Inv d ot -> nest d ev = Some d' -> errs_ok ev = true ->
  step growcap ev ot = Some ot' -> Inv d' ot'.
Proof.
  intros HI Hn He H. destruct ev; simpl in Hn, He, H.
  - case_decide; [|done]. inversion Hn; subst.
    apply CaptureStart_inv in H as (action & ot1 & Ha & H1 & ->).
    apply set_env_Inv. eapply enterTrace_Inv; [done| | |done].
    + by eapply enter_action_kind.
    + intros _. simpl in Ha. destruct create; inversion Ha; subst; done.
  - case_decide; [|done]. inversion Hn; subst. by eapply CaptureEnd_Inv.
  - destruct (call_like typ) eqn:Hcl; simpl in Hn; [|done].
    case_bool_decide; [|done]. inversion Hn; subst.
    destruct d as [|d]; [lia|]. by eapply CaptureEnter_Inv.
  - case_decide; [|done]. inversion Hn; subst.
    destruct d as [|[|d]]; [lia|lia|].
    replace (S (S d) - 1)%nat with (S d) by lia. by eapply CaptureExit_Inv.
  - case_decide; [|done]. inversion Hn; subst.
    destruct d' as [|d]; [lia|]. by eapply CaptureState_Inv.
  - inversion Hn; inversion H; subst. done.
Qed.

Lemma run_Inv evs : forall d d' ot ot',
  Inv d ot -> nesting d evs = Some d' -> forallb errs_ok evs = true ->
  run growcap evs ot = Some ot' -> Inv d' ot'.
Proof.
  induction evs as [|ev evs IH]; intros d d' ot ot' HI Hn He H; simpl in *.
  - by inversion Hn; inversion H; subst.
  - apply andb_prop in He as [He1 He2].
    apply bind_Some in Hn as (d1 & Hn1 & Hn).
    apply bind_Some in H as (ot1 & H1 & H).
    eapply IH; [|done|done|done]. by eapply step_Inv.
Qed.

(** *** Revert propagation *)

Lemma CaptureState_REVERT gas scope depth err ot :
  CaptureState growcap vm.REVERT gas scope depth err ot
  = (top ← last (traceStack ot); _ ← traces ot !! top;
     Some (update top (set_Error "execution reverted") ot)).
Proof. done. Qed.

Lemma exit_keeps_mark f o g err t :
  f = createExit o g err \/ f = callExit o g err \/ f = suicideExit o g err ->
  Error t <> "" -> Error (f t) = Error t /\ Result (f t) = None.
Proof.
  intros [->|[->| ->]] He; unfold createExit, callExit, suicideExit;
    by case_decide.
Qed.

Lemma enterTrace_old action ot ot' q t :
  enterTrace growcap action ot = Some ot' -> traces ot !! q = Some t ->
  exists t', traces ot' !! q = Some t' /\ Action t' = Action t /\ Result t' = Result t
             /\ Error t' = Error t /\ TraceAddress t' = TraceAddress t
             /\ (last (traceStack ot) <> Some q -> t' = t).
Proof.
  intros (ts & a & Hts & _ & _ & Hlen & Hne & Heq)%enterTrace_inv Ht.
  pose proof (lookup_lt_Some _ _ _ Ht) as Hlt.
  rewrite Hts, lookup_app_l by lia.
  destruct (decide (last (traceStack ot) = Some q)) as [Hl|Hl].
  - rewrite (Heq _ _ Hl Ht). eexists. split; [done|]. split_and!; try done.
  - rewrite (Hne _ Hl), Ht. eexists. split; [done|]. split_and!; done.
Qed.

Lemma enterTrace_marked action ot ot' x :
  marked ot x -> enterTrace growcap action ot = Some ot' -> marked ot' x.
Proof.
  intros (t & Ht & He & Hr) H.
  destruct (enterTrace_old _ _ _ _ _ H Ht) as (t' & Ht' & _ & Hr' & He' & _).
  apply enterTrace_inv in H as (ts & a & _ & Hst & _).
  exists t'. split; [done|]. split; [congruence|].
  rewrite Hst, Hr'. intros [Hnin _]%not_elem_of_app. by apply Hr.
Qed.

Lemma closes_marked f o g err p t ot ot' x :
  PInv ot -> marked ot x -> closes f p t ot ot' ->
  f = createExit o g err \/ f = callExit o g err \/ f = suicideExit o g err \/ f = id ->
  marked ot' x.
Proof.
  intros [_ _ Ho] (tx & Htx & He & Hr) (st & Hst & Ht & Hst' & Hts & _) Hf.
  unfold marked. rewrite Hts, Hst'. destruct (decide (p = x)) as [->|Hne].
  - rewrite list_lookup_alter_eq, Htx. simpl. eexists. split; [done|].
    assert (t = tx) as -> by congruence.
    destruct Hf as [Hf|[Hf|[Hf| ->]]].
    + destruct (exit_keeps_mark f o g err tx) as [-> ->]; [tauto|by rewrite He|done].
    + destruct (exit_keeps_mark f o g err tx) as [-> ->]; [tauto|by rewrite He|done].
    + destruct (exit_keeps_mark f o g err tx) as [-> ->]; [tauto|by rewrite He|done].
    + split; [done|]. intros _. apply (Ho x); [|done]. rewrite Hst.
      apply elem_of_app. right. by apply list_elem_of_singleton.
  - rewrite list_lookup_alter_ne by done. exists tx. split; [done|]. split; [done|].
    intros Hnin. apply Hr. rewrite Hst. apply not_elem_of_app. split; [done|].
    rewrite list_elem_of_singleton. congruence.
Qed.

Lemma CaptureExit_marked o g err ot ot' x :
  PInv ot -> marked ot x -> CaptureExit o g err ot = Some ot' -> marked ot' x.
Proof.
  intros HI Hm (f & p & t & Hc & Hf)%CaptureExit_inv.
  eapply closes_marked; [done|done|done|]. intuition eauto.
Qed.

Lemma CaptureEnd_marked o g err ot ot' x :
  PInv ot -> marked ot x -> CaptureEnd o g err ot = Some ot' -> marked ot' x.
Proof.
  intros HI Hm (f & p & t & Hc & Hf)%CaptureEnd_inv.
  eapply closes_marked; [done|done|done|]. intuition eauto.
Qed.

Lemma CaptureEnter_marked typ from to input gas value ot ot' x :
  marked ot x -> CaptureEnter growcap typ from to input gas value ot = Some ot' ->
  marked ot' x.
Proof.
  intros Hm H.
  destruct (CaptureEnter_cases growcap typ from to input gas value ot)
    as [(_ & action & _ & Heq)|(_ & _ & Heq)]; rewrite Heq in H.
  - by eapply enterTrace_marked.
  - by inversion H; subst.
Qed.

Lemma update_mark_marked top ot x :
  marked ot x -> marked (update top (set_Error "execution reverted") ot) x.
Proof.
  intros (t & Ht & He & Hr). unfold marked. rewrite traces_update. simpl.
  destruct (decide (top = x)) as [->|Hne].
  - rewrite list_lookup_alter_eq, Ht. simpl. eexists. split; [done|]. done.
  - rewrite list_lookup_alter_ne by done. by exists t.
Qed.

Lemma step_marked ev ot ot' x :
  PInv ot -> marked ot x -> step growcap ev ot = Some ot' -> marked ot' x.
Proof.
  intros HI Hm H. destruct ev; simpl in H.
  - apply CaptureStart_inv in H as (action & ot1 & _ & H1 & ->).
    by apply (enterTrace_marked action ot ot1 x Hm) in H1.
  - by eapply CaptureEnd_marked.
  - by eapply CaptureEnter_marked.
  - by eapply CaptureExit_marked.
  - apply CaptureState_cases in H
      as [->|[(v & e & H & _)|[(v & e & H & _)|(_ & top & _ & _ & ->)]]].
    + done.
    + apply createPreProcessFailed_inv in H as (input & ot1 & H1 & H2).
      eapply CaptureExit_marked; [|by eapply CaptureEnter_marked|done].
      by eapply CaptureEnter_PInv.
    + apply callPreProcessFailed_inv in H as (to & input & ot1 & H1 & H2).
      eapply CaptureExit_marked; [|by eapply CaptureEnter_marked|done].
      by eapply CaptureEnter_PInv.
    + by apply update_mark_marked.
  - by inversion H; subst.
Qed.

Lemma run_marked evs : forall ot ot' x,
  PInv ot -> marked ot x -> run growcap evs ot = Some ot' -> marked ot' x.
Proof.
  induction evs as [|ev evs IH]; intros ot ot' x HI Hm H; simpl in H.
  - by inversion H; subst.
  - apply bind_Some in H as (ot1 & H1 & H).
    eapply IH; [by eapply step_PInv|by eapply step_marked|done].
Qed.

(** A closed node is out of reach of every callback. *)
Lemma enterTrace_frame action ot ot' y t :
  enterTrace growcap action ot = Some ot' -> closed ot y -> traces ot !! y = Some t ->
  closed ot' y /\ traces ot' !! y = Some t.
Proof.
  intros H [Hlt Hnin] Ht.
  destruct (enterTrace_old _ _ _ _ _ H Ht) as (t' & Ht' & _ & _ & _ & _ & Hsame).
  rewrite Hsame in Ht'.
  2:{ intros Hl. apply Hnin. by apply last_Some_elem_of. }
  split; [|done]. split; [by apply lookup_lt_Some in Ht'|].
  apply enterTrace_inv in H as (ts & a & _ & -> & _).
  apply not_elem_of_app. split; [done|]. rewrite list_elem_of_singleton. lia.
Qed.

Lemma closes_frame f p t0 ot ot' y t :
  closes f p t0 ot ot' -> closed ot y -> traces ot !! y = Some t ->
  closed ot' y /\ traces ot' !! y = Some t.
Proof.
  intros (st & Hst & _ & Hst' & Hts & _) [Hlt Hnin] Ht.
  rewrite Hst in Hnin. apply not_elem_of_app in Hnin as [Hnin Hne].
  rewrite list_elem_of_singleton in Hne.
  unfold closed. rewrite Hts, Hst', length_alter, list_lookup_alter_ne by congruence.
  done.
Qed.

Lemma CaptureEnter_frame typ from to input gas value ot ot' y t :
  CaptureEnter growcap typ from to input gas value ot = Some ot' ->
  closed ot y -> traces ot !! y = Some t -> closed ot' y /\ traces ot' !! y = Some t.
Proof.
  intros H Hc Ht.
  destruct (CaptureEnter_cases growcap typ from to input gas value ot)
    as [(_ & action & _ & Heq)|(_ & _ & Heq)]; rewrite Heq in H.
  - by eapply enterTrace_frame.
  - by inversion H; subst.
Qed.

Lemma CaptureExit_frame o g err ot ot' y t :
  CaptureExit o g err ot = Some ot' ->
  closed ot y -> traces ot !! y = Some t -> closed ot' y /\ traces ot' !! y = Some t.
Proof. intros (f & p & t0 & Hc & _)%CaptureExit_inv. by eapply closes_frame. Qed.

Lemma step_frame ev ot ot' y t :
  step growcap ev ot = Some ot' -> closed ot y -> traces ot !! y = Some t ->
  closed ot' y /\ traces ot' !! y = Some t.
Proof.
  intros H Hc Ht. destruct ev; simpl in H.
  - apply CaptureStart_inv in H as (action & ot1 & _ & H1 & ->).
    by apply (enterTrace_frame action ot ot1 y t H1).
  - apply CaptureEnd_inv in H as (f & p & t0 & Hcl & _). by eapply closes_frame.
  - by eapply CaptureEnter_frame.
  - by eapply CaptureExit_frame.
  - apply CaptureState_cases in H
      as [->|[(v & e & H & _)|[(v & e & H & _)|(_ & top & Hl & _ & ->)]]].
    + done.
    + apply createPreProcessFailed_inv in H as (input & ot1 & H1 & H2).
      destruct (CaptureEnter_frame _ _ _ _ _ _ _ _ _ _ H1 Hc Ht) as [Hc1 Ht1].
      by eapply CaptureExit_frame.
    + apply callPreProcessFailed_inv in H as (to & input & ot1 & H1 & H2).
      destruct (CaptureEnter_frame _ _ _ _ _ _ _ _ _ _ H1 Hc Ht) as [Hc1 Ht1].
      by eapply CaptureExit_frame.
    + destruct Hc as [Hlt Hnin]. unfold closed. rewrite traces_update, length_alter.
      split; [done|]. rewrite list_lookup_alter_ne; [done|].
      intros ->. apply Hnin. by apply last_Some_elem_of.
  - by inversion H; subst.
Qed.

Lemma run_frame evs : forall ot ot' y t,
  run growcap evs ot = Some ot' -> closed ot y -> traces ot !! y = Some t ->
  closed ot' y /\ traces ot' !! y = Some t.
Proof.
  induction evs as [|ev evs IH]; intros ot ot' y t H Hc Ht; simpl in H.
  - by inversion H; subst.
  - apply bind_Some in H as (ot1 & H1 & H).
    destruct (step_frame _ _ _ _ _ H1 Hc Ht) as [Hc1 Ht1]. by eapply IH.
Qed.

(** C4. A REVERT opcode observed while node [x] is the innermost open node
    sets the error of [x] to "execution reverted" and changes nothing else;
    whatever events follow, [x] keeps that error and has no result once it
    is closed, and every node that was already closed when the REVERT was
    observed, its descendants included, stays exactly as recorded. *)
Theorem revert_propagation pre post bh bn th tp gas scope depth err ot1 ot2 x :
  run growcap pre (NewOeTracer bh bn th tp) = Some ot1 ->
  last (traceStack ot1) = Some x ->
  run growcap (EvState vm.REVERT gas scope depth err :: post) ot1 = Some ot2 ->
  step growcap (EvState vm.REVERT gas scope depth err) ot1
    = Some (update x (set_Error "execution reverted") ot1)
  /\ marked ot2 x
  /\ forall y t, closed ot1 y -> traces ot1 !! y = Some t ->
       closed ot2 y /\ traces ot2 !! y = Some t.
Proof.
  intros Hpre Hl Hrun.
  pose proof (run_PInv growcap _ _ _ (NewOeTracer_PInv bh bn th tp) Hpre) as HI.
  assert (exists tx, traces ot1 !! x = Some tx) as [tx Htx].
  { apply lookup_lt_is_Some_2. apply (pinv_bound _ HI). by apply last_Some_elem_of. }
  assert (Hstep : step growcap (EvState vm.REVERT gas scope depth err) ot1
                  = Some (update x (set_Error "execution reverted") ot1)).
  { cbn [step]. rewrite CaptureState_REVERT, Hl. simpl. by rewrite Htx. }
  split; [done|]. split.
  - cbn [run] in Hrun. rewrite Hstep in Hrun. simpl in Hrun.
    eapply run_marked; [by eapply step_PInv| |done].
    unfold marked. rewrite traces_update, list_lookup_alter_eq, Htx. simpl.
    eexists. split; [done|]. split; [done|]. intros _.
    apply (pinv_open _ HI x tx); [by apply last_Some_elem_of|done].
  - intros y t Hc Ht. by eapply run_frame.
Qed.

End ClosedNodes.

Section Synthesis.

Variable growcap : nat -> nat -> nat.

Implicit Types (ot : OeTracer) (t : node) (p : nat).

(** *** Synthesized failures *)

Lemma Back_is_Some scope n : (n < length (vm.Stack scope))%nat -> is_Some (vm.Back scope n).
Proof.
  intros Hn. unfold vm.Back. case_decide; [|lia]. apply lookup_lt_is_Some_2. lia.
Qed.

Lemma enter_exit_synthesized op from to input gas value e ot :
  PInv ot ->
  op ∈ [vm.CREATE; vm.CREATE2; vm.CALL; vm.CALLCODE; vm.DELEGATECALL; vm.STATICCALL] ->
  exists ot1 ot',
    CaptureEnter growcap op from to input gas value ot = Some ot1
    /\ CaptureExit [] 0 (Some e) ot1 = Some ot'
    /\ synthesized e ot ot'.
Proof.
  intros HI Hop.
  destruct (CaptureEnter_cases growcap op from to input gas value ot)
    as [(_ & action & Ha & Heq)|(Hf & _)].
  2:{ unfold call_like in Hf. apply bool_decide_eq_false in Hf. exfalso. apply Hf.
      rewrite !elem_of_cons in *. tauto. }
  assert (CallType action <= 4) as Hkind.
  { rewrite !elem_of_cons, elem_of_nil in Hop.
    destruct Hop as [->|[->|[->|[->|[->|[->|[]]]]]]]; simpl in Ha;
      inversion Ha; subst; simpl;
      unfold CallTypeCreate, CallTypeCall, CallTypeCallCode, CallTypeDelegateCall,
        CallTypeStaticCall; lia. }
  destruct (enterTrace_total' growcap action ot HI) as [ot1 H1].
  pose proof (enterTrace_PInv growcap _ _ _ HI H1) as HI1.
  destruct (CaptureExit_total [] 0 (Some e) ot1 HI1) as [ot' H'].
  { apply enterTrace_inv in H1 as (ts & a & _ & -> & _). by destruct (traceStack ot). }
  exists ot1, ot'. rewrite Heq. split; [done|]. split; [done|].
  pose proof H1 as (ts & a & Hts & Hst & _ & Hlen & _)%enterTrace_inv.
  pose proof H' as (f & p & t & (st & Hst1 & Ht & Hst' & Hts' & _) & Hf)%CaptureExit_inv.
  rewrite Hst in Hst1. apply app_inj_tail in Hst1 as [<- <-].
  rewrite Hts, <- Hlen, lookup_app_r, Nat.sub_diag in Ht by lia.
  inversion Ht; subst t; clear Ht.
  assert (alter f (length ts) (ts ++ [mkInternalActionTrace action None "" a 0])
          = ts ++ [set_Result None (set_Error e (mkInternalActionTrace action None "" a 0))])
    as Halter.
  { rewrite <- (Nat.add_0_r (length ts)), alter_app_r. simpl. f_equal. f_equal.
    simpl in Hf. unfold CallTypeCreate, CallTypeSuicide in Hf.
    destruct Hf as [[_ ->]|[(_ & _ & _ & ->)|[[Hs _]|[Hs _]]]]; try done; lia. }
  split; [done|].
  exists ts, (set_Result None (set_Error e (mkInternalActionTrace action None "" a 0))).
  rewrite Hts', Hts, <- Hlen, Halter. split_and!; try done.
  intros q t0 Ht0. destruct (enterTrace_old growcap _ _ _ _ _ H1 Ht0)
    as (t' & Ht' & ? & ? & ? & ? & _).
  exists t'. split_and!; try done.
  rewrite Hts, lookup_app_l in Ht'; [done|].
  apply lookup_lt_Some in Ht0. lia.
Qed.


Lemma enter_exit_emits op from to input gas value e ot :
  PInv ot ->
  op ∈ [vm.CREATE; vm.CREATE2; vm.CALL; vm.CALLCODE; vm.DELEGATECALL; vm.STATICCALL] ->
  exists ot',
    (ot1 ← CaptureEnter growcap op from to input gas value ot; CaptureExit [] 0 (Some e) ot1)
    = Some ot'
    /\ emits growcap op from to input gas value e ot ot'.
Proof.
  intros HI Hop.
  destruct (enter_exit_synthesized op from to input gas value e ot HI Hop)
    as (ot1 & ot' & H1 & H2 & Hsyn).
  exists ot'. rewrite H1. split; [done|].
  destruct (CaptureEnter_cases growcap op from to input gas value ot)
    as [(_ & action & Ha & Heq)|(_ & _ & Heq)].
  2:{ rewrite Heq in H1. injection H1 as <-.
      destruct Hsyn as (_ & ts & t & Hts & Hlen & _).
      apply CaptureExit_Actions, (f_equal length) in H2.
      rewrite !length_fmap, Hts, length_app in H2. simpl in H2. lia. }
  rewrite Heq in H1.
  pose proof (enterTrace_Actions growcap _ _ _ HI H1) as HA1.
  pose proof (CaptureExit_Actions _ _ _ _ _ H2) as HA2.
  pose proof Hsyn as (_ & ts & t & Hts & Hlen & _).
  exists ot1, t. rewrite Heq. split_and!; try done.
  - by rewrite Hts, last_snoc.
  - rewrite Ha. f_equal. rewrite HA1, Hts, fmap_app in HA2. simpl in HA2.
    by apply app_inj_tail in HA2 as [_ ->].
Qed.


End Synthesis.

Section ErrorProvenance.

Variable growcap : nat -> nat -> nat.

Implicit Types (ot : OeTracer) (t : node) (p : nat).

(** *** Where the error of a selfdestruct node comes from *)

(** A stream with one more event: the new event is to blame, or an
    earlier one is. *)
Lemma blamed_snoc init evs ev ot0 q :
  run growcap evs init = Some ot0 ->
  blamed growcap init (evs ++ [ev]) q
  <-> blamed growcap init evs q \/ (last (traceStack ot0) = Some q /\ sets_error ev = true).
Proof.
  intros Hrun. split.
  - intros (pre & e & post & ot1 & Heq & Hpre & Hl & Hs).
    destruct (decide (post = [])) as [->|Hne].
    + apply app_inj_tail in Heq as [-> ->]. right. split; [congruence|done].
    + destruct (exists_last Hne) as (post' & x & ->).
      change (pre ++ e :: post' ++ [x]) with (pre ++ (e :: post') ++ [x]) in Heq.
      rewrite app_assoc in Heq. apply app_inj_tail in Heq as [-> _].
      left. by exists pre, e, post', ot1.
  - intros [(pre & e & post & ot1 & -> & Hpre & Hl & Hs)|[Hl Hs]].
    + exists pre, e, (post ++ [ev]), ot1. by rewrite <- app_assoc.
    + by exists evs, ev, [], ot0.
Qed.

Lemma exit_Error f o g err t :
  f = createExit o g err \/ f = callExit o g err \/ f = suicideExit o g err ->
  err_ok err = true ->
  Error (f t) <> "" <-> Error t <> "" \/ is_Some err.
Proof.
  intros Hf He.
  assert (Error (f t) = if decide (Error t <> "") then Error t else default "" err) as ->.
  { destruct Hf as [->|[->| ->]]; unfold createExit, callExit, suicideExit;
      case_decide; try done; by destruct err. }
  case_decide as Hd; [tauto|]. destruct err as [e|]; simpl in *.
  - apply bool_decide_eq_true in He. split; [by right|done].
  - split; [done|]. intros [?|[? ?]]; done.
Qed.

Lemma synthetic_not_suicide op from to input gas value action :
  op ∈ [vm.CREATE; vm.CREATE2; vm.CALL; vm.CALLCODE; vm.DELEGATECALL; vm.STATICCALL] ->
  enter_action (EvEnter op from to input gas value) = Some action ->
  CallType action <> CallTypeSuicide.
Proof.
  rewrite !elem_of_cons, elem_of_nil.
  intros [->|[->|[->|[->|[->|[->|[]]]]]]] Ha; simpl in Ha; by injection Ha as <-.
Qed.

(** A node of the list after an enter is an old node with its action and
    error, or the new node, which has no error. *)
Lemma enterTrace_errors action ot ot' :
  enterTrace growcap action ot = Some ot' ->
  (length (traces ot) <= length (traces ot'))%nat
  /\ forall q t', traces ot' !! q = Some t' ->
       (exists t, traces ot !! q = Some t /\ Action t = Action t' /\ Error t = Error t')
       \/ ((length (traces ot) <= q)%nat /\ Error t' = "").
Proof.
  intros H. pose proof H as (ts & a & Hts & _ & _ & Hlen & _)%enterTrace_inv.
  split; [rewrite Hts, length_app; lia|].
  intros q t' Hq. destruct (decide (q < length (traces ot))%nat) as [Hlt|Hge].
  - left. destruct (lookup_lt_is_Some_2 (traces ot) q Hlt) as [t Ht].
    destruct (enterTrace_old growcap _ _ _ _ _ H Ht) as (t'' & Ht'' & HA & _ & HE & _).
    exists t. split; [done|]. by assert (t'' = t') as <- by congruence.
  - right. split; [lia|]. rewrite Hts in Hq.
    apply lookup_app_Some in Hq as [Hq|[_ Hq]].
    + apply lookup_lt_Some in Hq. lia.
    + destruct (q - length ts)%nat; [|done]. by injection Hq as <-.
Qed.

(** What one callback does to the error of a selfdestruct node. *)
Lemma step_suicide_error ev ot ot' :
  PInv ot -> errs_ok ev = true -> step growcap ev ot = Some ot' ->
  (length (traces ot) <= length (traces ot'))%nat
  /\ forall q t', traces ot' !! q = Some t' -> is_suicide t' ->
       (exists t, traces ot !! q = Some t /\ is_suicide t
          /\ (Error t' <> ""
              <-> Error t <> "" \/ (last (traceStack ot) = Some q /\ sets_error ev = true)))
       \/ ((length (traces ot) <= q)%nat /\ Error t' = "").
Proof.
  intros HP He Hstep.
  assert (Henter : forall action ot1,
             enterTrace growcap action ot = Some ot1 -> traces ot' = traces ot1 ->
             sets_error ev = false ->
             (length (traces ot) <= length (traces ot'))%nat
             /\ forall q t', traces ot' !! q = Some t' -> is_suicide t' ->
                  (exists t, traces ot !! q = Some t /\ is_suicide t
                     /\ (Error t' <> ""
                         <-> Error t <> ""
                             \/ (last (traceStack ot) = Some q /\ sets_error ev = true)))
                  \/ ((length (traces ot) <= q)%nat /\ Error t' = "")).
  { intros action ot1 H1 Heq Hs. rewrite Heq, Hs.
    destruct (enterTrace_errors _ _ _ H1) as [Hlen Hnodes]. split; [done|].
    intros q t' Hq Hsu. destruct (Hnodes q t' Hq) as [(t & Ht & HA & HE)|?]; [left|by right].
    exists t. split; [done|]. split; [unfold is_suicide in *; congruence|].
    rewrite HE. split; [tauto|]. by intros [?|[_ ?]]. }
  assert (Hsame : sets_error ev = false -> ot' = ot ->
             (length (traces ot) <= length (traces ot'))%nat
             /\ forall q t', traces ot' !! q = Some t' -> is_suicide t' ->
                  (exists t, traces ot !! q = Some t /\ is_suicide t
                     /\ (Error t' <> ""
                         <-> Error t <> ""
                             \/ (last (traceStack ot) = Some q /\ sets_error ev = true)))
                  \/ ((length (traces ot) <= q)%nat /\ Error t' = "")).
  { intros Hs ->. rewrite Hs. split; [done|]. intros q t' Hq Hsu. left.
    exists t'. split_and!; try done. split; [tauto|]. by intros [?|[_ ?]]. }
  assert (Hexit : forall o g err f p t,
             closes f p t ot ot' ->
             f = createExit o g err \/ f = callExit o g err \/ f = suicideExit o g err
             \/ (5 < CallType (Action t) /\ f = id) ->
             err_ok err = true -> (sets_error ev = true <-> is_Some err) ->
             (length (traces ot) <= length (traces ot'))%nat
             /\ forall q t', traces ot' !! q = Some t' -> is_suicide t' ->
                  (exists t, traces ot !! q = Some t /\ is_suicide t
                     /\ (Error t' <> ""
                         <-> Error t <> ""
                             \/ (last (traceStack ot) = Some q /\ sets_error ev = true)))
                  \/ ((length (traces ot) <= q)%nat /\ Error t' = "")).
  { intros o g err f p t (st & Hst & Ht & _ & Hts & _) Hf Herr Hs.
    assert (Hl : last (traceStack ot) = Some p) by (by rewrite Hst, last_snoc).
    rewrite Hts, length_alter. split; [done|].
    intros q t' Hq Hsu. left. destruct (decide (q = p)) as [->|Hne].
    - rewrite list_lookup_alter_eq, Ht in Hq. simpl in Hq. injection Hq as <-.
      exists t. split; [done|].
      destruct Hf as [Hf|[Hf|[Hf|[Hk ->]]]].
      4:{ unfold is_suicide, CallTypeSuicide in Hsu. simpl in Hsu. lia. }
      all: assert (Action (f t) = Action t) as HA
        by (subst f; auto using createExit_Action, callExit_Action, suicideExit_Action).
      all: (split; [unfold is_suicide in *; congruence|]).
      all: rewrite (exit_Error f o g err t) by tauto.
      all: rewrite Hs; split; [intros [?|?]; [by left|by right]|intros [?|[_ ?]]; tauto].
    - rewrite list_lookup_alter_ne in Hq by done.
      exists t'. split_and!; try done. split; [tauto|].
      intros [?|[Hl' _]]; [done|]. congruence. }
  destruct ev as [e from to create input gas value|output gasUsed err
                  |typ from to input gas value|output gasUsed err
                  |op gas scope depth err|]; simpl in Hstep, He.
  - apply CaptureStart_inv in Hstep as (action & ot1 & _ & H1 & ->).
    by apply (Henter action ot1).
  - apply CaptureEnd_inv in Hstep as (f & p & t & Hc & Hf).
    apply (Hexit output gasUsed err f p t Hc); [tauto|done|].
    simpl. destruct err; split; try done; by intros [? ?].
  - destruct (CaptureEnter_cases growcap typ from to input gas value ot)
      as [(_ & action & _ & Heq)|(_ & _ & Heq)]; rewrite Heq in Hstep.
    + by apply (Henter action ot').
    + injection Hstep as <-. by apply Hsame.
  - apply CaptureExit_inv in Hstep as (f & p & t & Hc & Hf).
    apply (Hexit output gasUsed err f p t Hc); [tauto|done|].
    simpl. destruct err; split; try done; by intros [? ?].
  - destruct (decide (op = vm.REVERT)) as [->|Hop].
    + rewrite CaptureState_REVERT in Hstep.
      apply bind_Some in Hstep as (top & Hl & Hstep).
      apply bind_Some in Hstep as (tt & Ht & Hstep). injection Hstep as <-.
      rewrite traces_update, length_alter. split; [done|].
      intros q t' Hq Hsu. left. destruct (decide (q = top)) as [->|Hne].
      * rewrite list_lookup_alter_eq, Ht in Hq. simpl in Hq. injection Hq as <-.
        exists tt. split_and!; try done. simpl. split; [by right|done].
      * rewrite list_lookup_alter_ne in Hq by done.
        exists t'. split_and!; try done. split; [tauto|].
        intros [?|[Hl' _]]; [done|]. congruence.
    + assert (Hs : sets_error (EvState op gas scope depth err) = false)
        by (by apply bool_decide_eq_false).
      assert (Hsyn : forall from to input value e ot1,
                 op ∈ [vm.CREATE; vm.CREATE2; vm.CALL; vm.CALLCODE; vm.DELEGATECALL;
                       vm.STATICCALL] ->
                 CaptureEnter growcap op from to input gas value ot = Some ot1 ->
                 CaptureExit [] 0 (Some e) ot1 = Some ot' ->
                 (length (traces ot) <= length (traces ot'))%nat
                 /\ forall q t', traces ot' !! q = Some t' -> is_suicide t' ->
                      (exists t, traces ot !! q = Some t /\ is_suicide t
                         /\ (Error t' <> ""
                             <-> Error t <> ""
                                 \/ (last (traceStack ot) = Some q
                                     /\ sets_error (EvState op gas scope depth err) = true)))
                      \/ ((length (traces ot) <= q)%nat /\ Error t' = "")).
      { intros from to input value e ot1 Hin H1 H2.
        destruct (enter_exit_emits growcap op from to input gas value e ot HP Hin)
          as (ot'' & Hb & ot1' & t0 & _ & _ & Hsy & Hlast & Hact).
        rewrite H1 in Hb. simpl in Hb. rewrite H2 in Hb. injection Hb as <-.
        destruct Hsy as (_ & ts & t1 & Hts & Hlen & _ & _ & Hold).
        rewrite Hts, last_snoc in Hlast. injection Hlast as ->.
        rewrite Hts, length_app, Hs. split; [lia|].
        intros q t' Hq Hsu. left.
        apply lookup_app_Some in Hq as [Hq|[Hge Hq]].
        - pose proof (lookup_lt_Some _ _ _ Hq) as Hlt.
          destruct (lookup_lt_is_Some_2 (traces ot) q ltac:(lia)) as [t Ht].
          destruct (Hold q t Ht) as (t'' & Ht'' & HA & _ & HE & _).
          assert (t'' = t') as -> by congruence.
          exists t. split; [done|]. split; [unfold is_suicide in *; congruence|].
          rewrite HE. split; [tauto|]. by intros [?|[_ ?]].
        - destruct (q - length ts)%nat; [|done]. injection Hq as <-.
          exfalso. by eapply synthetic_not_suicide. }
      destruct (CaptureState_cases growcap _ _ _ _ _ _ _ Hstep)
        as [->|[(value & e & Hf & Hc & _)|[(value & e & Hf & Hc & _)|(-> & _)]]];
        [by apply Hsame| | |done].
      * apply createPreProcessFailed_inv in Hf as (input & ot1 & H1 & H2).
        eapply Hsyn; [|done|done]. rewrite !elem_of_cons. tauto.
      * apply callPreProcessFailed_inv in Hf as (to & input & ot1 & H1 & H2).
        eapply Hsyn; [|done|done]. rewrite !elem_of_cons. tauto.
  - injection Hstep as <-. by apply Hsame.
Qed.

Lemma run_provenance bh bn th tp evs : forall ot,
  forallb errs_ok evs = true ->
  run growcap evs (NewOeTracer bh bn th tp) = Some ot ->
  (forall q, blamed growcap (NewOeTracer bh bn th tp) evs q -> (q < length (traces ot))%nat)
  /\ forall q t, traces ot !! q = Some t -> is_suicide t ->
       (Error t <> "" <-> blamed growcap (NewOeTracer bh bn th tp) evs q).
Proof.
  induction evs as [|ev evs IH] using rev_ind; intros ot He Hrun.
  - injection Hrun as <-. split.
    + intros q (pre & e & post & _ & Heq & _). by destruct pre.
    + intros q t Ht. done.
  - rewrite forallb_app in He. apply andb_prop in He as [He Hev].
    simpl in Hev. rewrite andb_true_r in Hev.
    rewrite run_app in Hrun. apply bind_Some in Hrun as (ot0 & Hrun0 & Hstep).
    simpl in Hstep. apply bind_Some in Hstep as (ot1 & Hstep & [= ->]).
    destruct (IH ot0 He Hrun0) as [HB HJ].
    pose proof (run_PInv growcap _ _ _ (NewOeTracer_PInv bh bn th tp) Hrun0) as HP.
    destruct (step_suicide_error ev ot0 ot HP Hev Hstep) as [Hlen Hnodes].
    assert (Hbound : forall q,
               blamed growcap (NewOeTracer bh bn th tp) (evs ++ [ev]) q ->
               (q < length (traces ot0))%nat).
    { intros q [Hb|[Hl _]]%(blamed_snoc _ _ _ _ _ Hrun0); [by apply HB|].
      apply (pinv_bound _ HP). by apply last_Some_elem_of. }
    split.
    + intros q Hb. apply Hbound in Hb. lia.
    + intros q t Ht Hsu. rewrite (blamed_snoc _ _ _ _ _ Hrun0).
      destruct (Hnodes q t Ht Hsu) as [(t0 & Ht0 & Hsu0 & Hiff)|[Hge Herr]].
      * rewrite Hiff, (HJ q t0 Ht0 Hsu0). done.
      * split; [done|]. intros Hb%(blamed_snoc _ _ _ _ _ Hrun0)%Hbound. lia.
Qed.

(** C3 (amended). In every state a validly nested event stream drives the
    tracer into, with error values that carry a message, every closed
    create or call node has exactly one of result and error set.  A closed
    selfdestruct node has no result, and it has an error exactly when an
    error was handed to its exit or a REVERT was observed while it was the
    innermost open node; so a selfdestruct node that closed without either
    has neither field set. *)
Theorem closed_result_error evs d bh bn th tp ot p t :
  nesting 0 evs = Some d ->
  forallb errs_ok evs = true ->
  run growcap evs (NewOeTracer bh bn th tp) = Some ot ->
  closed ot p -> traces ot !! p = Some t ->
  (~ is_suicide t -> exactly_one t)
  /\ (is_suicide t ->
      Result t = None
      /\ (Error t <> "" <-> blamed growcap (NewOeTracer bh bn th tp) evs p)).
Proof.
  intros Hn He Hrun [_ Hnin] Ht.
  pose proof (run_Inv growcap evs 0 d _ ot (NewOeTracer_Inv bh bn th tp) Hn He Hrun) as HI.
  destruct (inv_closed _ _ HI p t Ht Hnin) as [H1 H2].
  split; [done|]. intros Hsu. split; [by apply H2|].
  by apply (run_provenance bh bn th tp evs ot He Hrun).
Qed.

End ErrorProvenance.

(** The theorem at a concrete stream: a call that creates a contract that
    selfdestructs.  The create node is closed with a result; the
    selfdestruct node has no result and, nothing being to blame, no
    error. *)
Lemma closed_result_error_witness :
  exists ot t1 t3, run gc_growcap witness_events witness_init = Some ot
    /\ traces ot !! 1%nat = Some t1 /\ exactly_one t1
    /\ traces ot !! 3%nat = Some t3 /\ Result t3 = None /\ Error t3 = ""
    /\ ~ blamed gc_growcap witness_init witness_events 3.
Proof.
  eexists _, _, _. split; [vm_compute; reflexivity|]. split; [reflexivity|].
  split.
  { refine (proj1 (closed_result_error gc_growcap witness_events 0 zero_Hash (Some 1%Z)
                     zero_Hash 0 _ 1%nat _ eq_refl eq_refl _ _ _) _).
    - vm_compute. reflexivity.
    - split; [vm_compute; lia|]. apply not_elem_of_nil.
    - reflexivity.
    - unfold is_suicide. simpl. discriminate. }
  split; [reflexivity|].
  destruct (proj2 (closed_result_error gc_growcap witness_events 0 zero_Hash (Some 1%Z)
                     zero_Hash 0 _ 3%nat _ eq_refl eq_refl ltac:(vm_compute; reflexivity)
                     ltac:(split; [vm_compute; lia|apply not_elem_of_nil]) eq_refl)
              eq_refl) as [Hr Hb].
  split; [exact Hr|]. split; [reflexivity|]. intros Hbl. by apply Hb in Hbl.
Defined.

(** A selfdestruct whose exit is handed an error has that error, and the
    exit is to blame. *)
Lemma failed_suicide_blamed :
  exists ot t, run gc_growcap failed_suicide_events witness_init = Some ot
    /\ traces ot !! 1%nat = Some t /\ is_suicide t /\ Error t = "out of gas"
    /\ blamed gc_growcap witness_init failed_suicide_events 1.
Proof.
  eexists _, _. split; [vm_compute; reflexivity|]. split; [reflexivity|].
  split; [reflexivity|]. split; [reflexivity|].
  eexists (take 2 failed_suicide_events), _, _, _.
  split; [reflexivity|]. split; [vm_compute; reflexivity|]. split; reflexivity.
Qed.

(** C3 as stated fails: the selfdestruct node of the stream is closed with
    neither a result nor an error. *)
Lemma closed_suicide_neither :
  exists ot t, run gc_growcap witness_events witness_init = Some ot
    /\ closed ot 3 /\ traces ot !! 3%nat = Some t /\ ~ exactly_one t.
Proof.
  eexists _, _. split; [vm_compute; reflexivity|].
  split; [split; [vm_compute; lia|apply not_elem_of_nil]|].
  split; [reflexivity|].
  intros [[Hr _]|[_ He]]; [by apply Hr|by apply He].
Qed.

Section Addresses.

Variable growcap : nat -> nat -> nat.

Implicit Types (ot : OeTracer) (t : node) (p : nat).

(** *** Trace addresses *)

Lemma extends_refl ot : extends ot ot.
Proof. split; [exists []; by rewrite app_nil_r|]. intros q t Ht. by exists t. Qed.

Lemma extends_trans ot1 ot2 ot3 : extends ot1 ot2 -> extends ot2 ot3 -> extends ot1 ot3.
Proof.
  intros [[k1 Hk1] H1] [[k2 Hk2] H2]. split.
  - exists (k1 ++ k2). by rewrite Hk2, Hk1, app_assoc.
  - intros q t Ht. destruct (H1 q t Ht) as (t' & Ht' & Ha).
    destruct (H2 q t' Ht') as (t'' & Ht'' & Ha'). exists t''. split; [done|congruence].
Qed.

Lemma extends_address ot ot' q a :
  HInv ot -> extends ot ot' -> address_of ot q = Some a -> address_of ot' q = Some a.
Proof.
  intros HH [[k Hk] He] Ha. unfold address_of in *.
  destruct (traces ot !! q) as [t|] eqn:Ht; simpl in Ha; [|done].
  destruct (He q t Ht) as (t' & -> & Hta). simpl. rewrite Hta, Hk.
  inversion Ha; subst. f_equal. by apply slice_ok_elems_app, (HH q).
Qed.

(** The address computed for a child of [parent]: the parent's address
    with the parent's child count appended, in a fresh array. *)
Lemma child_address h (ps : slice) (v : N) h3 a2 :
  slice_ok h ps ->
  (let '(h0, a0) := make h 0 in
   let '(h1, a1) := make h0 (len ps) in
   let h2 := copy h1 a1 ps in
   append growcap h2 a1 v) = (h3, a2) ->
  (exists k, h3 = h ++ k) /\ slice_ok h3 a2 /\ elems h3 a2 = elems h ps ++ [v].
Proof.
  intros Hok. unfold make, copy, append. simpl.
  set (n := len ps). set (E := elems h ps).
  assert (HE : elems ((h ++ [[]]) ++ [replicate n 0]) ps = E).
  { unfold E. rewrite <- app_assoc. by apply slice_ok_elems_app. }
  assert (HlenE : length E = n).
  { unfold E, elems. rewrite length_take. unfold slice_ok, cap in Hok.
    destruct (base ps) eqn:Hb.
    - unfold array in *. rewrite Hb in *. fold n in Hok. lia.
    - unfold array. rewrite Hb. simpl. fold n in Hok. lia. }
  rewrite HE, Nat.min_id.
  assert (Hh2 : alter (fun arr => take n E ++ drop n arr) (length (h ++ [[]]))
                  ((h ++ [[]]) ++ [replicate n 0]) = (h ++ [[]]) ++ [E]).
  { rewrite <- (Nat.add_0_r (length (h ++ [[]]))), alter_app_r. simpl. f_equal.
    rewrite <- HlenE at 1. rewrite firstn_all.
    rewrite drop_ge by (rewrite length_replicate; lia). by rewrite app_nil_r. }
  rewrite Hh2.
  assert (Harr : array ((h ++ [[]]) ++ [E]) (Slice (Some (length (h ++ [[]]))) n) = E).
  { unfold array. simpl. rewrite lookup_app_r, Nat.sub_diag by lia. done. }
  unfold cap. rewrite Harr, HlenE.
  rewrite decide_False by lia.
  unfold elems at 1. rewrite Harr. simpl. rewrite <- HlenE at 1. rewrite firstn_all.
  intros [= <- <-]. split; [|split].
  - eexists. rewrite <- !app_assoc. done.
  - unfold slice_ok, cap, array. simpl.
    rewrite !length_app. simpl. split; [lia|].
    rewrite lookup_app_r by (rewrite !length_app; simpl; lia).
    rewrite !length_app. simpl.
    replace (length h + 1 + 1 - (length h + 1 + 1))%nat with 0%nat by lia.
    simpl. rewrite length_app. simpl. lia.
  - unfold elems, array. simpl.
    rewrite lookup_app_r by (rewrite !length_app; simpl; lia).
    rewrite !length_app. simpl.
    replace (length h + 1 + 1 - (length h + 1 + 1))%nat with 0%nat by lia.
    simpl. rewrite <- HlenE.
    change (E ++ v :: replicate (growcap (length E) (S (length E)) - S (length E)) 0)
      with (E ++ [v] ++ replicate (growcap (length E) (S (length E)) - S (length E)) 0).
    rewrite app_assoc.
    replace (S (length E)) with (length (E ++ [v])) at 1
      by (rewrite length_app; simpl; lia).
    by rewrite take_app_length.
Qed.


Lemma enterTrace_heap action ot ot' :
  HInv ot -> enterTrace growcap action ot = Some ot' ->
  extends ot ot' /\ HInv ot'
  /\ (last (traceStack ot) = None ->
       address_of ot' (length (traces ot)) = Some []
       /\ forall q t, traces ot !! q = Some t -> traces ot' !! q = Some t)
  /\ (forall top parent, last (traceStack ot) = Some top ->
       traces ot !! top = Some parent ->
       address_of ot' (length (traces ot))
         = Some (elems (heap_ ot) (TraceAddress parent) ++ [Subtraces parent])
       /\ traces ot' !! top = Some (set_Subtraces (wrap32 (Subtraces parent + 1)) parent)).
Proof.
  intros HH H. unfold enterTrace in H. simpl in H.
  destruct (last (traceStack ot)) as [top|] eqn:Hl.
  - destruct (traces ot !! top) as [parent|] eqn:Hp; simpl in H; [|done].
    destruct (append _ _ _ _) as [h3 a2] eqn:Happ. inversion H; subst ot'; clear H.
    pose proof (child_address (heap_ ot) (TraceAddress parent) (Subtraces parent)
                  h3 a2 (HH _ _ Hp) Happ) as ([k Hk] & Hok & Hel).
    assert (Hold : forall q t, traces ot !! q = Some t ->
              exists t', (alter (set_Subtraces (wrap32 (Subtraces parent + 1))) top (traces ot)
                         ++ [mkInternalActionTrace action None "" a2 0]) !! q = Some t'
                       /\ TraceAddress t' = TraceAddress t).
    { intros q t Ht. pose proof (lookup_lt_Some _ _ _ Ht) as Hlt.
      rewrite lookup_app_l by (rewrite length_alter; lia).
      destruct (decide (top = q)) as [->|Hne].
      - rewrite list_lookup_alter_eq, Ht. simpl. by eexists.
      - rewrite list_lookup_alter_ne by done. by eexists. }
    split_and!.
    + split; [by exists k|]. rewrite traces_with_state. exact Hold.
    + intros q t. rewrite traces_with_state. simpl. intros Hq.
      apply lookup_app_Some in Hq as [Hq|[_ Hq]].
      * destruct (decide (top = q)) as [->|Hne].
        -- rewrite list_lookup_alter_eq, Hp in Hq. injection Hq as <-. simpl.
           rewrite Hk. apply slice_ok_app. by apply (HH q).
        -- rewrite list_lookup_alter_ne in Hq by done.
           rewrite Hk. apply slice_ok_app. by apply (HH q).
      * rewrite length_alter in Hq.
        destruct (q - length (traces ot))%nat; [|done]. by injection Hq as <-.
    + done.
    + intros top' parent' [= <-] Hp'. assert (parent' = parent) as -> by congruence.
      unfold address_of. rewrite traces_with_state. simpl. split.
      * rewrite lookup_app_r by (rewrite length_alter; lia).
        rewrite length_alter, Nat.sub_diag. simpl. by rewrite Hel.
      * pose proof (lookup_lt_Some _ _ _ Hp) as Hlt.
        rewrite lookup_app_l by (rewrite length_alter; lia).
        by rewrite list_lookup_alter_eq, Hp.
  - inversion H; subst ot'; clear H. split_and!.
    + split; [by eexists|]. intros q t Ht. rewrite traces_with_state.
      exists t. split; [|done]. by apply lookup_app_l_Some.
    + intros q t. rewrite traces_with_state. simpl. intros Hq.
      apply lookup_app_Some in Hq as [Hq|[_ Hq]].
      * apply slice_ok_app. by apply (HH q).
      * destruct (q - length (traces ot))%nat; [|done]. inversion Hq; subst.
        unfold slice_ok, cap, array. simpl. rewrite length_app. simpl.
        split; lia.
    + intros _. unfold address_of. rewrite traces_with_state. simpl. split.
      * rewrite lookup_app_r, Nat.sub_diag by lia. done.
      * intros q t Ht. by apply lookup_app_l_Some.
    + done.
Qed.

Lemma closes_extends f p t ot ot' :
  closes f p t ot ot' -> (forall t, TraceAddress (f t) = TraceAddress t) ->
  extends ot ot' /\ (HInv ot -> HInv ot').
Proof.
  intros (st & _ & Ht & _ & Hts & Hh & _) Hf. split; [split|].
  - exists []. by rewrite Hh, app_nil_r.
  - intros q t0 Hq. rewrite Hts. destruct (decide (p = q)) as [->|Hne].
    + rewrite list_lookup_alter_eq, Hq. simpl. by eexists.
    + rewrite list_lookup_alter_ne by done. by eexists.
  - intros HH q t0. rewrite Hts, Hh. destruct (decide (p = q)) as [->|Hne].
    + rewrite list_lookup_alter_eq. destruct (traces ot !! q) as [t1|] eqn:Hq; [|done].
      intros [= <-]. rewrite Hf. by apply (HH q).
    + rewrite list_lookup_alter_ne by done. apply HH.
Qed.

Lemma exit_TraceAddress f o g err t :
  f = createExit o g err \/ f = callExit o g err \/ f = suicideExit o g err \/ f = id ->
  TraceAddress (f t) = TraceAddress t.
Proof.
  intros [->|[->|[->| ->]]]; unfold createExit, callExit, suicideExit;
    repeat case_match; done.
Qed.

Lemma CaptureExit_extends o g err ot ot' :
  CaptureExit o g err ot = Some ot' -> extends ot ot' /\ (HInv ot -> HInv ot').
Proof.
  intros (f & p & t & Hc & Hf)%CaptureExit_inv. eapply closes_extends; [done|].
  intros t0. apply (exit_TraceAddress f o g err). intuition eauto.
Qed.

Lemma CaptureEnd_extends o g err ot ot' :
  CaptureEnd o g err ot = Some ot' -> extends ot ot' /\ (HInv ot -> HInv ot').
Proof.
  intros (f & p & t & Hc & Hf)%CaptureEnd_inv. eapply closes_extends; [done|].
  intros t0. apply (exit_TraceAddress f o g err). intuition eauto.
Qed.

Lemma CaptureEnter_extends typ from to input gas value ot ot' :
  HInv ot -> CaptureEnter growcap typ from to input gas value ot = Some ot' ->
  extends ot ot' /\ HInv ot'.
Proof.
  intros HH H.
  destruct (CaptureEnter_cases growcap typ from to input gas value ot)
    as [(_ & action & _ & Heq)|(_ & _ & Heq)]; rewrite Heq in H.
  - apply enterTrace_heap in H; [|done]. tauto.
  - inversion H; subst. split; [apply extends_refl|done].
Qed.

Lemma step_extends ev ot ot' :
  HInv ot -> step growcap ev ot = Some ot' -> extends ot ot' /\ HInv ot'.
Proof.
  intros HH H. destruct ev; simpl in H.
  - apply CaptureStart_inv in H as (action & ot1 & _ & H1 & ->).
    apply enterTrace_heap in H1 as (He & HH1 & _); [|done]. done.
  - apply CaptureEnd_extends in H as [He HH']. auto.
  - by eapply CaptureEnter_extends.
  - apply CaptureExit_extends in H as [He HH']. auto.
  - apply CaptureState_cases in H
      as [->|[(v & e & H & _)|[(v & e & H & _)|(_ & top & Hl & _ & ->)]]].
    + split; [apply extends_refl|done].
    + apply createPreProcessFailed_inv in H as (input & ot1 & H1 & H2).
      apply CaptureEnter_extends in H1 as [He1 HH1]; [|done].
      apply CaptureExit_extends in H2 as [He2 HH2].
      split; [by eapply extends_trans|auto].
    + apply callPreProcessFailed_inv in H as (to & input & ot1 & H1 & H2).
      apply CaptureEnter_extends in H1 as [He1 HH1]; [|done].
      apply CaptureExit_extends in H2 as [He2 HH2].
      split; [by eapply extends_trans|auto].
    + split; [split|].
      * exists []. simpl. by rewrite app_nil_r.
      * intros q t Ht. rewrite traces_update. destruct (decide (top = q)) as [->|Hne].
        -- rewrite list_lookup_alter_eq, Ht. simpl. by eexists.
        -- rewrite list_lookup_alter_ne by done. by eexists.
      * intros q t. rewrite traces_update. simpl.
        destruct (decide (top = q)) as [->|Hne].
        -- rewrite list_lookup_alter_eq.
           destruct (traces ot !! q) as [t1|] eqn:Hq; [|done].
           intros [= <-]. simpl. by apply (HH q).
        -- rewrite list_lookup_alter_ne by done. apply HH.
  - inversion H; subst. split; [apply extends_refl|done].
Qed.

Lemma run_extends evs : forall ot ot',
  HInv ot -> run growcap evs ot = Some ot' -> extends ot ot' /\ HInv ot'.
Proof.
  induction evs as [|ev evs IH]; intros ot ot' HH H; simpl in H.
  - inversion H; subst. split; [apply extends_refl|done].
  - apply bind_Some in H as (ot1 & H1 & H).
    destruct (step_extends _ _ _ HH H1) as [He1 HH1].
    destruct (IH _ _ HH1 H) as [He2 HH2]. split; [by eapply extends_trans|done].
Qed.

Lemma NewOeTracer_HInv bh bn th tp : HInv (NewOeTracer bh bn th tp).
Proof. by intros q t ?. Qed.

(** X1.  Address allocation in the current revision.  When a node is
    allocated in a reachable state, under an open parent its address is the
    parent's address with the parent's child count appended, and the
    parent's count is incremented (modulo [2^32]); without an open node its
    address is empty and no node is touched; and whatever events follow,
    the address read for the node stays the one assigned. *)
Theorem address_allocation pre post bh bn th tp action ot ot1 ot2 :
  run growcap pre (NewOeTracer bh bn th tp) = Some ot ->
  enterTrace growcap action ot = Some ot1 ->
  run growcap post ot1 = Some ot2 ->
  let new := length (traces ot) in
  (forall top parent, last (traceStack ot) = Some top -> traces ot !! top = Some parent ->
     exists a, address_of ot top = Some a
       /\ address_of ot1 new = Some (a ++ [Subtraces parent])
       /\ address_of ot2 new = Some (a ++ [Subtraces parent])
       /\ traces ot1 !! top = Some (set_Subtraces (wrap32 (Subtraces parent + 1)) parent))
  /\ (last (traceStack ot) = None ->
       address_of ot1 new = Some [] /\ address_of ot2 new = Some []
       /\ forall q t, traces ot !! q = Some t -> traces ot1 !! q = Some t)
  /\ (forall q a, address_of ot1 q = Some a -> address_of ot2 q = Some a).
Proof.
  intros Hpre H1 Hpost new.
  destruct (run_extends _ _ _ (NewOeTracer_HInv bh bn th tp) Hpre) as [_ HH].
  destruct (enterTrace_heap _ _ _ HH H1) as (_ & HH1 & Hroot & Hchild).
  destruct (run_extends _ _ _ HH1 Hpost) as [He2 _].
  assert (Hstable : forall q a, address_of ot1 q = Some a -> address_of ot2 q = Some a).
  { intros q a. by apply extends_address. }
  split_and!; [| |done].
  - intros top parent Hl Hp. destruct (Hchild top parent Hl Hp) as [Ha Hs].
    exists (elems (heap_ ot) (TraceAddress parent)). split_and!; auto.
    unfold address_of. by rewrite Hp.
  - intros Hl. destruct (Hroot Hl) as [Ha Hq]. auto.
Qed.

End Addresses.

(** *** Order of the pre-checks *)

Section PreChecks.

Variable growcap : nat -> nat -> nat.

(** For the creation opcodes the engine's error is looked at first. *)
Lemma create_engine_error_first op gas scope depth e ot value :
  op = vm.CREATE \/ op = vm.CREATE2 ->
  vm.Back scope 0 = Some value ->
  CaptureState growcap op gas scope depth (Some e) ot
  = createPreProcessFailed growcap op scope gas (Some (Z.of_N value)) e ot.
Proof.
  intros Hop Hv. unfold CaptureState. rewrite (decide_True _ _ Hop), Hv. done.
Qed.

(** So it is for DELEGATECALL and STATICCALL. *)
Lemma delegate_engine_error_first op gas scope depth e ot :
  op = vm.DELEGATECALL \/ op = vm.STATICCALL ->
  CaptureState growcap op gas scope depth (Some e) ot
  = callPreProcessFailed growcap op scope gas None e ot.
Proof. by intros [-> | ->]. Qed.

(** The order of the remaining checks for the creation opcodes: depth,
    balance, nonce, collision.  The depth check answers before the engine
    state is consulted, so it wins also when no environment is set. *)
Lemma create_precheck_order op gas scope depth ot value :
  op = vm.CREATE \/ op = vm.CREATE2 ->
  vm.Back scope 0 = Some value ->
  let addr := vm.ContractAddress scope in
  let failed := fun e => createPreProcessFailed growcap op scope gas (Some (Z.of_N value)) e ot in
  ((depth > vm.CallCreateDepth)%Z ->
   CaptureState growcap op gas scope depth None ot = failed vm.ErrDepth)
  /\ (forall e, (depth <= vm.CallCreateDepth)%Z -> env ot = Some e ->
      (Z.of_N value <> 0%Z /\ vm.CanTransfer e addr (Z.of_N value) = false ->
       CaptureState growcap op gas scope depth None ot = failed vm.ErrInsufficientBalance)
      /\ (Z.of_N value = 0%Z \/ vm.CanTransfer e addr (Z.of_N value) = true ->
          (wrap64 (vm.GetNonce e addr + 1) < vm.GetNonce e addr ->
           CaptureState growcap op gas scope depth None ot = failed vm.ErrNonceUintOverflow)
          /\ (~ wrap64 (vm.GetNonce e addr + 1) < vm.GetNonce e addr ->
              (vm.GetNonce e addr <> 0
               \/ (vm.GetCodeHash e addr <> zero_Hash
                   /\ vm.GetCodeHash e addr <> emptyCodeHash) ->
               CaptureState growcap op gas scope depth None ot
               = failed vm.ErrContractAddressCollision)
              /\ (~ (vm.GetNonce e addr <> 0
                     \/ (vm.GetCodeHash e addr <> zero_Hash
                         /\ vm.GetCodeHash e addr <> emptyCodeHash)) ->
                  CaptureState growcap op gas scope depth None ot = Some ot)))).
Proof.
  intros Hop Hv addr failed. unfold CaptureState.
  rewrite (decide_True _ _ Hop), Hv. simpl.
  unfold checkDepthAboveLitmit, checkCanTransfer, checkNonceMatch, checkContractNotExist.
  split.
  - intros Hd. by rewrite decide_True.
  - intros e Hd He. rewrite (decide_False (P := (depth > vm.CallCreateDepth)%Z)) by lia.
    rewrite He. simpl. split.
    + intros [Hnz Hct]. rewrite (decide_True _ _ Hnz). simpl. fold addr. by rewrite Hct.
    + intros Hok.
      assert (Hbal : (if decide (Z.of_N value <> 0%Z)
                      then Some (if vm.CanTransfer e addr (Z.of_N value)
                                 then None else Some vm.ErrInsufficientBalance)
                      else Some None) = Some (None : option error)).
      { case_decide; [|done]. destruct Hok as [?| ->]; done. }
      fold addr. rewrite Hbal. simpl. split.
      * intros Hn. by rewrite (decide_True _ _ Hn).
      * intros Hn. rewrite (decide_False _ _ Hn). simpl. split.
        -- intros Hc. by rewrite (decide_True _ _ Hc).
        -- intros Hc. by rewrite (decide_False _ _ Hc).
Qed.

(** What the code does for CALL and CALLCODE, whatever the engine's
    error: the depth check, then the balance check. *)
Lemma call_precheck_order op gas scope depth err ot value :
  op = vm.CALL \/ op = vm.CALLCODE ->
  vm.Back scope 2 = Some value ->
  let addr := vm.ContractAddress scope in
  let failed := fun e => callPreProcessFailed growcap op scope gas (Some (Z.of_N value)) e ot in
  ((depth > vm.CallCreateDepth)%Z ->
   CaptureState growcap op gas scope depth err ot = failed vm.ErrDepth)
  /\ (forall e, (depth <= vm.CallCreateDepth)%Z -> env ot = Some e ->
      (Z.of_N value <> 0%Z /\ vm.CanTransfer e addr (Z.of_N value) = false ->
       CaptureState growcap op gas scope depth err ot = failed vm.ErrInsufficientBalance)
      /\ (Z.of_N value = 0%Z \/ vm.CanTransfer e addr (Z.of_N value) = true ->
          CaptureState growcap op gas scope depth err ot = Some ot)).
Proof.
  intros Hop Hv addr failed. unfold CaptureState.
  assert (Hnc : ~ (op = vm.CREATE \/ op = vm.CREATE2))
    by (by destruct Hop as [-> | ->]; intros [|]).
  rewrite (decide_False _ _ Hnc), (decide_True _ _ Hop), Hv. simpl.
  unfold checkDepthAboveLitmit, checkCanTransfer.
  split.
  - intros Hd. by rewrite decide_True.
  - intros e Hd He. rewrite (decide_False (P := (depth > vm.CallCreateDepth)%Z)) by lia.
    rewrite He. simpl. fold addr. split.
    + intros [Hnz Hct]. rewrite (decide_True _ _ Hnz). simpl. by rewrite Hct.
    + intros Hok. case_decide; [|done]. destruct Hok as [?| ->]; done.
Qed.

(** C5 (code). For CALL and CALLCODE the depth check runs first and its
    outcome overwrites the engine's error, which is then never looked at:
    with an engine error, a depth within the limit and no value to
    transfer, nothing is synthesized at all. *)
Theorem call_engine_error_dropped op gas e ot :
  op = vm.CALL \/ op = vm.CALLCODE ->
  CaptureState growcap op gas call_scope 1 (Some e) ot = Some ot.
Proof. by intros [-> | ->]. Qed.

End PreChecks.

Lemma call_engine_error_dropped_witness :
  CaptureState gc_growcap vm.CALL 7 call_scope 1 (Some "out of gas") witness_init
  = Some witness_init.
Proof. apply (call_engine_error_dropped gc_growcap vm.CALL 7 "out of gas"). by left. Defined.

(** With an engine error and an insufficient balance, the node of a CALL
    reports the balance and not the engine's error. *)
Lemma call_engine_error_masked :
  exists ot1 ot2 t,
    run gc_growcap [EvStart poor_env zero_Address zero_Address false [] 100 None]
      witness_init = Some ot1
    /\ CaptureState gc_growcap vm.CALL 7 call_value_scope 1 (Some "out of gas") ot1
       = Some ot2
    /\ traces ot2 !! 1%nat = Some t
    /\ Error t = vm.ErrInsufficientBalance.
Proof.
  eexists _, _, _. split; [vm_compute; reflexivity|].
  split; [vm_compute; reflexivity|]. split; reflexivity.
Qed.

(** A CREATE2 observed at depth 1025, through [CaptureState]. *)
Lemma create2_at_max_depth :
  exists ot1 ot2 t,
    run gc_growcap [EvStart witness_env zero_Address zero_Address false [] 100 None]
      witness_init = Some ot1
    /\ CaptureState gc_growcap vm.CREATE2 7 create2_scope 1025 None ot1 = Some ot2
    /\ traceStack ot2 = traceStack ot1
    /\ length (traces ot2) = 2%nat
    /\ traces ot2 !! 1%nat = Some t
    /\ CallType (Action t) = CallTypeCreate
    /\ Error t = "max call depth exceeded" /\ Result t = None.
Proof.
  eexists _, _, _. split; [vm_compute; reflexivity|].
  split; [vm_compute; reflexivity|]. repeat split; reflexivity.
Qed.



Lemma revert_propagation_witness :
  exists ot2, run gc_growcap (revert_pre ++ EvState vm.REVERT 3 call_scope 2 None
                                :: revert_post) witness_init = Some ot2
    /\ marked ot2 1.
Proof.
  eexists. split; [vm_compute; reflexivity|].
  refine (proj1 (proj2 (revert_propagation gc_growcap revert_pre revert_post zero_Hash
            (Some 1%Z) zero_Hash 0 3 call_scope 2 None _ _ 1%nat _ _ _))).
  - vm_compute. reflexivity.
  - reflexivity.
  - vm_compute. reflexivity.
Defined.

(** The side condition on error values: an error whose message is empty
    leaves a closed call with neither field set. *)
Lemma closed_call_empty_message :
  exists ot t, run gc_growcap empty_message_events witness_init = Some ot
    /\ closed ot 0 /\ traces ot !! 0%nat = Some t /\ ~ exactly_one t.
Proof.
  eexists _, _. split; [vm_compute; reflexivity|].
  split; [split; [vm_compute; lia|apply not_elem_of_nil]|].
  split; [reflexivity|].
  intros [[Hr _]|[_ He]]; [by apply Hr|by apply He].
Qed.

End TracerFacts.

(** ** The earlier revision of the streaming tracer *)
Module LegacyFacts.
Import GoSlice Legacy.

(** C1 (code). In the earlier revision a child's address is appended to
    the parent's slice in place.  With the capacities the gc runtime gives
    a [uint32] slice, the second call made by a nested call overwrites the
    address assigned to the first: node 2 is discovered with address
    [0; 0], and once its sibling node 3 is discovered both read [0; 1],
    in the node list and in the sealed output. *)
Theorem sibling_overwrites_address :
  (exists ot, run gc_growcap two_calls_open legacy_init = Some ot
     /\ address_of ot 2 = Some [0; 0])
  /\ (exists ot, run gc_growcap (two_calls_open ++ two_calls_rest) legacy_init = Some ot
       /\ address_of ot 2 = Some [0; 1]
       /\ address_of ot 3 = Some [0; 1]
       /\ output_address_of ot 2 = Some [0; 1]
       /\ output_address_of ot 3 = Some [0; 1]).
Proof.
  split.
  - eexists. split; [vm_compute; reflexivity|]. reflexivity.
  - eexists. split; [vm_compute; reflexivity|]. repeat split; reflexivity.
Qed.

Lemma gc_growcap_spare : (2 <= gc_growcap 0 1)%nat.
Proof. vm_compute. lia. Qed.

(** The same holds under every capacity policy that gives the first
    append a spare cell. *)
Lemma sibling_overwrites_any_spare growcap :
  (2 <= growcap 0%nat 1%nat)%nat ->
  (exists ot, run growcap two_calls_open legacy_init = Some ot
     /\ address_of ot 2 = Some [0; 0])
  /\ (exists ot, run growcap (two_calls_open ++ two_calls_rest) legacy_init = Some ot
       /\ address_of ot 2 = Some [0; 1]
       /\ address_of ot 3 = Some [0; 1]).
Proof.
  intros Hc. destruct (growcap 0%nat 1%nat) as [|[|k]] eqn:Hg; [lia|lia|].
  split.
  - eexists. split.
    + vm_compute. rewrite Hg. vm_compute. reflexivity.
    + vm_compute. reflexivity.
  - eexists. split.
    + vm_compute. rewrite Hg. vm_compute. reflexivity.
    + vm_compute. repeat split; reflexivity.
Qed.

End LegacyFacts.

(** ** The tree tracer: flattening *)
Module V1Facts.
Import V1.

Lemma ActionTrace_tree_ind (P : ActionTrace -> Prop) :
  (forall t, Forall P (childTraces t) -> P t) -> forall t, P t.
Proof.
  intros H. fix IH 1. intros t. apply H.
  destruct t as [cs ? ? ? ? ? ? ? ? ? ?]. simpl.
  induction cs as [|c cs IHcs]; constructor; [apply IH|exact IHcs].
Qed.

Lemma processTraceOf_unfold gas built callTrace :
  processTraceOf gas built callTrace
  = fold_left
      (fun callTrace childTrace =>
         let child := adjustChild gas childTrace in
         processTraceOf (Gas (Action child)) childTrace (AddTrace child callTrace))
      (childTraces built)
      (update_last (set_Subtraces (N.of_nat (length (childTraces built)))) callTrace).
Proof. by destruct built. Qed.

Lemma flatten_unfold gas child :
  flatten gas child
  = set_Subtraces (N.of_nat (length (childTraces child))) (render gas child)
    :: concat (map (flatten (Gas (Action (render gas child)))) (childTraces child)).
Proof. by destruct child. Qed.

(** The loop body computes the rendering of the specification. *)
Lemma adjustChild_render gas childTrace : adjustChild gas childTrace = render gas childTrace.
Proof.
  unfold adjustChild, render. cbv zeta.
  destruct (Result childTrace) as [res|]; [|done].
  destruct (decide (GasUsed res < gas)) as [Hlt|Hge].
  - rewrite (decide_True (P := (0 < Z.of_N gas - Z.of_N (GasUsed res))%Z)) by lia.
    by rewrite <- N2Z.inj_sub, N2Z.id by lia.
  - by rewrite (decide_False (P := (0 < Z.of_N gas - Z.of_N (GasUsed res))%Z)) by lia.
Qed.

Lemma update_last_snoc f acc x :
  update_last f (mkCallTrace (acc ++ [x])) = mkCallTrace (acc ++ [f x]).
Proof.
  unfold update_last. simpl. f_equal. rewrite length_app. simpl.
  replace (length acc + 1 - 1)%nat with (length acc + 0)%nat by lia.
  by rewrite alter_app_r.
Qed.

Lemma processTraceOf_flatten built : forall gas acc x,
  processTraceOf gas built (mkCallTrace (acc ++ [x]))
  = mkCallTrace (acc ++ set_Subtraces (N.of_nat (length (childTraces built))) x
                   :: concat (map (flatten gas) (childTraces built))).
Proof.
  induction built as [built IH] using ActionTrace_tree_ind. intros gas acc x.
  rewrite processTraceOf_unfold, update_last_snoc.
  replace (acc ++ set_Subtraces (N.of_nat (length (childTraces built))) x
             :: concat (map (flatten gas) (childTraces built)))
    with ((acc ++ [set_Subtraces (N.of_nat (length (childTraces built))) x])
            ++ concat (map (flatten gas) (childTraces built)))
    by by rewrite <- app_assoc.
  generalize (acc ++ [set_Subtraces (N.of_nat (length (childTraces built))) x]) as acc0.
  induction IH as [|c cs Hc _ IHcs]; intros acc0; cbn [fold_left map concat].
  - by rewrite app_nil_r.
  - cbv zeta. unfold AddTrace at 2. cbn [Actions]. rewrite Hc, IHcs. f_equal.
    rewrite (flatten_unfold gas c), adjustChild_render.
    by rewrite <- !app_assoc.
Qed.

(** C8. The post-processing pass of the tree strategy, started on the last
    element of the list, sets that element's child count and appends, for
    each of its children in order, the child rendered as the specification
    says (gas [parent.gas - gasUsed] when positive, else [gasUsed], for a
    child with a result; gas zeroed, [from] cleared and result dropped for
    a selfdestruct), followed by the flattening of the child's own
    children: the preorder flat list. *)
Theorem processTrace_flatten acc root :
  processTrace (mkCallTrace (acc ++ [root]))
  = Some (mkCallTrace
            (acc ++ set_Subtraces (N.of_nat (length (childTraces root))) root
               :: concat (map (flatten (Gas (Action root))) (childTraces root)))).
Proof.
  unfold processTrace, lastTrace. simpl. rewrite last_snoc. simpl.
  by rewrite processTraceOf_flatten.
Qed.

(** The pass on the sample tree: gas 70 for the call that used 30, a
    zeroed selfdestruct below it, and gas 200 for the call that used more
    than the root has. *)
Lemma processTrace_sample :
  exists out, processLastTrace (mkCallTrace [sample_root]) = Some out
    /\ map (fun t => (TraceType t, Gas (Action t), Subtraces t, From (Action t),
                      bool_decide (Result t = None))) (Actions out)
       = [(CALL, 100, 2, Some zero_Address, false);
          (CALL, 70, 1, Some zero_Address, false);
          (SELFDESTRUCT, 0, 0, None, true);
          (CALL, 200, 0, Some zero_Address, false)].
Proof. eexists. split; [vm_compute; reflexivity|]. vm_compute. reflexivity. Qed.

End V1Facts.

(** ** RLP *)
Module RlpFacts.
Import rlp.

Lemma to_N_byte_of_N n : Byte.to_N (byte_of_N n) = n mod 256.
Proof.
  unfold byte_of_N. destruct (Byte.of_N (n mod 256)) as [b|] eqn:Hb; simpl.
  - by apply Byte.to_of_N.
  - apply Byte.of_N_None_iff in Hb. pose proof (N.mod_lt n 256). lia.
Qed.

Lemma to_N_byte_of_N_small n : n < 256 -> Byte.to_N (byte_of_N n) = n.
Proof. intros Hn. rewrite to_N_byte_of_N. by apply N.mod_small. Qed.

Lemma to_N_lt b : Byte.to_N b < 256.
Proof. pose proof (Byte.to_N_bounded b). lia. Qed.

(** The value of base-256 digits, least significant first. *)
Lemma be_value_rev l :
  be_value (rev l) = fold_right (fun x acc => acc * 256 + Byte.to_N x) 0 l.
Proof. unfold be_value. by rewrite <- fold_left_rev_right, rev_involutive. Qed.

Lemma le_bytes_value fuel : forall n,
  n < 2 ^ N.of_nat fuel ->
  fold_right (fun x acc => acc * 256 + Byte.to_N x) 0 (le_bytes fuel n) = n.
Proof.
  induction fuel as [|f IH]; intros n Hn; simpl.
  - simpl in Hn. lia.
  - case_decide as Hz; [by subst|]. simpl.
    rewrite IH, to_N_byte_of_N.
    + pose proof (N.div_mod n 256). lia.
    + rewrite Nat2N.inj_succ, N.pow_succ_r' in Hn.
      apply N.Div0.div_lt_upper_bound.
      assert (2 ^ N.of_nat f > 0) by (apply N.lt_gt, N.neq_0_lt_0, N.pow_nonzero; lia).
      nia.
Qed.

Lemma size_bound n : n < 2 ^ N.of_nat (N.to_nat (N.size n)).
Proof. rewrite N2Nat.id. apply N.size_gt. Qed.

Lemma be_value_be_bytes n : be_value (be_bytes n) = n.
Proof.
  unfold be_bytes. rewrite be_value_rev. apply le_bytes_value, size_bound.
Qed.

Lemma le_bytes_last fuel : forall n b,
  n < 2 ^ N.of_nat fuel -> last (le_bytes fuel n) = Some b -> Byte.to_N b <> 0.
Proof.
  induction fuel as [|f IH]; intros n b Hn; simpl; [done|].
  case_decide as Hz; [done|].
  assert (Hdiv : n / 256 < 2 ^ N.of_nat f).
  { rewrite Nat2N.inj_succ, N.pow_succ_r' in Hn.
    apply N.Div0.div_lt_upper_bound.
    assert (2 ^ N.of_nat f > 0) by (apply N.lt_gt, N.neq_0_lt_0, N.pow_nonzero; lia).
    nia. }
  destruct (le_bytes f (n / 256)) as [|x l] eqn:Hl.
  - simpl. intros [= <-]. rewrite to_N_byte_of_N.
    assert (n / 256 = 0) as Hq.
    { destruct f; simpl in Hl.
      - change (2 ^ N.of_nat 0) with 1 in Hdiv. by apply N.lt_1_r.
      - by case_decide. }
    pose proof (N.div_mod n 256). lia.
  - intros Hlast. apply (IH (n / 256) b Hdiv). rewrite Hl. exact Hlast.
Qed.

Lemma be_bytes_head n x l : be_bytes n = x :: l -> Byte.to_N x <> 0.
Proof.
  unfold be_bytes. intros H.
  apply (le_bytes_last (N.to_nat (N.size n)) n x (size_bound n)).
  rewrite <- (rev_involutive (le_bytes _ n)), H. simpl.
  by rewrite last_snoc.
Qed.

Lemma le_bytes_length fuel : forall n k,
  n < 256 ^ N.of_nat k -> (length (le_bytes fuel n) <= k)%nat.
Proof.
  induction fuel as [|f IH]; intros n k Hn; simpl; [lia|].
  case_decide as Hz; [simpl; lia|]. simpl.
  destruct k as [|k]; [simpl in Hn; lia|].
  apply le_n_S, IH.
  rewrite Nat2N.inj_succ, N.pow_succ_r' in Hn.
  apply N.Div0.div_lt_upper_bound. lia.
Qed.

Lemma be_bytes_length n k : n < 256 ^ N.of_nat k -> (length (be_bytes n) <= k)%nat.
Proof. intros Hn. unfold be_bytes. rewrite length_rev. by apply le_bytes_length. Qed.

Lemma be_bytes_0 : be_bytes 0 = [].
Proof. done. Qed.

Lemma be_bytes_nonempty n : n <> 0 -> be_bytes n <> [].
Proof.
  intros Hn Hnil. pose proof (be_value_be_bytes n) as Hv. rewrite Hnil in Hv.
  simpl in Hv. unfold be_value in Hv. simpl in Hv. lia.
Qed.

Lemma be_bytes_small n : 0 < n -> n < 256 -> be_bytes n = [byte_of_N n].
Proof.
  intros H0 Hn. pose proof (be_bytes_length n 1 ltac:(simpl; lia)) as Hlen.
  pose proof (be_bytes_nonempty n ltac:(lia)) as Hne.
  pose proof (be_value_be_bytes n) as Hv.
  destruct (be_bytes n) as [|x [|y l]]; [done| |simpl in Hlen; lia].
  unfold be_value in Hv. simpl in Hv. rewrite N.add_0_l in Hv. f_equal. subst n.
  unfold byte_of_N. rewrite N.mod_small by apply to_N_lt.
  by rewrite Byte.of_to_N.
Qed.


Lemma take_payload_app k p rest :
  take_payload k (length p) (p ++ rest) = Some (k, p, rest).
Proof.
  unfold take_payload. rewrite decide_False by (rewrite length_app; lia).
  by rewrite take_app_length, drop_app_length.
Qed.

Lemma be_bytes_size_length n :
  56 <= n -> n < 2 ^ 64 -> (1 <= length (be_bytes n) <= 8)%nat.
Proof.
  intros Hlo Hhi. split.
  - pose proof (be_bytes_nonempty n ltac:(lia)). destruct (be_bytes n); [done|simpl; lia].
  - apply be_bytes_length. simpl. lia.
Qed.

Lemma read_size_be n rest :
  56 <= n -> n < 2 ^ 64 ->
  read_size (N.of_nat (length (be_bytes n))) (be_bytes n ++ rest) = Some (N.to_nat n, rest).
Proof.
  intros Hlo Hhi. unfold read_size. rewrite Nat2N.id.
  rewrite decide_False by (rewrite length_app; lia).
  rewrite take_app_length, drop_app_length.
  destruct (be_bytes n) as [|x l] eqn:Hb.
  - by apply be_bytes_nonempty in Hb; [|lia].
  - rewrite decide_False by (by eapply be_bytes_head).
    rewrite <- Hb, be_value_be_bytes. by rewrite decide_False by lia.
Qed.

(** Reading back a header written by the encoder. *)
Lemma read_kind_header offset k p rest :
  (offset = 0x80 /\ k = String_) \/ (offset = 0xc0 /\ k = List_) ->
  N.of_nat (length p) < 2 ^ 64 ->
  read_kind (encode_header offset (length p) ++ p ++ rest) = Some (k, p, rest).
Proof.
  intros Hk Hsize. unfold encode_header.
  destruct (decide (N.of_nat (length p) < 56)) as [Hs|Hl].
  - simpl. unfold read_kind.
    rewrite to_N_byte_of_N_small by (destruct Hk as [[-> _]|[-> _]]; lia).
    destruct Hk as [[-> ->]|[-> ->]].
    + rewrite decide_False by lia. rewrite decide_True by lia.
      replace (N.to_nat (128 + N.of_nat (length p) - 128)) with (length p) by lia.
      apply take_payload_app.
    + do 3 rewrite decide_False by lia. rewrite decide_True by lia.
      replace (N.to_nat (192 + N.of_nat (length p) - 192)) with (length p) by lia.
      apply take_payload_app.
  - pose proof (be_bytes_size_length (N.of_nat (length p)) ltac:(lia) Hsize) as Hlen.
    simpl. unfold read_kind.
    rewrite to_N_byte_of_N_small by (destruct Hk as [[-> _]|[-> _]]; lia).
    destruct Hk as [[-> ->]|[-> ->]].
    + do 2 rewrite decide_False by lia. rewrite decide_True by lia.
      replace (128 + 55 + N.of_nat (length (be_bytes (N.of_nat (length p)))) - 183)
        with (N.of_nat (length (be_bytes (N.of_nat (length p))))) by lia.
      rewrite read_size_be by lia. simpl. rewrite Nat2N.id. apply take_payload_app.
    + do 4 rewrite decide_False by lia.
      replace (192 + 55 + N.of_nat (length (be_bytes (N.of_nat (length p)))) - 247)
        with (N.of_nat (length (be_bytes (N.of_nat (length p))))) by lia.
      rewrite read_size_be by lia. simpl. rewrite Nat2N.id. apply take_payload_app.
Qed.

Lemma item_tree_ind (P : item -> Prop) :
  (forall b, P (Str b)) -> (forall xs, Forall P xs -> P (List xs)) -> forall i, P i.
Proof.
  intros HS HL. fix IH 1. intros [b|xs]; [apply HS|apply HL].
  induction xs as [|x xs IHxs]; constructor; [apply IH|exact IHxs].
Qed.

Lemma encode_header_nonempty offset size : encode_header offset size <> [].
Proof. unfold encode_header. by case_decide. Qed.

Lemma encode_nonempty i : encode i <> [].
Proof.
  destruct i as [b|xs]; simpl.
  - destruct b as [|x [|y l]]; try case_decide; try done;
      by destruct (encode_header 128 _) eqn:He; [apply encode_header_nonempty in He|].
  - by destruct (encode_header 192 _) eqn:He; [apply encode_header_nonempty in He|].
Qed.

Lemma decode_item_Str fuel b rest :
  N.of_nat (length b) < 2 ^ 64 ->
  decode_item (S fuel) (encode (Str b) ++ rest) = Some (Str b, rest).
Proof.
  intros Hsize. cbn [decode_item encode].
  assert (Hgen : canonical_string b = true ->
            (read_kind ((encode_header 128 (length b) ++ b) ++ rest)
             ≫= λ '(k, payload, rest0),
                  match k with
                  | Byte_ => Some (Str payload, rest0)
                  | String_ => if canonical_string payload
                               then Some (Str payload, rest0) else None
                  | List_ => decode_items fuel payload ≫= λ xs, Some (List xs, rest0)
                  end) = Some (Str b, rest)).
  { intros Hc. rewrite <- app_assoc, (read_kind_header 128 String_) by auto.
    simpl. by rewrite Hc. }
  destruct b as [|x [|y l]]; [by apply Hgen| |by apply Hgen].
  case_decide as Hx.
  - simpl. by rewrite decide_True by done.
  - apply Hgen. simpl. apply bool_decide_eq_true. lia.
Qed.

Lemma decode_roundtrip i :
  sizes_ok i = true ->
  forall fuel rest, (fuel_needed i <= fuel)%nat ->
    decode_item fuel (encode i ++ rest) = Some (i, rest).
Proof.
  induction i as [b|xs IH] using item_tree_ind; intros Hok fuel rest Hfuel.
  - destruct fuel as [|fuel]; [simpl in Hfuel; lia|].
    apply decode_item_Str. simpl in Hok. by apply bool_decide_eq_true in Hok.
  - destruct fuel as [|fuel]; [simpl in Hfuel; lia|].
    simpl in Hok. apply andb_prop in Hok as [Hsize Hall].
    apply bool_decide_eq_true in Hsize.
    cbn [decode_item encode]. rewrite <- app_assoc.
    rewrite (read_kind_header 192 List_) by auto. simpl.
    assert (Hitems : forall fuel', (fuel_needed_items xs <= fuel')%nat ->
              decode_items fuel' (concat (map encode xs)) = Some xs).
    { clear Hsize Hfuel. induction IH as [|x xs Hx _ IHxs]; intros fuel' Hf.
      - destruct fuel'; [simpl in Hf; lia|done].
      - destruct fuel' as [|fuel']; [simpl in Hf; lia|].
        simpl in Hall. apply andb_prop in Hall as [Hokx Hall].
        simpl in Hf. cbn [decode_items map concat].
        destruct (encode x ++ concat (map encode xs)) as [|y l] eqn:Henc.
        { apply app_eq_nil in Henc as [Henc _]. by apply encode_nonempty in Henc. }
        rewrite <- Henc. rewrite (Hx Hokx) by (unfold fuel_needed_items in Hf; lia).
        simpl. rewrite (IHxs Hall) by (unfold fuel_needed_items in *; lia). done. }
    rewrite Hitems; [done|]. simpl in Hfuel. unfold fuel_needed_items. lia.
Qed.

Lemma fuel_needed_bound i : (fuel_needed i <= 2 * length (encode i))%nat.
Proof.
  induction i as [b|xs IH] using item_tree_ind.
  - pose proof (encode_nonempty (Str b)) as Hne.
    destruct (encode (Str b)); [done|]. simpl. lia.
  - cbn [fuel_needed encode]. rewrite length_app.
    pose proof (encode_header_nonempty 192 (length (concat (map encode xs)))) as Hne.
    destruct (encode_header 192 _) as [|h hs]; [done|]. simpl length.
    assert (fold_right (fun x acc => S (Nat.max (fuel_needed x) acc)) 1%nat xs
            <= 2 * length (concat (map encode xs)) + 1)%nat; [|lia].
    clear Hne. induction IH as [|x xs Hx _ IHxs]; simpl; [lia|].
    rewrite length_app. pose proof (encode_nonempty x) as Hne.
    destruct (encode x); [done|]. simpl in *. lia.
Qed.

(** Decoding the encoding of an item gives the item back. *)
Lemma decode_encode i : sizes_ok i = true -> decode (encode i) = Some i.
Proof.
  intros Hok. unfold decode.
  rewrite <- (app_nil_r (encode i)) at 2.
  rewrite (decode_roundtrip i Hok) by apply fuel_needed_bound. done.
Qed.

End RlpFacts.

(** ** The codec *)
Module CodecFacts.
Import rlp RlpFacts Codec.

Ltac split_ok :=
  repeat match goal with
         | H : _ && _ = true |- _ => apply andb_prop in H as [? ?]
         end;
  repeat match goal with
         | H : bool_decide _ = true |- _ => apply bool_decide_eq_true in H
         end.

Lemma dec_uint_enc size n :
  n < 256 ^ N.of_nat size -> dec_uint size (enc_uint n) = Some n.
Proof.
  intros Hn. unfold dec_uint, enc_uint.
  pose proof (be_bytes_length n size Hn) as Hlen.
  rewrite decide_False by lia.
  pose proof (be_value_be_bytes n) as Hv.
  destruct (be_bytes n) as [|x l] eqn:Hb.
  - by rewrite <- Hv.
  - rewrite decide_False by (by eapply be_bytes_head). by rewrite Hv.
Qed.

Lemma dec_bigval_enc v :
  (0 <= v)%Z -> dec_bigval (Str (be_bytes (Z.to_N v))) = Some v.
Proof.
  intros Hv. unfold dec_bigval.
  pose proof (be_value_be_bytes (Z.to_N v)) as Hval.
  destruct (be_bytes (Z.to_N v)) as [|x l] eqn:Hb.
  - unfold be_value in Hval. simpl in Hval. f_equal. lia.
  - rewrite decide_False by (by eapply be_bytes_head). rewrite Hval. f_equal. lia.
Qed.

Lemma enc_big_Some z : big_ok z = true -> exists i, enc_big z = Some i.
Proof.
  destruct z as [v|]; simpl; [|by eexists].
  intros Hv%bool_decide_eq_true. rewrite decide_False by lia. by eexists.
Qed.

Lemma dec_big_enc z i :
  enc_big z = Some i -> dec_big i = Some (Some (default 0%Z z)).
Proof.
  destruct z as [v|]; simpl; [|by intros [= <-]].
  case_decide as Hv; [done|]. intros [= <-].
  unfold dec_big. by rewrite dec_bigval_enc by lia.
Qed.

Lemma dec_big_nil_enc z i :
  enc_big z = Some i -> dec_big_nil i = Some (normalize_big z).
Proof. intros H. unfold dec_big_nil, normalize_big. by apply dec_big_enc. Qed.

Lemma dec_array_enc n a : length a = n -> dec_array n (enc_array a) = Some a.
Proof. intros Hn. unfold dec_array, enc_array. by rewrite decide_True. Qed.

Lemma dec_array_nil_enc a :
  address_ok a = true -> dec_array_nil 20 (enc_array_nil a) = Some a.
Proof.
  destruct a as [b|]; simpl; [|done].
  intros Hb%bool_decide_eq_true. destruct b as [|x l]; [done|].
  by rewrite decide_True.
Qed.

#[local] Arguments dec_uint : simpl never.
#[local] Arguments enc_uint : simpl never.
#[local] Arguments enc_big : simpl never.
#[local] Arguments dec_big : simpl never.
#[local] Arguments dec_big_nil : simpl never.
#[local] Arguments dec_array : simpl never.
#[local] Arguments enc_array : simpl never.
#[local] Arguments dec_array_nil : simpl never.
#[local] Arguments enc_array_nil : simpl never.
#[local] Arguments dec_uint32s : simpl never.
#[local] Arguments enc_uint32s : simpl never.
#[local] Arguments dec_Result : simpl never.
#[local] Arguments enc_Result : simpl never.
#[local] Arguments dec_InternalAction : simpl never.
#[local] Arguments dec_InternalActionTrace : simpl never.

Lemma mapM_dec_uint32 l :
  forallb (fun n => bool_decide (n < 2 ^ 32)) l = true ->
  mapM (dec_uint 4) (map enc_uint l) = Some l.
Proof.
  induction l as [|n l IH]; simpl; [done|].
  intros [Hn Hl]%andb_prop. apply bool_decide_eq_true in Hn.
  rewrite dec_uint_enc by (simpl; lia). simpl. by rewrite IH.
Qed.

Lemma dec_uint32s_enc l :
  forallb (fun n => bool_decide (n < 2 ^ 32)) (default [] l) = true ->
  dec_uint32s (enc_uint32s l) = Some (Some (default [] l)).
Proof. intros Hl. unfold dec_uint32s, enc_uint32s. by rewrite mapM_dec_uint32. Qed.

Lemma dec_Result_enc r : result_ok r = true -> dec_Result (enc_Result r) = Some r.
Proof.
  destruct r as [[gasUsed output code address]|]; [|done].
  unfold result_ok, dec_Result, enc_Result. intros Hok. split_ok.
  cbn [GasUsed Output Code ResultAddress dec_bytes enc_bytes] in *.
  rewrite dec_uint_enc by (simpl; lia).
  by rewrite dec_array_nil_enc.
Qed.

Lemma enc_InternalAction_Some a :
  action_ok a = true -> exists i, enc_InternalAction a = Some i.
Proof.
  unfold action_ok. intros Hok. split_ok. unfold enc_InternalAction.
  destruct (enc_big_Some (Value a)) as [v ->]; [done|].
  destruct (enc_big_Some (Balance a)) as [b ->]; [done|]. by eexists.
Qed.

Lemma dec_InternalAction_enc a i :
  action_ok a = true -> enc_InternalAction a = Some i ->
  dec_InternalAction i = Some (normalize_action a).
Proof.
  unfold action_ok. intros Hok Henc. split_ok. unfold enc_InternalAction in Henc.
  apply bind_Some in Henc as (v & Hv & Henc).
  apply bind_Some in Henc as (b & Hb & Henc). injection Henc as <-.
  unfold dec_InternalAction. cbn [dec_bytes enc_bytes mbind option_bind].
  rewrite !dec_uint_enc by (simpl; lia).
  rewrite !dec_array_nil_enc by done.
  by rewrite (dec_big_nil_enc _ _ Hv), (dec_big_nil_enc _ _ Hb).
Qed.

Lemma enc_InternalActionTrace_Some t :
  trace_ok t = true -> exists i, enc_InternalActionTrace t = Some i.
Proof.
  unfold trace_ok. intros Hok. split_ok. unfold enc_InternalActionTrace.
  destruct (enc_InternalAction_Some (Action t)) as [a ->]; [done|]. by eexists.
Qed.

Lemma dec_InternalActionTrace_enc t i :
  trace_ok t = true -> enc_InternalActionTrace t = Some i ->
  dec_InternalActionTrace i = Some (normalize_trace t).
Proof.
  unfold trace_ok. intros Hok Henc. split_ok. unfold enc_InternalActionTrace in Henc.
  apply bind_Some in Henc as (a & Ha & Henc). injection Henc as <-.
  unfold dec_InternalActionTrace.
  rewrite (dec_InternalAction_enc _ _ ltac:(done) Ha).
  rewrite dec_Result_enc by done.
  unfold enc_string, dec_string. rewrite string_of_list_byte_of_string.
  rewrite dec_uint32s_enc by done.
  by rewrite dec_uint_enc by (simpl; lia).
Qed.

Lemma mapM_enc_Some ts :
  forallb trace_ok ts = true -> exists items, mapM enc_InternalActionTrace ts = Some items.
Proof.
  induction ts as [|t ts IH]; simpl; [by eexists|].
  intros [Ht Hts]%andb_prop.
  destruct (enc_InternalActionTrace_Some t Ht) as [i ->].
  destruct (IH Hts) as [items ->]. by eexists.
Qed.

Lemma mapM_dec_enc ts : forall items,
  forallb trace_ok ts = true -> mapM enc_InternalActionTrace ts = Some items ->
  mapM dec_InternalActionTrace items = Some (map normalize_trace ts).
Proof.
  induction ts as [|t ts IH]; intros items Hok Henc; simpl in *.
  - by injection Henc as <-.
  - apply andb_prop in Hok as [Ht Hts].
    apply bind_Some in Henc as (i & Hi & Henc).
    apply bind_Some in Henc as (items' & His & Henc). injection Henc as <-.
    simpl. rewrite (dec_InternalActionTrace_enc _ _ Ht Hi). simpl.
    by rewrite (IH _ Hts His).
Qed.

Lemma enc_InternalActionTraces_Some it :
  fields_ok it = true -> exists i, enc_InternalActionTraces it = Some i.
Proof.
  unfold fields_ok. intros Hok. split_ok. unfold enc_InternalActionTraces.
  destruct (mapM_enc_Some (Traces it)) as [items ->]; [done|].
  destruct (BlockNumber it) as [v|]; [|done]. split_ok. unfold enc_big.
  rewrite decide_False by lia. by eexists.
Qed.

Lemma dec_InternalActionTraces_enc it i :
  fields_ok it = true -> enc_InternalActionTraces it = Some i ->
  dec_InternalActionTraces i = Some (normalize it).
Proof.
  unfold fields_ok. intros Hok Henc. split_ok. unfold enc_InternalActionTraces in Henc.
  apply bind_Some in Henc as (items & His & Henc).
  apply bind_Some in Henc as (bn & Hbn & Henc). injection Henc as <-.
  unfold dec_InternalActionTraces.
  rewrite (mapM_dec_enc _ _ ltac:(done) His).
  rewrite !dec_array_enc by done.
  rewrite (dec_big_enc _ _ Hbn).
  by rewrite dec_uint_enc by (simpl; lia).
Qed.

(** The storage form of a well-formed trace set decodes to its normal
    form. *)
Lemma DecodeBytes_EncodeToBytes it :
  well_formed it = true ->
  exists raw, EncodeToBytes it = Some raw /\ raw <> []
              /\ DecodeBytes raw = Some (normalize it).
Proof.
  unfold well_formed. intros [Hf Hs]%andb_prop.
  destruct (enc_InternalActionTraces_Some it Hf) as [i Hi]. rewrite Hi in Hs.
  exists (encode i). unfold EncodeToBytes, DecodeBytes. rewrite Hi. simpl. rewrite Hs.
  split; [done|]. split; [apply encode_nonempty|].
  rewrite (decode_encode i Hs). simpl. by apply dec_InternalActionTraces_enc.
Qed.

(** The API form does not see the difference. *)
Lemma toRpcTrace_normalize it t :
  BlockNumber it <> None ->
  toRpcTrace (normalize it) (normalize_trace t) = toRpcTrace it t.
Proof.
  intros Hbn. destruct (BlockNumber it) as [v|] eqn:Hv; [|done].
  destruct t as [[ct from to value gas init input address refund balance] res err ta sub].
  unfold toRpcTrace. simpl. rewrite Hv. simpl.
  destruct ta as [l|]; simpl; repeat case_decide; done.
Qed.

Lemma ToRpcTraces_normalize it :
  BlockNumber it <> None -> ToRpcTraces (normalize it) = ToRpcTraces it.
Proof.
  intros Hbn. unfold ToRpcTraces.
  change (Traces (normalize it)) with (map normalize_trace (Traces it)).
  induction (Traces it) as [|t ts IH]; simpl; [done|].
  by rewrite toRpcTrace_normalize, IH.
Qed.

(** The API form is defined when every create or call node has a result
    or an error. *)
Lemma ToRpcTraces_total it :
  Forall (fun t => CallType (Action t) = CallTypeSuicide \/ Error t <> ""
                   \/ Result t <> None) (Traces it) ->
  is_Some (ToRpcTraces it).
Proof.
  unfold ToRpcTraces. induction 1 as [|t ts Ht _ IH]; simpl; [by eexists|].
  destruct IH as [rs Hrs].
  assert (is_Some (toRpcTrace it t)) as [r Hr].
  { unfold toRpcTrace, toRpcTraceCreate, toRpcTraceCall.
    destruct (decide (CallType (Action t) = CallTypeSuicide)) as [Hs|Hs].
    - rewrite Hs.
      rewrite (decide_False (P := CallTypeSuicide = CallTypeCreate)) by done.
      by eexists.
    - destruct Ht as [?|Ht]; [done|].
      destruct (decide (Error t <> "")) as [He|He].
      + repeat case_decide; by eexists.
      + destruct Ht as [?|Hr]; [done|]. destruct (Result t); [|done].
        repeat case_decide; by eexists. }
  rewrite Hr, Hrs. by eexists.
Qed.

(** C7. For every well-formed trace set, one with zero traces included,
    the storage encoding succeeds and decodes again, to the normal form of
    the trace set (nil numbers allocated as zero, nil address slices
    allocated empty), and the API form of the decoded trace set equals the
    API form of the original. *)
Theorem codec_round_trip it :
  well_formed it = true ->
  exists raw it',
    EncodeToBytes it = Some raw /\ DecodeBytes raw = Some it'
    /\ it' = normalize it
    /\ ToRpcTraces it' = ToRpcTraces it.
Proof.
  intros Hwf. destruct (DecodeBytes_EncodeToBytes it Hwf) as (raw & He & _ & Hd).
  exists raw, (normalize it). split; [done|]. split; [done|]. split; [done|].
  apply ToRpcTraces_normalize.
  unfold well_formed, fields_ok in Hwf. split_ok. by destruct (BlockNumber it).
Qed.

(** The theorem at the trace set without traces, and at one with a call
    that has a zero value and a nil address slice and a failed selfdestruct
    that has a nil value. *)
Lemma codec_round_trip_witness :
  (exists raw it',
     EncodeToBytes empty_traces = Some raw /\ DecodeBytes raw = Some it'
     /\ ToRpcTraces it' = ToRpcTraces empty_traces)
  /\ (exists raw it',
        EncodeToBytes sample_traces = Some raw /\ DecodeBytes raw = Some it'
        /\ (Value ∘ Action) <$> Traces it' = [Some 0%Z; Some 0%Z]
        /\ ToRpcTraces it' = ToRpcTraces sample_traces).
Proof.
  split.
  - destruct (codec_round_trip empty_traces ltac:(vm_compute; reflexivity))
      as (raw & it' & He & Hd & _ & Hr).
    by exists raw, it'.
  - destruct (codec_round_trip sample_traces ltac:(vm_compute; reflexivity))
      as (raw & it' & He & Hd & -> & Hr).
    exists raw, (normalize sample_traces). split; [exact He|]. split; [exact Hd|].
    split; [reflexivity|exact Hr].
Defined.

(** The trace set of the repository's [TestCodec] is in normal form: what
    is decoded is the trace set that was encoded, field for field, which
    is what the test compares. *)
Lemma test_codec_round_trip :
  exists raw,
    EncodeToBytes test_codec_input = Some raw
    /\ DecodeBytes raw = Some test_codec_input.
Proof. eexists. split; vm_compute; reflexivity. Qed.

(** The round trip on a trace set whose decoded form differs from it. *)
Lemma codec_round_trip_sample :
  exists raw it',
    EncodeToBytes sample_traces = Some raw /\ DecodeBytes raw = Some it'
    /\ it' <> sample_traces
    /\ ToRpcTraces it' = ToRpcTraces sample_traces.
Proof.
  eexists _, _. split; [vm_compute; reflexivity|]. split; [vm_compute; reflexivity|].
  split; [discriminate|]. vm_compute. reflexivity.
Qed.

(** Outside the well-formed trace sets: a nil block number is stored as
    zero and comes back allocated, which the API form shows. *)
Lemma nil_block_number_comes_back_zero :
  exists raw it' r r',
    EncodeToBytes sample_nil_number = Some raw /\ DecodeBytes raw = Some it'
    /\ BlockNumber it' = Some 0%Z
    /\ ToRpcTraces sample_nil_number = Some [r] /\ ToRpcTraces it' = Some [r']
    /\ Rpc.BlockNumber r = None /\ Rpc.BlockNumber r' = Some 0%Z.
Proof.
  eexists _, _, _, _. split; [vm_compute; reflexivity|].
  split; [vm_compute; reflexivity|]. split; [reflexivity|].
  split; [vm_compute; reflexivity|]. split; [vm_compute; reflexivity|].
  split; reflexivity.
Qed.

(** C9. Reading a transaction's trace: an error of the store is passed
    on; an empty payload is the "not found" error and nothing is decoded;
    a non-empty payload that does not decode is the decode error; a
    non-empty payload that decodes yields the API form of the decoded trace
    set.  A stored trace set is never mistaken for a missing one: the
    storage form of a well-formed trace set is not empty, and reading it
    back yields its API form, also when it holds zero traces. *)
Theorem read_outcomes store txHash raw err :
  ReadTxTrace store txHash = (raw, err) ->
  (forall e, err = Some e -> ReadRpcTxTrace store txHash = Some (inr (StoreError e)))
  /\ (err = None -> raw = [] ->
      ReadRpcTxTrace store txHash = Some (inr (NotFound txHash)))
  /\ (err = None -> raw <> [] -> DecodeBytes raw = None ->
      ReadRpcTxTrace store txHash = Some (inr DecodeFailed))
  /\ (forall interTxs, err = None -> raw <> [] -> DecodeBytes raw = Some interTxs ->
      ReadRpcTxTrace store txHash = (ts ← ToRpcTraces interTxs; Some (inl ts)))
  /\ (forall it, err = None -> well_formed it = true -> EncodeToBytes it = Some raw ->
      raw <> []
      /\ ReadRpcTxTrace store txHash = (ts ← ToRpcTraces it; Some (inl ts))).
Proof.
  intros Hread. unfold ReadRpcTxTrace. rewrite Hread. split_and!.
  - by intros e ->.
  - intros -> ->. done.
  - intros -> Hne Hd. by rewrite decide_False, Hd.
  - intros interTxs -> Hne Hd. by rewrite decide_False, Hd.
  - intros it -> Hwf He.
    destruct (DecodeBytes_EncodeToBytes it Hwf) as (raw' & He' & Hne & Hd).
    assert (raw' = raw) as -> by congruence.
    split; [done|]. rewrite decide_False, Hd by done.
    rewrite ToRpcTraces_normalize; [done|].
    unfold well_formed, fields_ok in Hwf. split_ok. by destruct (BlockNumber it).
Qed.

Lemma read_outcomes_witness :
  ReadRpcTxTrace (const_store []) zero_Hash = Some (inr (NotFound zero_Hash))
  /\ exists raw, EncodeToBytes empty_traces = Some raw
       /\ ReadRpcTxTrace (const_store raw) zero_Hash = Some (inl []).
Proof.
  split.
  - exact (proj1 (proj2 (read_outcomes (const_store []) zero_Hash [] None eq_refl))
             eq_refl eq_refl).
  - eexists. split; [vm_compute; reflexivity|].
    refine (proj2 (proj2 (proj2 (proj2 (proj2
              (read_outcomes (const_store _) zero_Hash _ None eq_refl))))
              empty_traces eq_refl _ _)).
    + vm_compute. reflexivity.
    + vm_compute. reflexivity.
Defined.

(** C10. The API form of a selfdestruct trace: type "suicide", the
    address, the refund address and the balance of the internal trace
    (zero for a nil balance), no value, and neither error nor result,
    whatever the error and result of the internal trace are. *)
Theorem suicide_api_form it interTrace :
  CallType (Action interTrace) = CallTypeSuicide ->
  exists r, toRpcTrace it interTrace = Some r
    /\ Rpc.TraceType r = "suicide"
    /\ Rpc.Address (Rpc.Action r) = Address (Action interTrace)
    /\ Rpc.RefundAddress (Rpc.Action r) = RefundAddress (Action interTrace)
    /\ Rpc.Balance (Rpc.Action r) = Some (default 0%Z (Balance (Action interTrace)))
    /\ Rpc.Value (Rpc.Action r) = None
    /\ Rpc.Error r = "" /\ Rpc.Result r = None.
Proof.
  intros Hct. unfold toRpcTrace. rewrite Hct.
  rewrite decide_False by done. rewrite decide_True by done.
  eexists. split; [done|]. by case_decide.
Qed.

Lemma suicide_api_form_witness :
  exists r, toRpcTrace sample_traces failed_suicide = Some r
    /\ Error failed_suicide = "out of gas"
    /\ Rpc.Error r = "" /\ Rpc.Result r = None.
Proof.
  destruct (suicide_api_form sample_traces failed_suicide eq_refl)
    as (r & Hr & _ & _ & _ & _ & _ & He & Hres).
  exists r. split; [exact Hr|]. split; [reflexivity|]. split; [exact He|exact Hres].
Defined.

End CodecFacts.

(** ** The API form of stored traces *)
Module CodecShape.
Import rlp RlpFacts Codec CodecFacts.

(** One trace converts exactly when it is a selfdestruct, carries an error
    message or has a result. *)
Lemma toRpcTrace_is_Some it t :
  is_Some (toRpcTrace it t)
  <-> (CallType (Action t) = CallTypeSuicide \/ Error t <> "" \/ Result t <> None).
Proof.
  unfold toRpcTrace, toRpcTraceCreate, toRpcTraceCall. split.
  - intros [r Hr].
    destruct (decide (CallType (Action t) = CallTypeSuicide)) as [?|Hs]; [by left|right].
    destruct (decide (Error t <> "")) as [?|He]; [by left|right].
    destruct (Result t); [done|].
    repeat case_decide; simplify_eq; done.
  - intros H. destruct (decide (CallType (Action t) = CallTypeSuicide)) as [Hs|Hs].
    + rewrite Hs. rewrite (decide_False (P := CallTypeSuicide = CallTypeCreate)) by done.
      by eexists.
    + destruct H as [?|H]; [done|].
      destruct (decide (Error t <> "")) as [He|He].
      * repeat case_decide; by eexists.
      * destruct H as [?|Hr]; [done|]. destruct (Result t); [|done].
        repeat case_decide; by eexists.
Qed.

(** X11. [ToRpcTraces] returns exactly when every create or call trace of
    the set carries an error message or a result; on a create or call trace
    with an empty error and a nil result it dereferences the nil result. *)
Theorem ToRpcTraces_defined it :
  is_Some (ToRpcTraces it)
  <-> Forall (fun t => CallType (Action t) = CallTypeSuicide \/ Error t <> ""
                       \/ Result t <> None) (Traces it).
Proof.
  unfold ToRpcTraces. split.
  - intros [rs Hrs]. apply mapM_Some in Hrs.
    induction Hrs as [|t r ts rs Hr _ IH]; constructor; [|done].
    apply (toRpcTrace_is_Some it). by eexists.
  - intros H. induction H as [|t ts Ht _ IH]; simpl; [by eexists|].
    apply (toRpcTrace_is_Some it) in Ht as [r ->]. destruct IH as [rs ->]. by eexists.
Qed.

Lemma toRpcTrace_fields it t r :
  toRpcTrace it t = Some r ->
  Rpc.BlockHash r = BlockHash it /\ Rpc.BlockNumber r = BlockNumber it
  /\ Rpc.TransactionHash r = TransactionHash it
  /\ Rpc.TransactionPosition r = TransactionPosition it
  /\ Rpc.Subtraces r = Subtraces t
  /\ Rpc.TraceAddress r = Some (default [] (TraceAddress t))
  /\ Rpc.TraceType r
     = (if decide (CallType (Action t) = CallTypeCreate) then "create"
        else if decide (CallType (Action t) = CallTypeSuicide) then "suicide" else "call")
  /\ Rpc.Gas (Rpc.Action r) = Gas (Action t).
Proof.
  unfold toRpcTrace, toRpcTraceCreate, toRpcTraceCall, toRpcTraceSuicide.
  destruct (TraceAddress t) as [a|] eqn:Ha; simpl; intros H;
    repeat case_decide; try done; simplify_eq;
    try (apply bind_Some in H as (res & _ & H)); simplify_eq; done.
Qed.

(** X12. The API list has one trace per stored trace, in the same order;
    each carries the block hash, block number, transaction hash and
    transaction position of the set, the child count and the gas of its
    stored trace, an address that is never nil, and the type "create" for
    call type 0, "suicide" for call type 5 and "call" for every other call
    type, the unassigned ones included. *)
Theorem ToRpcTraces_shape it rs :
  ToRpcTraces it = Some rs ->
  Forall2
    (fun t r =>
       Rpc.BlockHash r = BlockHash it /\ Rpc.BlockNumber r = BlockNumber it
       /\ Rpc.TransactionHash r = TransactionHash it
       /\ Rpc.TransactionPosition r = TransactionPosition it
       /\ Rpc.Subtraces r = Subtraces t
       /\ Rpc.TraceAddress r = Some (default [] (TraceAddress t))
       /\ Rpc.TraceType r
          = (if decide (CallType (Action t) = CallTypeCreate) then "create"
             else if decide (CallType (Action t) = CallTypeSuicide) then "suicide"
             else "call")
       /\ Rpc.Gas (Rpc.Action r) = Gas (Action t))
    (Traces it) rs.
Proof.
  unfold ToRpcTraces. intros H%mapM_Some.
  induction H as [|t r ts rs Hr _ IH]; constructor; [|done].
  by apply toRpcTrace_fields.
Qed.

Lemma ToRpcTraces_shape_witness :
  exists rs, ToRpcTraces sample_traces = Some rs /\ length rs = 2%nat.
Proof.
  eexists. split; [vm_compute; reflexivity|].
  pose proof (ToRpcTraces_shape sample_traces _ eq_refl) as H.
  by apply Forall2_length in H.
Defined.

Lemma toRpcTrace_exclusive it t r :
  toRpcTrace it t = Some r ->
  (Rpc.TraceType r = "suicide" /\ Rpc.Error r = "" /\ Rpc.Result r = None)
  \/ (Rpc.TraceType r <> "suicide"
      /\ ((Rpc.Error r <> "" /\ Rpc.Error r = Error t /\ Rpc.Result r = None)
          \/ (Rpc.Error r = "" /\ Error t = "" /\ Rpc.Result r <> None
              /\ Result t <> None))).
Proof.
  unfold toRpcTrace, toRpcTraceCreate, toRpcTraceCall, toRpcTraceSuicide.
  destruct (TraceAddress t) as [a|] eqn:Ha; simpl; intros H.
  all: destruct (decide (CallType (Action t) = CallTypeCreate));
    [|destruct (decide (CallType (Action t) = CallTypeSuicide))].
  all: try (injection H as <-; left; done).
  all: right; destruct (decide (Error t <> "")) as [He|He];
    [injection H as <-; simpl; split; [done|left; done]|].
  all: apply bind_Some in H as (res & Hres & H); injection H as <-; simpl.
  all: split; [done|right]; split_and!; try done.
  all: try (destruct (decide (Error t = "")); [done|by destruct He]).
  all: by rewrite Hres.
Qed.

(** X13. In the API form a create or call trace has exactly one of error
    and result: the stored error when it is non-empty, with no result
    whatever result was stored beside it, and otherwise the stored result;
    a selfdestruct trace has neither. *)
Theorem api_result_error_exclusive it rs :
  ToRpcTraces it = Some rs ->
  Forall2
    (fun t r =>
       (Rpc.TraceType r = "suicide" /\ Rpc.Error r = "" /\ Rpc.Result r = None)
       \/ (Rpc.TraceType r <> "suicide"
           /\ ((Rpc.Error r <> "" /\ Rpc.Error r = Error t /\ Rpc.Result r = None)
               \/ (Rpc.Error r = "" /\ Error t = "" /\ Rpc.Result r <> None
                   /\ Result t <> None))))
    (Traces it) rs.
Proof.
  unfold ToRpcTraces. intros H%mapM_Some.
  induction H as [|t r ts rs Hr _ IH]; constructor; [|done].
  by eapply toRpcTrace_exclusive.
Qed.

Lemma api_result_error_exclusive_witness :
  exists rs, ToRpcTraces sample_traces = Some rs
    /\ Forall (fun r => Rpc.Error r = "" \/ Rpc.Result r = None) rs.
Proof.
  eexists. split; [vm_compute; reflexivity|].
  eapply Forall2_Forall_r; [apply (api_result_error_exclusive sample_traces _ eq_refl)|].
  apply Forall_forall. intros t _ r Hr. tauto.
Defined.

End CodecShape.

(** ** The storage form and the store *)
Module StorageFacts.
Import rlp RlpFacts Codec CodecFacts MemoryStore LegacyStore.

Lemma enc_big_normalize z : enc_big (normalize_big z) = enc_big z.
Proof. by destruct z as [[| |]|]. Qed.

Lemma enc_InternalAction_normalize a :
  enc_InternalAction (normalize_action a) = enc_InternalAction a.
Proof.
  unfold enc_InternalAction. cbn [normalize_action Value Balance CallType From To Gas Init
    Input Address RefundAddress]. by rewrite !enc_big_normalize.
Qed.

Lemma enc_InternalActionTrace_normalize t :
  enc_InternalActionTrace (normalize_trace t) = enc_InternalActionTrace t.
Proof.
  unfold enc_InternalActionTrace. cbn [normalize_trace Action Result Error TraceAddress
    Subtraces]. rewrite enc_InternalAction_normalize. by destruct (TraceAddress t).
Qed.

Lemma mapM_enc_normalize ts :
  mapM enc_InternalActionTrace (map normalize_trace ts) = mapM enc_InternalActionTrace ts.
Proof.
  induction ts as [|t ts IH]; [done|]. cbn [map mapM].
  by rewrite enc_InternalActionTrace_normalize, IH.
Qed.

(** The storage form does not tell a nil number from zero, nor a nil
    address slice from an empty one. *)
Lemma EncodeToBytes_normalize it : EncodeToBytes (normalize it) = EncodeToBytes it.
Proof.
  unfold EncodeToBytes, enc_InternalActionTraces.
  cbn [normalize Traces BlockHash BlockNumber TransactionHash TransactionPosition].
  rewrite mapM_enc_normalize. by destruct (BlockNumber it) as [v|].
Qed.

Lemma normalize_idemp it : normalize (normalize it) = normalize it.
Proof.
  unfold normalize. cbn [Traces BlockHash BlockNumber TransactionHash TransactionPosition].
  f_equal. rewrite map_map. apply map_ext. intros t. unfold normalize_trace.
  cbn [Action Result Error TraceAddress Subtraces]. by f_equal.
Qed.

(** X14. Encoding a trace set and decoding the bytes returns its normal
    form: a nil [Value], [Balance] or [BlockNumber] comes back as a non-nil
    zero (the [rlp:"nil"] tag of [Value] and [Balance] makes no difference
    to a [*big.Int]), a nil [TraceAddress] comes back empty, and every other
    field is as it was.  A trace set and its normal form have the same
    bytes, and the normal form is what its own round trip returns.  This
    holds whenever the normal form has its fields in range, a trace set with
    a nil block number included. *)
Theorem storage_normal_form it :
  well_formed (normalize it) = true ->
  exists raw,
    EncodeToBytes it = Some raw /\ DecodeBytes raw = Some (normalize it)
    /\ EncodeToBytes (normalize it) = Some raw
    /\ normalize (normalize it) = normalize it.
Proof.
  intros Hwf. destruct (DecodeBytes_EncodeToBytes _ Hwf) as (raw & He & _ & Hd).
  rewrite normalize_idemp in Hd. exists raw.
  rewrite <- EncodeToBytes_normalize. split_and!; try done. apply normalize_idemp.
Qed.

Lemma storage_normal_form_witness :
  exists raw it',
    EncodeToBytes sample_traces = Some raw /\ DecodeBytes raw = Some it'
    /\ (Value ∘ Action) <$> Traces sample_traces = [Some 0%Z; None]
    /\ (Value ∘ Action) <$> Traces it' = [Some 0%Z; Some 0%Z]
    /\ TraceAddress <$> Traces sample_traces = [None; Some [0]]
    /\ TraceAddress <$> Traces it' = [Some []; Some [0]].
Proof.
  destruct (storage_normal_form sample_traces) as (raw & He & Hd & _).
  - vm_compute. reflexivity.
  - exists raw, (normalize sample_traces). split; [exact He|]. split; [exact Hd|].
    repeat split; reflexivity.
Defined.

Lemma ReadTxTrace_insert m h raw :
  ReadTxTrace (<[h := raw]> m) h = (raw, None).
Proof. unfold ReadTxTrace. by rewrite lookup_insert_eq. Qed.

Lemma ReadTxTrace_insert_ne m h h' raw :
  h' <> h -> ReadTxTrace (<[h := raw]> m) h' = ReadTxTrace m h'.
Proof. intros Hne. unfold ReadTxTrace. by rewrite lookup_insert_ne. Qed.

(** X9. Persisting the output of the earlier revision's tracer into the
    in-memory store and reading the transaction back returns what
    [GetRpcTraces] returns for the tracer (the panic of a nil result
    included), provided the output has its fields in range; reading any
    other transaction is not affected. *)
Theorem persist_then_read (ot : Legacy.OeTracer) (m : MemoryStore) :
  well_formed (GetInternalTraces ot) = true ->
  let txHash := TransactionHash (Legacy.outPutTraces ot) in
  exists raw,
    EncodeToBytes (GetInternalTraces ot) = Some raw
    /\ PersistTrace WriteTxTrace (Some m) ot = Some (<[txHash := raw]> m)
    /\ ReadRpcTxTrace (reader (<[txHash := raw]> m)) txHash
       = (ts ← GetRpcTraces ot; Some (inl ts))
    /\ forall h, h <> txHash ->
         ReadRpcTxTrace (reader (<[txHash := raw]> m)) h = ReadRpcTxTrace (reader m) h.
Proof.
  intros Hwf txHash.
  destruct (DecodeBytes_EncodeToBytes _ Hwf) as (raw & He & Hne & Hd).
  exists raw. split; [done|]. split; [|split].
  - unfold PersistTrace. by rewrite He.
  - unfold ReadRpcTxTrace, reader. cbn [Codec.ReadTxTrace].
    rewrite ReadTxTrace_insert, decide_False, Hd by done.
    unfold GetRpcTraces. rewrite ToRpcTraces_normalize; [done|].
    unfold well_formed, fields_ok in Hwf. split_ok.
    by destruct (BlockNumber (GetInternalTraces ot)).
  - intros h Hh. unfold ReadRpcTxTrace, reader. cbn [Codec.ReadTxTrace].
    by rewrite ReadTxTrace_insert_ne.
Qed.

Lemma persist_then_read_witness :
  exists ot raw ts,
    Legacy.run GoSlice.gc_growcap (Legacy.two_calls_open ++ Legacy.two_calls_rest)
      Legacy.legacy_init = Some ot
    /\ EncodeToBytes (GetInternalTraces ot) = Some raw
    /\ GetRpcTraces ot = Some ts /\ length ts = 4%nat
    /\ ReadRpcTxTrace (reader (<[zero_Hash := raw]> ∅)) zero_Hash = Some (inl ts).
Proof.
  let v := eval vm_compute in
    (Legacy.run GoSlice.gc_growcap (Legacy.two_calls_open ++ Legacy.two_calls_rest)
       Legacy.legacy_init) in
  match v with
  | Some ?ot =>
      destruct (persist_then_read ot ∅ ltac:(vm_compute; reflexivity))
        as (raw & He & _ & Hr & _);
      exists ot, raw
  end.
  eexists. split; [vm_compute; reflexivity|]. split; [exact He|].
  split; [vm_compute; reflexivity|]. split; [reflexivity|]. exact Hr.
Defined.

(** X10. [PersistTrace] writes at most the entry of the tracer's
    transaction hash.  Without a store nothing happens; when the encoder
    refuses the output (a negative number) the store is left as it was, so
    a transaction that was never persisted is still reported by the store's
    own "tx not found" error. *)
Theorem PersistTrace_frame (ot : Legacy.OeTracer) (m : MemoryStore) :
  PersistTrace WriteTxTrace None ot = None
  /\ exists m', PersistTrace WriteTxTrace (Some m) ot = Some m'
       /\ (forall h, h <> TransactionHash (Legacy.outPutTraces ot) -> m' !! h = m !! h)
       /\ (EncodeToBytes (GetInternalTraces ot) = None -> m' = m)
       /\ (forall h, m' !! h = None ->
             ReadRpcTxTrace (reader m') h = Some (inr (StoreError "tx not found"))).
Proof.
  split; [done|]. unfold PersistTrace.
  destruct (EncodeToBytes (GetInternalTraces ot)) as [raw|] eqn:He.
  - eexists. split; [done|]. cbn [WriteTxTrace fst]. split_and!.
    + intros h Hh. by rewrite lookup_insert_ne.
    + done.
    + intros h Hh. unfold ReadRpcTxTrace, reader, ReadTxTrace. cbn [Codec.ReadTxTrace].
      by rewrite Hh.
  - exists m. split; [done|]. split_and!; try done.
    intros h Hh. unfold ReadRpcTxTrace, reader, ReadTxTrace. cbn [Codec.ReadTxTrace].
    by rewrite Hh.
Qed.

End StorageFacts.

(** ** The node list of the streaming tracer is a preorder *)
Module ShapeFacts.
Import GoSlice GoSliceFacts Tracer TracerFacts Shape.

Lemma lex_lt_irrefl a : lex_lt a a = false.
Proof.
  induction a as [|x a IH]; simpl; [done|].
  rewrite bool_decide_eq_false_2 by lia. by rewrite bool_decide_eq_true_2.
Qed.

Lemma lex_lt_asym a : forall b, lex_lt a b = true -> lex_lt b a = false.
Proof.
  induction a as [|x a IH]; intros [|y b]; simpl; try done.
  intros [H|[H1 H2]%andb_prop]%orb_prop.
  - apply bool_decide_eq_true in H.
    rewrite bool_decide_eq_false_2 by lia.
    by rewrite (bool_decide_eq_false_2 (y = x)) by lia.
  - apply bool_decide_eq_true in H1 as ->.
    rewrite bool_decide_eq_false_2 by lia. rewrite bool_decide_eq_true_2 by done.
    simpl. by apply IH.
Qed.

Lemma lex_lt_app_r a : forall b c, lex_lt a b = true -> lex_lt a (b ++ c) = true.
Proof.
  induction a as [|x a IH]; intros [|y b] c; simpl; try done.
  intros [H|[H1 H2]%andb_prop]%orb_prop.
  - by rewrite H.
  - rewrite H1, (IH _ _ H2). simpl. apply orb_true_r.
Qed.

Lemma lex_lt_prefix a x c : lex_lt a (a ++ x :: c) = true.
Proof.
  induction a as [|y a IH]; simpl; [done|].
  rewrite IH. rewrite (bool_decide_eq_true_2 (y = y)) by done. apply orb_true_r.
Qed.

Lemma lex_lt_below a k rest s : k < s -> lex_lt (a ++ k :: rest) (a ++ [s]) = true.
Proof.
  intros Hk. induction a as [|y a IH]; simpl.
  - by rewrite bool_decide_eq_true_2.
  - rewrite IH. rewrite (bool_decide_eq_true_2 (y = y)) by done. apply orb_true_r.
Qed.

Lemma Tree_root : Tree [([], 0)] [0%nat].
Proof.
  constructor.
  - intros p ->%list_elem_of_singleton. simpl. lia.
  - intros [|i] [|j] p q Hij Hi Hj; simpl in *; try lia; try done.
  - intros [|i] [|j] a s b s' Hij Hi Hj; simpl in *; try lia; try done.
  - intros p [|j] a s b s' _ Hpj _ Hj; simpl in *; [lia|done].
  - intros [|p] a s k Hp; simpl in Hp; [|done]. injection Hp as <- <-. split; [lia|].
    intros ([|j] & s' & Hj); simpl in Hj; [|done]. by injection Hj.
  - intros [|p] a s Hp; simpl in Hp; [|done]. injection Hp as <- <-. simpl. lia.
  - intros [|j] b s' Hj; simpl in Hj; [|done]. injection Hj as <- <-. by left.
Qed.

Lemma Tree_exit sh st p : Tree sh (st ++ [p]) -> Tree sh st.
Proof.
  intros [Hb Hs Hso Ho Hc Hn Hp]. constructor; try done.
  - intros q Hq. apply Hb. apply elem_of_app. by left.
  - intros i j x y Hij Hi Hj. apply (Hs i j); [done| |];
      by apply lookup_app_l_Some.
  - intros q j a s b s' Hq. apply Ho. apply elem_of_app. by left.
Qed.

Section Enter.

Context (sh : list (list N * N)) (st : list nat) (p : nat) (a : list N) (s : N).
Hypothesis HT : Tree sh (st ++ [p]).
Hypothesis Hp : sh !! p = Some (a, s).

Local Abbreviation n := (length sh).
Local Abbreviation sh' := (<[p := (a, s + 1)]> sh ++ [(a ++ [s], 0)]).

Local Lemma p_lt_n : (p < n)%nat.
Proof. by apply lookup_lt_Some in Hp. Qed.

Local Lemma lookup_new : sh' !! n = Some (a ++ [s], 0).
Proof.
  rewrite lookup_app_r by (rewrite length_insert; lia).
  by rewrite length_insert, Nat.sub_diag.
Qed.

Local Lemma lookup_parent : sh' !! p = Some (a, s + 1).
Proof.
  pose proof p_lt_n. rewrite lookup_app_l by (rewrite length_insert; done).
  by apply list_lookup_insert_eq.
Qed.

Local Lemma lookup_old j : j <> p -> (j < n)%nat -> sh' !! j = sh !! j.
Proof.
  intros Hne Hlt. rewrite lookup_app_l by (rewrite length_insert; done).
  by apply list_lookup_insert_ne.
Qed.

Local Lemma lookup_cases j b s' :
  sh' !! j = Some (b, s') ->
  (j = n /\ b = a ++ [s] /\ s' = 0)
  \/ (j = p /\ b = a /\ s' = s + 1)
  \/ (j <> p /\ (j < n)%nat /\ sh !! j = Some (b, s')).
Proof.
  intros Hj. pose proof (lookup_lt_Some _ _ _ Hj) as Hlt.
  rewrite length_app, length_insert in Hlt. simpl in Hlt.
  destruct (decide (j = n)) as [->|Hn].
  - left. rewrite lookup_new in Hj. by injection Hj as <- <-.
  - right. destruct (decide (j = p)) as [->|Hne].
    + left. rewrite lookup_parent in Hj. by injection Hj as <- <-.
    + right. rewrite lookup_old in Hj by lia. split_and!; [done|lia|done].
Qed.

(** The address of an old node is what it was. *)
Local Lemma lookup_address j b s' :
  (j < n)%nat -> sh' !! j = Some (b, s') -> exists s0, sh !! j = Some (b, s0) /\ s0 <= s'.
Proof.
  intros Hlt [(-> & _)|[(-> & -> & ->)|(_ & _ & Hj)]]%lookup_cases.
  - lia.
  - exists s. split; [done|lia].
  - exists s'. split; [done|lia].
Qed.

Local Lemma lookup_kept j b s0 :
  sh !! j = Some (b, s0) -> exists s', sh' !! j = Some (b, s').
Proof.
  intros Hj. pose proof (lookup_lt_Some _ _ _ Hj) as Hlt.
  destruct (decide (j = p)) as [->|Hne].
  - rewrite Hp in Hj. injection Hj as <- <-. exists (s + 1). apply lookup_parent.
  - exists s0. by rewrite lookup_old.
Qed.

Lemma Tree_enter : Tree sh' (st ++ [p] ++ [n]).
Proof.
  pose proof p_lt_n as Hpn.
  destruct HT as [Hb Hs Hso Ho Hc Hn Hpa].
  assert (Hinj : forall i j b s1 s2,
             sh !! i = Some (b, s1) -> sh !! j = Some (b, s2) -> i = j).
  { intros i j b s1 s2 Hi Hj. destruct (Nat.lt_total i j) as [Hlt|[?|Hlt]]; [|done|].
    - pose proof (Hso _ _ _ _ _ _ Hlt Hi Hj) as H. by rewrite lex_lt_irrefl in H.
    - pose proof (Hso _ _ _ _ _ _ Hlt Hj Hi) as H. by rewrite lex_lt_irrefl in H. }
  assert (Hnew : forall i b s1, (i < n)%nat -> sh !! i = Some (b, s1) ->
             lex_lt b (a ++ [s]) = true).
  { intros i b s1 Hi Hlk. destruct (Nat.lt_total i p) as [Hlt|[->|Hlt]].
    - apply lex_lt_app_r. by eapply (Hso i p).
    - rewrite Hp in Hlk. injection Hlk as <- <-. apply lex_lt_prefix.
    - destruct (Ho p i a s b s1) as (k & rest & -> & Hk); try done.
      { apply elem_of_app. right. by apply list_elem_of_singleton. }
      by apply lex_lt_below. }
  rewrite app_assoc. constructor.
  - intros q [Hq| ->%list_elem_of_singleton]%elem_of_app;
      rewrite length_app, length_insert; simpl; [apply Hb in Hq|]; lia.
  - intros i j x y Hij Hi Hj.
    apply lookup_app_Some in Hj as [Hj|[Hlen Hj]].
    + apply (Hs i j); [done| |done]. apply lookup_lt_Some in Hj.
      rewrite lookup_app_l in Hi by lia. done.
    + destruct (j - length (st ++ [p]))%nat eqn:Hd; [|done]. injection Hj as <-.
      rewrite lookup_app_l in Hi by lia.
      apply list_elem_of_lookup_2 in Hi. apply Hb in Hi. lia.
  - intros i j b s1 c s2 Hij Hi Hj.
    apply lookup_cases in Hj as [(-> & -> & ->)|Hj].
    + apply lookup_address in Hi as (s0 & Hi & _); [|done]. by eapply Hnew.
    + assert (j < n)%nat as Hjn by (destruct Hj as [(-> & _)|(_ & ? & _)]; done).
      assert (exists s0, sh !! j = Some (c, s0)) as [s0 Hj0].
      { destruct Hj as [(-> & -> & ->)|(_ & _ & Hj)]; eauto. }
      apply lookup_address in Hi as (s3 & Hi & _); [|lia]. by eapply (Hso i j).
  - intros q j b s1 c s2 Hq Hqj Hlq Hj.
    apply elem_of_app in Hq as [Hq| ->%list_elem_of_singleton].
    2:{ apply lookup_lt_Some in Hj.
        rewrite length_app, length_insert in Hj. simpl in Hj. lia. }
    pose proof (Hb _ Hq) as Hqn.
    destruct (lookup_address _ _ _ Hqn Hlq) as (s0 & Hlq0 & Hle).
    apply lookup_cases in Hj as [(-> & -> & ->)|Hj].
    + (* the new node lies below every open node *)
      apply elem_of_app in Hq as [Hq| ->%list_elem_of_singleton].
      * apply list_elem_of_lookup in Hq as [i Hi].
        assert (q < p)%nat as Hqp.
        { apply (Hs i (length st)); [by apply lookup_lt_Some in Hi| |].
          - by apply lookup_app_l_Some.
          - rewrite lookup_app_r, Nat.sub_diag by lia. done. }
        destruct (Ho q p b s0 a s) as (k & rest & -> & Hk); try done.
        { apply elem_of_app. left. by apply list_elem_of_lookup_2 in Hi. }
        exists k, (rest ++ [s]). split; [by rewrite <- app_assoc|lia].
      * rewrite lookup_parent in Hlq. injection Hlq as <- <-.
        exists s, []. split; [done|lia].
    + assert (exists s3, sh !! j = Some (c, s3)) as [s3 Hj0].
      { destruct Hj as [(-> & -> & ->)|(_ & _ & Hj)]; eauto. }
      destruct (Ho q j b s0 c s3) as (k & rest & -> & Hk); try done.
      exists k, rest. split; [done|lia].
  - intros q b s1 k Hq. apply lookup_cases in Hq as [(-> & -> & ->)|[(-> & -> & ->)|Hq]].
    + split; [lia|]. intros (j & s2 & Hj). exfalso.
      apply lookup_cases in Hj as [(_ & Hj & _)|Hj].
      * apply (f_equal length) in Hj. rewrite !length_app in Hj. simpl in Hj. lia.
      * assert (exists s3, (j < n)%nat /\ sh !! j = Some ((a ++ [s]) ++ [k], s3))
          as (s3 & Hjn & Hj0).
        { destruct Hj as [(-> & Hj & _)|(_ & ? & Hj)]; eauto.
          apply (f_equal length) in Hj. rewrite !length_app in Hj. simpl in Hj. lia. }
        pose proof (Hnew _ _ _ Hjn Hj0) as H1.
        pose proof (lex_lt_prefix (a ++ [s]) k []) as H2.
        apply lex_lt_asym in H1. congruence.
    + split.
      * intros Hk. destruct (decide (k = s)) as [->|Hne].
        -- exists n, 0. apply lookup_new.
        -- destruct (proj1 (Hc p a s k Hp)) as (j & s2 & Hj); [lia|].
           destruct (lookup_kept _ _ _ Hj) as [s3 Hj']. eauto.
      * intros (j & s2 & Hj). apply lookup_cases in Hj as [(_ & Hj & _)|Hj].
        -- apply app_inj_tail in Hj as [_ ->]. lia.
        -- assert (exists s3, sh !! j = Some (a ++ [k], s3)) as [s3 Hj0].
           { destruct Hj as [(-> & Hj & _)|(_ & ? & Hj)]; eauto.
             apply (f_equal length) in Hj. rewrite !length_app in Hj. simpl in Hj. lia. }
           assert (k < s) by (apply (Hc p a s k Hp); eauto). lia.
    + destruct Hq as (Hne & Hqn & Hq). split.
      * intros Hk. destruct (proj1 (Hc q b s1 k Hq) Hk) as (j & s2 & Hj).
        destruct (lookup_kept _ _ _ Hj) as [s3 Hj']. eauto.
      * intros (j & s2 & Hj). apply lookup_cases in Hj as [(_ & Hj & _)|Hj].
        -- apply app_inj_tail in Hj as [-> _]. exfalso. apply Hne. by eapply Hinj.
        -- assert (exists s3, sh !! j = Some (b ++ [k], s3)) as [s3 Hj0].
           { destruct Hj as [(-> & Hj & _)|(_ & ? & Hj)]; eauto.
             exists s. by rewrite Hj. }
           apply (Hc q b s1 k Hq). eauto.
  - intros q b s1 Hq. rewrite length_app, length_insert. simpl.
    apply lookup_cases in Hq as [(-> & -> & ->)|[(-> & -> & ->)|(_ & _ & Hq)]].
    + lia.
    + apply Hn in Hp. lia.
    + apply Hn in Hq. lia.
  - intros j b s1 Hj. apply lookup_cases in Hj as [(-> & -> & ->)|Hj].
    + right. exists p, a, (s + 1), s. split_and!; [done|apply lookup_parent|done].
    + assert (exists s3, sh !! j = Some (b, s3)) as [s3 Hj0].
      { destruct Hj as [(-> & -> & ->)|(_ & _ & Hj)]; eauto. }
      destruct (Hpa _ _ _ Hj0) as [?|(q & c & s4 & k & Hqj & Hq & ->)]; [by left|right].
      destruct (lookup_kept _ _ _ Hq) as [s5 Hq']. exists q, c, s5, k. done.
Qed.

End Enter.

Section Run.

Variable growcap : nat -> nat -> nat.

Implicit Types (ot : OeTracer) (t : node) (p : nat).

Lemma shape_lookup ot j a s :
  shape ot !! j = Some (a, s)
  <-> exists t, traces ot !! j = Some t /\ elems (heap_ ot) (TraceAddress t) = a
                /\ Subtraces t = s.
Proof.
  unfold shape. rewrite list_lookup_fmap. destruct (traces ot !! j) as [t|]; simpl.
  - split.
    + intros [= <- <-]. by exists t.
    + intros (t' & [= <-] & <- & <-). done.
  - split; [done|]. by intros (t' & ? & _).
Qed.

Lemma shape_address ot j : address_of ot j = fst <$> shape ot !! j.
Proof.
  unfold address_of, shape. rewrite list_lookup_fmap.
  by destruct (traces ot !! j).
Qed.

Lemma shape_length ot : length (shape ot) = length (traces ot).
Proof. unfold shape. by rewrite length_map. Qed.

Lemma shape_enter_child action ot ot' top :
  HInv ot -> last (traceStack ot) = Some top ->
  enterTrace growcap action ot = Some ot' ->
  exists a s, shape ot !! top = Some (a, s)
    /\ shape ot' = <[top := (a, wrap32 (s + 1))]> (shape ot) ++ [(a ++ [s], 0)]
    /\ traceStack ot' = traceStack ot ++ [length (shape ot)].
Proof.
  intros HH Hl H. unfold enterTrace in H. simpl in H. rewrite Hl in H.
  destruct (traces ot !! top) as [parent|] eqn:Hpar; simpl in H; [|done].
  destruct (append _ _ _ _) as [h3 a2] eqn:Happ. injection H as <-.
  pose proof (child_address growcap (heap_ ot) (TraceAddress parent) (Subtraces parent)
                h3 a2 (HH _ _ Hpar) Happ) as ([k Hk] & Hok & Hel).
  exists (elems (heap_ ot) (TraceAddress parent)), (Subtraces parent).
  split; [apply shape_lookup; by exists parent|]. split.
  - unfold shape at 1. rewrite traces_with_state. cbn [heap_ with_state].
    rewrite map_app. cbn [map TraceAddress Subtraces]. rewrite Hel. f_equal.
    apply list_eq. intros i. unfold shape. rewrite list_lookup_fmap.
    destruct (decide (top = i)) as [<-|Hne].
    + rewrite list_lookup_alter_eq, Hpar. simpl.
      rewrite list_lookup_insert_eq by (rewrite length_map; by apply lookup_lt_Some in Hpar).
      rewrite Hk. by rewrite slice_ok_elems_app by (by apply (HH top)).
    + rewrite list_lookup_alter_ne, list_lookup_insert_ne by done.
      rewrite list_lookup_fmap. destruct (traces ot !! i) as [t|] eqn:Hi; simpl; [|done].
      rewrite Hk. by rewrite slice_ok_elems_app by (by apply (HH i)).
  - simpl. by rewrite length_alter, shape_length.
Qed.

Lemma shape_enter_root action ot ot' :
  HInv ot -> last (traceStack ot) = None ->
  enterTrace growcap action ot = Some ot' ->
  shape ot' = shape ot ++ [([], 0)]
  /\ traceStack ot' = traceStack ot ++ [length (shape ot)].
Proof.
  intros HH Hl H. unfold enterTrace in H. simpl in H. rewrite Hl in H.
  injection H as <-. split.
  - unfold shape at 1. rewrite traces_with_state. cbn [heap_ with_state].
    rewrite map_app. cbn [map TraceAddress Subtraces].
    assert (elems (heap_ ot ++ [[]]) (Slice (Some (length (heap_ ot))) 0) = []) as ->
      by (unfold elems; simpl; by rewrite take_0).
    f_equal. apply map_ext_in. intros t Ht.
    apply list_elem_of_In, list_elem_of_lookup in Ht as [i Hi].
    by rewrite slice_ok_elems_app by (by apply (HH i)).
  - simpl. by rewrite shape_length.
Qed.

Lemma shape_alter f p ot :
  (forall t, TraceAddress (f t) = TraceAddress t /\ Subtraces (f t) = Subtraces t) ->
  map (fun t => (elems (heap_ ot) (TraceAddress t), Subtraces t)) (alter f p (traces ot))
  = shape ot.
Proof.
  intros Hf. unfold shape. apply list_eq. intros i. rewrite !list_lookup_fmap.
  destruct (decide (p = i)) as [->|Hne].
  - rewrite list_lookup_alter_eq. destruct (traces ot !! i) as [t|]; simpl; [|done].
    destruct (Hf t) as [-> ->]. done.
  - by rewrite list_lookup_alter_ne.
Qed.

Lemma shape_closes f p t ot ot' :
  closes f p t ot ot' ->
  (forall t, TraceAddress (f t) = TraceAddress t /\ Subtraces (f t) = Subtraces t) ->
  shape ot' = shape ot.
Proof.
  intros (st & _ & _ & _ & Hts & Hh & _) Hf. unfold shape at 1. rewrite Hts, Hh.
  by apply shape_alter.
Qed.

Lemma exit_shape f o g err t :
  f = createExit o g err \/ f = callExit o g err \/ f = suicideExit o g err \/ f = id ->
  TraceAddress (f t) = TraceAddress t /\ Subtraces (f t) = Subtraces t.
Proof.
  intros [->|[->|[->| ->]]]; unfold createExit, callExit, suicideExit;
    repeat case_match; done.
Qed.

Lemma extends_length ot ot' : extends ot ot' -> (length (traces ot) <= length (traces ot'))%nat.
Proof.
  intros [_ He]. destruct (traces ot) as [|t ts] eqn:Hts using rev_ind; [simpl; lia|].
  clear IHts. destruct (He (length ts) t) as (t' & Ht' & _).
  - by rewrite lookup_app_r, Nat.sub_diag by lia.
  - apply lookup_lt_Some in Ht'. rewrite length_app. simpl. lia.
Qed.

Lemma enterTrace_SInv d action ot ot' :
  SInv d ot -> (1 <= d)%nat -> enterTrace growcap action ot = Some ot' ->
  N.of_nat (length (traces ot')) < 2 ^ 32 ->
  SInv (S d) ot'.
Proof.
  intros [HH HP Hd HT] Hd1 H Hb.
  destruct (enterTrace_heap growcap _ _ _ HH H) as (_ & HH' & _).
  pose proof (enterTrace_PInv growcap _ _ _ HP H) as HP'.
  destruct (last (traceStack ot)) as [top|] eqn:Hl.
  2:{ apply last_None in Hl. rewrite Hl in Hd. simpl in Hd. lia. }
  destruct (shape_enter_child _ _ _ _ HH Hl H) as (a & s & Hp & Hsh & Hst).
  pose proof Hl as [st Hst0]%last_Some.
  constructor; [done|done| |].
  - rewrite Hst, length_app. simpl. lia.
  - rewrite Hsh, Hst, Hst0, <- app_assoc. rewrite Hst0 in HT.
    assert (wrap32 (s + 1) = s + 1) as ->.
    { unfold wrap32. apply N.mod_small.
      pose proof (tree_count _ _ HT _ _ _ Hp) as Hs.
      pose proof (f_equal (@length _) Hsh) as Hlen.
      rewrite length_app, length_insert, !shape_length in Hlen. simpl in Hlen.
      rewrite shape_length in Hs. lia. }
    by apply Tree_enter.
Qed.

Lemma closes_SInv d f p t ot ot' :
  SInv (S d) ot -> PInv ot' -> HInv ot' -> closes f p t ot ot' ->
  (forall t, TraceAddress (f t) = TraceAddress t /\ Subtraces (f t) = Subtraces t) ->
  SInv d ot'.
Proof.
  intros [HH HP Hd HT] HP' HH' Hc Hf.
  pose proof (shape_closes _ _ _ _ _ Hc Hf) as Hsh.
  destruct Hc as (st & Hst & _ & Hst' & _).
  constructor; [done|done| |].
  - rewrite Hst, length_app in Hd. simpl in Hd. rewrite Hst'. lia.
  - rewrite Hsh, Hst'. rewrite Hst in HT. by eapply Tree_exit.
Qed.

Lemma CaptureExit_SInv d o g err ot ot' :
  SInv (S d) ot -> CaptureExit o g err ot = Some ot' -> SInv d ot'.
Proof.
  intros HS H. pose proof H as (f & p & t & Hc & Hf)%CaptureExit_inv.
  eapply closes_SInv; [done| | |done|].
  - eapply CaptureExit_PInv; [|done]. by destruct HS.
  - apply (CaptureExit_extends growcap) in H as [_ HH]. apply HH. by destruct HS.
  - intros t0. apply (exit_shape f o g err). intuition eauto.
Qed.

Lemma CaptureEnd_SInv d o g err ot ot' :
  SInv (S d) ot -> CaptureEnd o g err ot = Some ot' -> SInv d ot'.
Proof.
  intros HS H. pose proof H as (f & p & t & Hc & Hf)%CaptureEnd_inv.
  eapply closes_SInv; [done| | |done|].
  - eapply CaptureEnd_PInv; [|done]. by destruct HS.
  - apply (CaptureEnd_extends growcap) in H as [_ HH]. apply HH. by destruct HS.
  - intros t0. apply (exit_shape f o g err). intuition eauto.
Qed.

Lemma CaptureExit_length o g err ot ot' :
  CaptureExit o g err ot = Some ot' -> length (traces ot') = length (traces ot).
Proof.
  intros (f & p & t & (st & _ & _ & _ & -> & _) & _)%CaptureExit_inv.
  apply length_alter.
Qed.

Lemma CaptureEnter_SInv d typ from to input gas value ot ot' :
  SInv d ot -> (1 <= d)%nat -> call_like typ = true ->
  CaptureEnter growcap typ from to input gas value ot = Some ot' ->
  N.of_nat (length (traces ot')) < 2 ^ 32 ->
  SInv (S d) ot'.
Proof.
  intros HS Hd Hcl H Hb.
  destruct (CaptureEnter_cases growcap typ from to input gas value ot)
    as [(_ & action & _ & Heq)|(Hf & _)]; [|congruence].
  rewrite Heq in H. by eapply enterTrace_SInv.
Qed.

Lemma synthesized_SInv d op from to input gas value e ot ot1 ot' :
  SInv d ot -> (1 <= d)%nat ->
  op ∈ [vm.CREATE; vm.CREATE2; vm.CALL; vm.CALLCODE; vm.DELEGATECALL; vm.STATICCALL] ->
  CaptureEnter growcap op from to input gas value ot = Some ot1 ->
  CaptureExit [] 0 (Some e) ot1 = Some ot' ->
  N.of_nat (length (traces ot')) < 2 ^ 32 ->
  SInv d ot'.
Proof.
  intros HS Hd Hop H1 H2 Hb.
  eapply CaptureExit_SInv; [|done].
  eapply CaptureEnter_SInv; [done|done| |done|].
  - apply bool_decide_eq_true. rewrite !elem_of_cons in *. tauto.
  - by rewrite <- (CaptureExit_length _ _ _ _ _ H2).
Qed.

Lemma step_SInv d d' ev ot ot' :
  SInv d ot -> is_start ev = false -> nest d ev = Some d' ->
  step growcap ev ot = Some ot' ->
  N.of_nat (length (traces ot')) < 2 ^ 32 ->
  SInv d' ot'.
Proof.
  intros HS Hns Hn H Hb. destruct ev; simpl in Hns, Hn, H; try done.
  - case_decide; [|done]. injection Hn as <-. subst d. by eapply CaptureEnd_SInv.
  - destruct (call_like typ) eqn:Hcl; simpl in Hn; [|done].
    case_bool_decide; [|done]. injection Hn as <-. by eapply CaptureEnter_SInv.
  - case_decide; [|done]. injection Hn as <-.
    destruct d as [|d]; [lia|]. replace (S d - 1)%nat with d by lia.
    by eapply CaptureExit_SInv.
  - case_decide; [|done]. injection Hn as <-.
    apply CaptureState_cases in H
      as [->|[(v & e & H & Hop & _)|[(v & e & H & Hop & _)|(_ & top & Hl & _ & ->)]]].
    + done.
    + apply createPreProcessFailed_inv in H as (inp & ot1 & H1 & H2).
      eapply synthesized_SInv; try done. rewrite !elem_of_cons. tauto.
    + apply callPreProcessFailed_inv in H as (to & inp & ot1 & H1 & H2).
      eapply synthesized_SInv; try done. rewrite !elem_of_cons. tauto.
    + destruct HS as [HH HP Hd HT]. constructor.
      * intros q t. rewrite traces_update. simpl.
        destruct (decide (top = q)) as [->|Hne].
        -- rewrite list_lookup_alter_eq.
           destruct (traces ot !! q) as [t1|] eqn:Hq; [|done].
           intros [= <-]. simpl. by apply (HH q).
        -- rewrite list_lookup_alter_ne by done. apply HH.
      * by apply update_top_PInv.
      * done.
      * unfold shape. rewrite traces_update. cbn [heap_ update with_state traceStack].
        rewrite shape_alter; [done|]. done.
  - injection Hn as <-. by injection H as <-.
Qed.

Lemma run_SInv evs : forall d d' ot ot',
  SInv d ot -> forallb (fun ev => negb (is_start ev)) evs = true ->
  nesting d evs = Some d' -> run growcap evs ot = Some ot' ->
  N.of_nat (length (traces ot')) < 2 ^ 32 ->
  SInv d' ot'.
Proof.
  induction evs as [|ev evs IH]; intros d d' ot ot' HS Hns Hn H Hb; simpl in *.
  - injection Hn as <-. by injection H as <-.
  - apply andb_prop in Hns as [Hns1 Hns2]. apply negb_true_iff in Hns1.
    apply bind_Some in Hn as (d1 & Hn1 & Hn).
    apply bind_Some in H as (ot1 & H1 & H).
    eapply (IH d1 d' ot1); try done.
    eapply step_SInv; try done.
    destruct (step_extends growcap _ _ _ (sinv_heap _ _ HS) H1) as [_ HH1].
    destruct (run_extends growcap _ _ _ HH1 H) as [He _].
    apply extends_length in He. lia.
Qed.

Lemma start_SInv e from to create input gas value bh bn th tp ot :
  CaptureStart growcap e from to create input gas value (NewOeTracer bh bn th tp) = Some ot ->
  SInv 1 ot.
Proof.
  intros H. apply CaptureStart_inv in H as (action & ot1 & _ & H1 & ->).
  pose proof (NewOeTracer_HInv bh bn th tp) as HH.
  pose proof (NewOeTracer_PInv bh bn th tp) as HP.
  destruct (enterTrace_heap growcap _ _ _ HH H1) as (_ & HH1 & _).
  pose proof (enterTrace_PInv growcap _ _ _ HP H1) as HP1.
  destruct (shape_enter_root _ _ _ HH eq_refl H1) as [Hsh Hst].
  constructor.
  - exact HH1.
  - by apply set_env_PInv.
  - simpl. by rewrite Hst.
  - change (shape (set_env e ot1)) with (shape ot1).
    change (traceStack (set_env e ot1)) with (traceStack ot1).
    rewrite Hsh, Hst. apply Tree_root.
Qed.

(** The states of one transaction. *)
Lemma transaction_SInv e from to create input gas value body bh bn th tp d ot :
  forallb (fun ev => negb (is_start ev)) body = true ->
  nesting 1 body = Some d ->
  run growcap (EvStart e from to create input gas value :: body) (NewOeTracer bh bn th tp)
    = Some ot ->
  N.of_nat (length (traces ot)) < 2 ^ 32 ->
  SInv d ot.
Proof.
  intros Hns Hn H Hb. cbn [run step] in H. apply bind_Some in H as (ot1 & H1 & H).
  eapply run_SInv; try done. by eapply start_SInv.
Qed.

(** X2. Within one transaction the node list of the current revision is
    the preorder of the call tree: the first node has the empty address,
    every later node has the address of an earlier node with one index
    appended, and addresses strictly increase along the list in
    lexicographic order, so no two nodes share an address.  (Fewer than
    [2^32] nodes, so that no child count wraps.) *)
Theorem node_list_is_preorder e from to create input gas value body bh bn th tp d ot :
  forallb (fun ev => negb (is_start ev)) body = true ->
  nesting 1 body = Some d ->
  run growcap (EvStart e from to create input gas value :: body) (NewOeTracer bh bn th tp)
    = Some ot ->
  N.of_nat (length (traces ot)) < 2 ^ 32 ->
  address_of ot 0 = Some []
  /\ (forall i j a b, (i < j)%nat -> address_of ot i = Some a -> address_of ot j = Some b ->
        lex_lt a b = true)
  /\ (forall j b, (0 < j)%nat -> address_of ot j = Some b ->
        exists p a k, (p < j)%nat /\ address_of ot p = Some a /\ b = a ++ [k])
  /\ (forall i j a, address_of ot i = Some a -> address_of ot j = Some a -> i = j).
Proof.
  intros Hns Hn H Hb.
  pose proof (transaction_SInv _ _ _ _ _ _ _ _ _ _ _ _ _ _ Hns Hn H Hb) as [HH HP Hd HT].
  assert (Hlk : forall j a, address_of ot j = Some a <-> exists s, shape ot !! j = Some (a, s)).
  { intros j a. rewrite shape_address. destruct (shape ot !! j) as [[a' s']|]; simpl.
    - split; [intros [= <-]; eauto|]. by intros (s & [= <- <-]).
    - split; [done|]. by intros (s & ?). }
  assert (Hso : forall i j a b, (i < j)%nat -> address_of ot i = Some a ->
              address_of ot j = Some b -> lex_lt a b = true).
  { intros i j a b Hij [s Hi]%Hlk [s' Hj]%Hlk. eapply (tree_sorted _ _ HT i j); done. }
  split_and!.
  - assert (0 < length (shape ot))%nat as Hlen.
    { rewrite shape_length. cbn [run step] in H. apply bind_Some in H as (ot1 & H1 & H).
      pose proof (start_SInv _ _ _ _ _ _ _ _ _ _ _ _ H1) as [HH1 _ Hd1 _].
      destruct (run_extends growcap _ _ _ HH1 H) as [He _]. apply extends_length in He.
      destruct (traces ot1) as [|t1 ts1] eqn:Hts; [|simpl in He; lia].
      destruct (traceStack ot1) as [|q st] eqn:Hst; [done|].
      pose proof (start_SInv _ _ _ _ _ _ _ _ _ _ _ _ H1) as [_ HP1 _ _].
      pose proof (pinv_bound _ HP1 q) as Hq. rewrite Hst, Hts in Hq. simpl in Hq.
      specialize (Hq ltac:(left)). lia. }
    destruct (lookup_lt_is_Some_2 _ _ Hlen) as [[b s] Hb0].
    destruct (tree_parent _ _ HT _ _ _ Hb0) as [[_ ->]|(p & a & s0 & k & Hpj & _)]; [|lia].
    apply Hlk. eauto.
  - exact Hso.
  - intros j b Hj [s Hb']%Hlk.
    destruct (tree_parent _ _ HT _ _ _ Hb') as [[-> _]|(p & a & s0 & k & Hpj & Hp & ->)];
      [lia|].
    exists p, a, k. split_and!; [done| |done]. apply Hlk. eauto.
  - intros i j a Hi Hj. destruct (Nat.lt_total i j) as [Hlt|[?|Hlt]]; [|done|].
    + pose proof (Hso _ _ _ _ Hlt Hi Hj) as Hx. by rewrite lex_lt_irrefl in Hx.
    + pose proof (Hso _ _ _ _ Hlt Hj Hi) as Hx. by rewrite lex_lt_irrefl in Hx.
Qed.

(** X3. Within one transaction the children of a node are numbered
    without gaps: for a node with address [a] and child count [s] there is a
    node with address [a ++ [k]] exactly for the [k] below [s] (and by the
    order of the list only one), so the child count of every node is the
    number of its children in the list, also while the node is still
    open. *)
Theorem children_are_numbered e from to create input gas value body bh bn th tp d ot :
  forallb (fun ev => negb (is_start ev)) body = true ->
  nesting 1 body = Some d ->
  run growcap (EvStart e from to create input gas value :: body) (NewOeTracer bh bn th tp)
    = Some ot ->
  N.of_nat (length (traces ot)) < 2 ^ 32 ->
  forall p t a, traces ot !! p = Some t -> address_of ot p = Some a ->
    forall k, k < Subtraces t <-> exists j, address_of ot j = Some (a ++ [k]).
Proof.
  intros Hns Hn H Hb p t a Ht Ha k.
  pose proof (transaction_SInv _ _ _ _ _ _ _ _ _ _ _ _ _ _ Hns Hn H Hb) as [HH HP Hd HT].
  assert (Hp : shape ot !! p = Some (a, Subtraces t)).
  { apply shape_lookup. exists t. split_and!; try done.
    unfold address_of in Ha. rewrite Ht in Ha. by injection Ha. }
  rewrite (tree_children _ _ HT _ _ _ k Hp). split.
  - intros (j & s' & Hj). exists j. rewrite shape_address, Hj. done.
  - intros (j & Hj). rewrite shape_address in Hj.
    destruct (shape ot !! j) as [[b s']|] eqn:Hlk; [|done].
    injection Hj as ->. eauto.
Qed.

End Run.

Lemma node_list_is_preorder_witness :
  exists ot,
    run gc_growcap (EvStart witness_env zero_Address zero_Address false [] 100 None
                      :: shape_body) witness_init = Some ot
    /\ address_of ot 0 = Some []
    /\ forall i j a, address_of ot i = Some a -> address_of ot j = Some a -> i = j.
Proof.
  let v := eval vm_compute in
    (run gc_growcap (EvStart witness_env zero_Address zero_Address false [] 100 None
                       :: shape_body) witness_init) in
  match v with
  | Some ?ot =>
      exists ot; split; [vm_compute; reflexivity|];
      destruct (node_list_is_preorder gc_growcap witness_env zero_Address zero_Address false
                  [] 100 None shape_body zero_Hash (Some 1%Z) zero_Hash 0 0%nat ot
                  eq_refl eq_refl ltac:(vm_compute; reflexivity)
                  ltac:(vm_compute; reflexivity))
        as (H0 & _ & _ & Hinj)
  end.
  split; [exact H0|exact Hinj].
Defined.

Lemma children_are_numbered_witness :
  exists ot t,
    run gc_growcap (EvStart witness_env zero_Address zero_Address false [] 100 None
                      :: shape_body) witness_init = Some ot
    /\ traces ot !! 1%nat = Some t /\ Subtraces t = 2
    /\ forall k, k < 2 <-> exists j, address_of ot j = Some ([0] ++ [k]).
Proof.
  let v := eval vm_compute in
    (run gc_growcap (EvStart witness_env zero_Address zero_Address false [] 100 None
                       :: shape_body) witness_init) in
  match v with
  | Some ?ot =>
      exists ot;
      let t := eval vm_compute in (traces ot !! 1%nat) in
      match t with
      | Some ?t =>
          exists t; split; [vm_compute; reflexivity|];
          split; [reflexivity|]; split; [reflexivity|];
          exact (children_are_numbered gc_growcap witness_env zero_Address zero_Address
                   false [] 100 None shape_body zero_Hash (Some 1%Z) zero_Hash 0 0%nat ot
                   eq_refl eq_refl ltac:(vm_compute; reflexivity)
                   ltac:(vm_compute; reflexivity) 1%nat t [0] eq_refl eq_refl)
      end
  end.
Defined.

End ShapeFacts.

(** ** The pre-checks of [CaptureState] *)
Module PreflightFacts.
Import GoSlice GoSliceFacts Tracer TracerFacts Preflight.

Section Checks.

Variable growcap : nat -> nat -> nat.

Implicit Types (ot : OeTracer) (t : node) (p : nat).

(** [nonce+1 < nonce] in [uint64] holds for the largest nonce only. *)
Lemma nonce_overflow nonce :
  nonce < 2 ^ 64 -> (wrap64 (nonce + 1) < nonce <-> nonce = 2 ^ 64 - 1).
Proof.
  intros Hn. unfold wrap64. destruct (decide (nonce = 2 ^ 64 - 1)) as [->|Hne].
  - split; [done|]. intros _. by vm_compute.
  - rewrite N.mod_small by lia. split; [lia|done].
Qed.

(** X4. For CREATE and CREATE2 the pre-checks run in the order engine
    error, depth limit, balance, nonce overflow, address collision: what
    [CaptureState] does is to synthesize a failed create with the error of
    the first failing check, and nothing when every check passes.  The nonce
    check fails for the nonce [2^64 - 1] only. *)
Theorem create_checks_in_order op gas scope depth err ot e value :
  op = vm.CREATE \/ op = vm.CREATE2 ->
  env ot = Some e ->
  vm.Back scope 0 = Some value ->
  vm.GetNonce e (vm.ContractAddress scope) < 2 ^ 64 ->
  CaptureState growcap op gas scope depth err ot
  = match first_failure_create err depth e (vm.ContractAddress scope) (Z.of_N value) with
    | Some x => createPreProcessFailed growcap op scope gas (Some (Z.of_N value)) x ot
    | None => Some ot
    end.
Proof.
  intros Hop He Hv Hn. destruct err as [x|].
  { by apply create_engine_error_first. }
  destruct (create_precheck_order growcap op gas scope depth ot value Hop Hv) as [Hd Hrest].
  unfold first_failure_create.
  destruct (decide (depth > vm.CallCreateDepth)%Z) as [Hdepth|Hdepth]; [by apply Hd|].
  destruct (Hrest e ltac:(lia) He) as [Hbal Hrest2].
  destruct (decide (Z.of_N value <> 0%Z
                    /\ vm.CanTransfer e (vm.ContractAddress scope) (Z.of_N value) = false))
    as [Hb|Hb]; [by apply Hbal|].
  assert (Z.of_N value = 0%Z
          \/ vm.CanTransfer e (vm.ContractAddress scope) (Z.of_N value) = true) as Hok.
  { destruct (decide (Z.of_N value = 0%Z)); [by left|right].
    destruct (vm.CanTransfer e _ _); [done|]. exfalso. by apply Hb. }
  destruct (Hrest2 Hok) as [Hnonce Hrest3].
  pose proof (nonce_overflow _ Hn) as Hiff.
  destruct (decide (vm.GetNonce e (vm.ContractAddress scope) = 2 ^ 64 - 1)) as [Hmax|Hmax].
  { apply Hnonce. by apply Hiff. }
  destruct (Hrest3 ltac:(by rewrite Hiff)) as [Hcol Hpass].
  case_decide; [by apply Hcol|by apply Hpass].
Qed.

(** X5. For DELEGATECALL and STATICCALL the engine error is looked at
    first and the depth limit second, and nothing else is checked.  For CALL
    and CALLCODE the depth limit is checked first and the balance second,
    and the outcome does not depend on the engine error at all. *)
Theorem call_checks_in_order op gas scope depth err ot :
  (op = vm.DELEGATECALL \/ op = vm.STATICCALL ->
   CaptureState growcap op gas scope depth err ot
   = match first_failure_delegate err depth with
     | Some x => callPreProcessFailed growcap op scope gas None x ot
     | None => Some ot
     end)
  /\ (op = vm.CALL \/ op = vm.CALLCODE ->
      CaptureState growcap op gas scope depth err ot
      = CaptureState growcap op gas scope depth None ot
      /\ forall e value, env ot = Some e -> vm.Back scope 2 = Some value ->
           CaptureState growcap op gas scope depth err ot
           = match first_failure_call depth e (vm.ContractAddress scope) (Z.of_N value) with
             | Some x => callPreProcessFailed growcap op scope gas (Some (Z.of_N value)) x ot
             | None => Some ot
             end).
Proof.
  split.
  - intros Hop. destruct err as [x|]; [by apply delegate_engine_error_first|].
    unfold first_failure_delegate, CaptureState, checkDepthAboveLitmit.
    destruct Hop as [-> | ->]; simpl; by case_decide.
  - intros Hop. split.
    + unfold CaptureState. by destruct Hop as [-> | ->].
    + intros e value He Hv.
      destruct (call_precheck_order growcap op gas scope depth err ot value Hop Hv)
        as [Hd Hrest].
      unfold first_failure_call.
      destruct (decide (depth > vm.CallCreateDepth)%Z) as [Hdepth|Hdepth]; [by apply Hd|].
      destruct (Hrest e ltac:(lia) He) as [Hbal Hpass].
      case_decide as Hb; [by apply Hbal|]. apply Hpass.
      destruct (decide (Z.of_N value = 0%Z)); [by left|right].
      destruct (vm.CanTransfer e _ _); [done|]. exfalso. by apply Hb.
Qed.

Lemma synthesized_of op from to input gas value e ot ot1 ot' :
  PInv ot ->
  op ∈ [vm.CREATE; vm.CREATE2; vm.CALL; vm.CALLCODE; vm.DELEGATECALL; vm.STATICCALL] ->
  CaptureEnter growcap op from to input gas value ot = Some ot1 ->
  CaptureExit [] 0 (Some e) ot1 = Some ot' ->
  synthesized e ot ot'.
Proof.
  intros HP Hop H1 H2.
  destruct (enter_exit_synthesized growcap op from to input gas value e ot HP Hop)
    as (ot1' & ot'' & H1' & H2' & Hs).
  rewrite H1 in H1'. injection H1' as <-. rewrite H2 in H2'. by injection H2' as <-.
Qed.

(** X6. In every state the tracer can reach, a call of [CaptureState]
    that returns leaves the open stack as it was and adds at most one node
    to the output list (none for an opcode other than the six call and
    create opcodes); every node already in the list keeps its action, its
    result and its address, and for an opcode that is neither one of those
    six nor REVERT the tracer is left untouched. *)
Theorem CaptureState_keeps_stack pre bh bn th tp op gas scope depth err ot ot' :
  run growcap pre (NewOeTracer bh bn th tp) = Some ot ->
  CaptureState growcap op gas scope depth err ot = Some ot' ->
  traceStack ot' = traceStack ot
  /\ (length (traces ot') = length (traces ot)
      \/ (length (traces ot') = S (length (traces ot))
          /\ op ∈ [vm.CREATE; vm.CREATE2; vm.CALL; vm.CALLCODE; vm.DELEGATECALL;
                    vm.STATICCALL]))
  /\ (forall q t, traces ot !! q = Some t ->
        exists t', traces ot' !! q = Some t' /\ Action t' = Action t
                   /\ Result t' = Result t /\ address_of ot' q = address_of ot q)
  /\ (op ∉ [vm.CREATE; vm.CREATE2; vm.CALL; vm.CALLCODE; vm.DELEGATECALL; vm.STATICCALL;
            vm.REVERT] -> ot' = ot).
Proof.
  intros Hpre H.
  pose proof (run_PInv growcap _ _ _ (NewOeTracer_PInv bh bn th tp) Hpre) as HP.
  destruct (run_extends growcap _ _ _ (NewOeTracer_HInv bh bn th tp) Hpre) as [_ HH].
  assert (Hstep : step growcap (EvState op gas scope depth err) ot = Some ot') by done.
  destruct (step_extends growcap _ _ _ HH Hstep) as [He HH'].
  assert (Haddr : forall q t, traces ot !! q = Some t -> address_of ot' q = address_of ot q).
  { intros q t Ht. assert (address_of ot q = Some (elems (heap_ ot) (TraceAddress t))) as Ha
      by (unfold address_of; by rewrite Ht).
    rewrite Ha. exact (extends_address _ _ _ _ HH He Ha). }
  assert (Hsyn : forall e, synthesized e ot ot' ->
            op ∈ [vm.CREATE; vm.CREATE2; vm.CALL; vm.CALLCODE; vm.DELEGATECALL;
                  vm.STATICCALL] ->
            traceStack ot' = traceStack ot
            /\ (length (traces ot') = length (traces ot)
                \/ (length (traces ot') = S (length (traces ot))
                    /\ op ∈ [vm.CREATE; vm.CREATE2; vm.CALL; vm.CALLCODE; vm.DELEGATECALL;
                              vm.STATICCALL]))
            /\ (forall q t, traces ot !! q = Some t ->
                  exists t', traces ot' !! q = Some t' /\ Action t' = Action t
                             /\ Result t' = Result t
                             /\ address_of ot' q = address_of ot q)).
  { intros e (Hst & ts & t & Hts & Hlen & _ & _ & Hold) Hop. split_and!; [done| |].
    - right. split; [|done]. rewrite Hts, length_app. simpl. lia.
    - intros q t0 Ht0. destruct (Hold q t0 Ht0) as (t' & Ht' & ? & ? & _).
      exists t'. split_and!; try done; [|by eapply Haddr].
      rewrite Hts. by apply lookup_app_l_Some. }
  assert (Hnot : op ∉ [vm.CREATE; vm.CREATE2; vm.CALL; vm.CALLCODE; vm.DELEGATECALL;
                       vm.STATICCALL; vm.REVERT] -> ot' = ot).
  { intros Hn. rewrite !not_elem_of_cons in Hn. unfold CaptureState in H.
    repeat (case_decide; [exfalso; tauto|]). by injection H. }
  apply CaptureState_cases in H
    as [->|[(v & e & H & Hop & _)|[(v & e & H & Hop & _)|(-> & top & Hl & _ & ->)]]].
  - split_and!; [done|by left| |done]. intros q t Ht. exists t. by split_and!.
  - apply createPreProcessFailed_inv in H as (inp & ot1 & H1 & H2).
    assert (op ∈ [vm.CREATE; vm.CREATE2; vm.CALL; vm.CALLCODE; vm.DELEGATECALL;
                  vm.STATICCALL]) as Hin by (rewrite !elem_of_cons; tauto).
    destruct (Hsyn e) as (? & ? & ?); [by eapply synthesized_of|done|]. by split_and!.
  - apply callPreProcessFailed_inv in H as (to & inp & ot1 & H1 & H2).
    assert (op ∈ [vm.CREATE; vm.CREATE2; vm.CALL; vm.CALLCODE; vm.DELEGATECALL;
                  vm.STATICCALL]) as Hin by (rewrite !elem_of_cons; tauto).
    destruct (Hsyn e) as (? & ? & ?); [by eapply synthesized_of|done|]. by split_and!.
  - split_and!; [done|left; rewrite traces_update; apply length_alter| |done].
    intros q t Ht. rewrite traces_update. destruct (decide (top = q)) as [->|Hne].
    + rewrite list_lookup_alter_eq, Ht. simpl. eexists. split_and!; try done.
      by eapply Haddr.
    + rewrite list_lookup_alter_ne by done. exists t. split_and!; try done.
      by eapply Haddr.
Qed.

End Checks.

Lemma create_checks_in_order_witness :
  exists ot ot' t,
    run gc_growcap [EvStart full_nonce_env zero_Address zero_Address false [] 100 None]
      witness_init = Some ot
    /\ CaptureState gc_growcap vm.CREATE2 7 create2_scope 1 None ot = Some ot'
    /\ traces ot' !! 1%nat = Some t /\ Error t = vm.ErrNonceUintOverflow.
Proof.
  let v := eval vm_compute in
    (run gc_growcap [EvStart full_nonce_env zero_Address zero_Address false [] 100 None]
       witness_init) in
  match v with
  | Some ?ot =>
      exists ot;
      pose proof (create_checks_in_order gc_growcap vm.CREATE2 7 create2_scope 1 None ot
                    full_nonce_env 7 (or_intror eq_refl) eq_refl eq_refl
                    ltac:(vm_compute; reflexivity)) as H
  end.
  eexists _, _. split; [vm_compute; reflexivity|]. split; [rewrite H; vm_compute; reflexivity|].
  split; reflexivity.
Defined.

Lemma CaptureState_keeps_stack_witness :
  exists ot ot',
    run gc_growcap revert_pre witness_init = Some ot
    /\ CaptureState gc_growcap vm.REVERT 3 call_scope 2 None ot = Some ot'
    /\ traceStack ot' = traceStack ot.
Proof.
  let v := eval vm_compute in (run gc_growcap revert_pre witness_init) in
  match v with
  | Some ?ot =>
      exists ot;
      let w := eval vm_compute in (CaptureState gc_growcap vm.REVERT 3 call_scope 2 None ot) in
      match w with
      | Some ?ot' =>
          exists ot'; split; [vm_compute; reflexivity|]; split; [vm_compute; reflexivity|];
          exact (proj1 (CaptureState_keeps_stack gc_growcap revert_pre zero_Hash (Some 1%Z)
                          zero_Hash 0 vm.REVERT 3 call_scope 2 None ot ot'
                          ltac:(vm_compute; reflexivity) ltac:(vm_compute; reflexivity)))
      end
  end.
Defined.

End PreflightFacts.

Module AddressFacts.
Import GoSlice Tracer TracerFacts.

Lemma address_allocation_witness :
  exists ot ot1 ot2,
    run gc_growcap revert_pre witness_init = Some ot
    /\ createEnter gc_growcap zero_Address zero_Address [] 20 None ot = Some ot1
    /\ run gc_growcap (EvExit [] 5 None :: revert_post) ot1 = Some ot2
    /\ address_of ot 1 = Some [0]
    /\ address_of ot1 2 = Some [0; 0] /\ address_of ot2 2 = Some [0; 0].
Proof.
  let v := eval vm_compute in (run gc_growcap revert_pre witness_init) in
  match v with
  | Some ?ot =>
      let v1 := eval vm_compute in
        (createEnter gc_growcap zero_Address zero_Address [] 20 None ot) in
      match v1 with
      | Some ?ot1 =>
          let v2 := eval vm_compute in
            (run gc_growcap (EvExit [] 5 None :: revert_post) ot1) in
          match v2 with
          | Some ?ot2 =>
              exists ot, ot1, ot2;
              let p := eval vm_compute in (traces ot !! 1%nat) in
              match p with
              | Some ?parent =>
                  destruct (proj1 (address_allocation gc_growcap revert_pre
                              (EvExit [] 5 None :: revert_post) zero_Hash (Some 1%Z)
                              zero_Hash 0 _ ot ot1 ot2
                              ltac:(vm_compute; reflexivity)
                              ltac:(vm_compute; reflexivity)
                              ltac:(vm_compute; reflexivity))
                            1%nat parent eq_refl eq_refl)
                    as (a & Ha & H1 & H2 & _)
              end
          end
      end
  end.
  assert (a = [0]) as -> by (vm_compute in Ha; by injection Ha).
  split; [vm_compute; reflexivity|]. split; [vm_compute; reflexivity|].
  split; [vm_compute; reflexivity|]. split; [exact Ha|]. split; [exact H1|exact H2].
Defined.

End AddressFacts.

(** ** Runs of the earlier revision *)
Module LegacyRunFacts.
Import GoSlice Legacy LegacyRun LegacyStore Codec.

Section Run.

Variable growcap : nat -> nat -> nat.

Implicit Types (ot : OeTracer) (t : node) (p : nat).

Lemma legacy_enterTrace_inv action ot ot' :
  enterTrace growcap action ot = Some ot' ->
  exists ts a,
    traces ot' = ts ++ [mkInternalActionTrace action None "" a 0]
    /\ traceStack ot' = traceStack ot ++ [length (traces ot)]
    /\ outPutTraces ot' = outPutTraces ot
    /\ (ts = traces ot \/ exists top n, ts = alter (set_Subtraces n) top (traces ot)).
Proof.
  unfold enterTrace. intros H.
  destruct (last (traceStack ot)) as [top|] eqn:Hl.
  - destruct (traces ot !! top) as [parent|] eqn:Hp; simpl in H; [|done].
    destruct (append _ _ _ _) as [h1 a1]. injection H as <-.
    eexists _, _. simpl. rewrite length_alter. split_and!; try done. right. eauto.
  - injection H as <-. eexists _, _. simpl. split_and!; try done. by left.
Qed.

Lemma legacy_enterTrace_total action ot :
  (forall p, p ∈ traceStack ot -> (p < length (traces ot))%nat) ->
  is_Some (enterTrace growcap action ot).
Proof.
  intros Hb. unfold enterTrace.
  destruct (last (traceStack ot)) as [top|] eqn:Hl; [|done].
  destruct (lookup_lt_is_Some_2 (traces ot) top) as [parent ->].
  { apply Hb. by apply last_Some_elem_of. }
  simpl. by destruct (append _ _ _ _).
Qed.

(** The nodes before the new one keep everything but a child count. *)
Lemma enter_old ts (l : list node) q t' :
  (ts = l \/ exists top n, ts = alter (set_Subtraces n) top l) ->
  ts !! q = Some t' ->
  exists t, l !! q = Some t /\ Action t' = Action t /\ Result t' = Result t
            /\ Error t' = Error t.
Proof.
  intros [->|(top & n & ->)] Hq; [by exists t'|].
  destruct (decide (top = q)) as [->|Hne].
  - rewrite list_lookup_alter_eq in Hq. destruct (l !! q) as [t|]; [|done].
    injection Hq as <-. by exists t.
  - rewrite list_lookup_alter_ne in Hq by done. by exists t'.
Qed.

Lemma enter_length ts (l : list node) :
  (ts = l \/ exists top n, ts = alter (set_Subtraces n) top l) -> length ts = length l.
Proof. intros [->|(top & n & ->)]; [done|apply length_alter]. Qed.

Lemma enter_Actions ts (l : list node) :
  (ts = l \/ exists top n, ts = alter (set_Subtraces n) top l) ->
  Action <$> ts = Action <$> l.
Proof.
  intros [->|(top & n & ->)]; [done|]. apply list_eq. intros i.
  rewrite !list_lookup_fmap. destruct (decide (top = i)) as [->|Hne].
  - rewrite list_lookup_alter_eq. by destruct (l !! i).
  - by rewrite list_lookup_alter_ne.
Qed.

Lemma enterTrace_LInv d action ot ot' :
  LInv d ot -> CallType action <= 5 -> enterTrace growcap action ot = Some ot' ->
  LInv (S d) ot'
  /\ Action <$> traces ot' = (Action <$> traces ot) ++ [action]
  /\ outPutTraces ot' = outPutTraces ot.
Proof.
  intros [Hnd Hb Hd Hk Hc] Hkind (ts & a & Hts & Hst & Ho & Hold)%legacy_enterTrace_inv.
  pose proof (enter_length _ _ Hold) as Hlen.
  split; [|split; [|done]].
  - constructor; rewrite ?Hst, ?Hts.
    + apply NoDup_app. split_and!; [done| |apply NoDup_singleton].
      intros q Hq ->%list_elem_of_singleton. apply Hb in Hq. lia.
    + intros q [Hq| ->%list_elem_of_singleton]%elem_of_app;
        rewrite length_app, Hlen; simpl; [apply Hb in Hq|]; lia.
    + rewrite length_app. simpl. lia.
    + intros q t [Hq|[_ Hq]]%lookup_app_Some.
      * destruct (enter_old _ _ _ _ Hold Hq) as (t0 & Ht0 & -> & _). by eapply Hk.
      * destruct (q - length ts)%nat; [|done]. by injection Hq as <-.
    + intros q t Hq Hnin. rewrite not_elem_of_app, not_elem_of_cons in Hnin.
      destruct Hnin as [Hnin [Hne _]].
      apply lookup_app_Some in Hq as [Hq|[Hge Hq]].
      * destruct (enter_old _ _ _ _ Hold Hq) as (t0 & Ht0 & Ha & Hr & He).
        specialize (Hc _ _ Ht0 Hnin). unfold convertible in *.
        by rewrite Ha, Hr, He.
      * destruct (q - length ts)%nat eqn:Hq0; [|done]. lia.
  - by rewrite Hts, fmap_app, (enter_Actions _ _ Hold).
Qed.

Lemma legacy_pop_inv ot p t ot1 :
  pop ot = Some (p, t, ot1) ->
  exists st, traceStack ot = st ++ [p] /\ traces ot !! p = Some t
             /\ ot1 = with_state (heap_ ot) (traces ot) st ot.
Proof.
  unfold pop. intros H.
  destruct (last (traceStack ot)) as [top|] eqn:Hl; simpl in H; [|done].
  destruct (traces ot !! top) as [x|] eqn:Hx; simpl in H; [|done].
  apply last_Some in Hl as [st Hst]. exists st.
  injection H as -> -> <-. split; [done|]. split; [done|].
  rewrite Hst, length_app. simpl.
  replace (length st + 1 - 1)%nat with (length st) by lia.
  by rewrite take_app_length.
Qed.

Lemma legacy_pop_total d ot : LInv (S d) ot -> is_Some (pop ot).
Proof.
  intros [_ Hb Hd _ _]. unfold pop.
  destruct (last (traceStack ot)) as [top|] eqn:Hl.
  - simpl. assert (top ∈ traceStack ot) as Hin by by apply last_Some_elem_of.
    destruct (lookup_lt_is_Some_2 _ _ (Hb _ Hin)) as [t ->]. by eexists.
  - apply last_None in Hl. rewrite Hl in Hd. done.
Qed.

(** Closing the innermost node with [f]. *)
Lemma close_LInv d f p t st ot :
  LInv (S d) ot -> traceStack ot = st ++ [p] -> traces ot !! p = Some t ->
  (forall t0, Action (f t0) = Action t0) -> convertible (f t) ->
  LInv d (update p f (with_state (heap_ ot) (traces ot) st ot))
  /\ Action <$> traces (update p f (with_state (heap_ ot) (traces ot) st ot))
     = Action <$> traces ot.
Proof.
  intros [Hnd Hb Hd Hk Hc] Hst Ht Hf Hconv. rewrite Hst in *.
  apply NoDup_app in Hnd as (Hnd & Hdisj & _). split.
  - constructor; simpl.
    + done.
    + intros q Hq. rewrite length_alter. apply Hb. apply elem_of_app. by left.
    + rewrite length_app in Hd. simpl in Hd. lia.
    + intros q t0. destruct (decide (p = q)) as [->|Hne].
      * rewrite list_lookup_alter_eq, Ht. simpl. intros [= <-]. rewrite Hf. by eapply Hk.
      * rewrite list_lookup_alter_ne by done. apply Hk.
    + intros q t0. destruct (decide (p = q)) as [->|Hne].
      * rewrite list_lookup_alter_eq, Ht. simpl. by intros [= <-] _.
      * rewrite list_lookup_alter_ne by done. intros Hq Hnin. apply (Hc q); [done|].
        rewrite not_elem_of_app, not_elem_of_cons. split_and!; [done|done|].
        apply not_elem_of_nil.
  - simpl. apply list_eq. intros i. rewrite !list_lookup_fmap.
    destruct (decide (p = i)) as [->|Hne].
    + rewrite list_lookup_alter_eq. destruct (traces ot !! i); simpl; [|done].
      by rewrite Hf.
    + by rewrite list_lookup_alter_ne.
Qed.

Lemma exit_convertible o g err t :
  Tracer.err_ok err = true ->
  convertible (createExit o g err t) /\ convertible (callExit o g err t)
  /\ (CallType (Action t) = CallTypeSuicide -> convertible (suicideExit o g err t)).
Proof.
  intros He. unfold convertible, createExit, callExit, suicideExit.
  destruct err as [e|]; simpl in *.
  - apply bool_decide_eq_true in He. split_and!; auto.
  - split_and!; [right; right; done|right; right; done|auto].
Qed.

Lemma exit_Action o g err t :
  Action (createExit o g err t) = Action t /\ Action (callExit o g err t) = Action t
  /\ Action (suicideExit o g err t) = Action t.
Proof. unfold createExit, callExit, suicideExit. by destruct err. Qed.

Lemma CaptureExit_LInv d o g err ot :
  LInv (S d) ot -> Tracer.err_ok err = true ->
  exists ot', CaptureExit o g err ot = Some ot' /\ LInv d ot'
    /\ Action <$> traces ot' = Action <$> traces ot
    /\ outPutTraces ot' = outPutTraces ot.
Proof.
  intros HI He. destruct (legacy_pop_total _ _ HI) as [[[p t] ot1] Hpop].
  unfold CaptureExit. rewrite Hpop. simpl.
  apply legacy_pop_inv in Hpop as (st & Hst & Ht & ->).
  pose proof (linv_kind _ _ HI _ _ Ht) as Hk.
  destruct (exit_convertible o g err t He) as (Hc1 & Hc2 & Hc3).
  destruct (exit_Action o g err t) as (Ha1 & Ha2 & Ha3).
  unfold CallTypeCreate, CallTypeCall, CallTypeCallCode, CallTypeDelegateCall,
    CallTypeStaticCall, CallTypeSuicide in *.
  repeat case_decide; try lia.
  - eexists. split; [done|].
    destruct (close_LInv d (createExit o g err) p t st ot HI Hst Ht) as [? ?];
      [intros t0; apply exit_Action|done|]. done.
  - eexists. split; [done|].
    destruct (close_LInv d (callExit o g err) p t st ot HI Hst Ht) as [? ?];
      [intros t0; apply exit_Action|done|]. done.
  - eexists. split; [done|].
    destruct (close_LInv d (suicideExit o g err) p t st ot HI Hst Ht) as [? ?];
      [intros t0; apply exit_Action|by apply Hc3|]. done.
Qed.

Lemma CaptureEnd_LInv d o g err ot :
  LInv (S d) ot -> Tracer.err_ok err = true ->
  exists ot', CaptureEnd o g err ot = Some ot' /\ LInv d ot'
    /\ Action <$> traces ot' = Action <$> traces ot
    /\ Traces (outPutTraces ot') = Traces (outPutTraces ot) ++ traces ot'
    /\ BlockHash (outPutTraces ot') = BlockHash (outPutTraces ot)
    /\ BlockNumber (outPutTraces ot') = BlockNumber (outPutTraces ot)
    /\ TransactionHash (outPutTraces ot') = TransactionHash (outPutTraces ot)
    /\ TransactionPosition (outPutTraces ot') = TransactionPosition (outPutTraces ot).
Proof.
  intros HI He. destruct (legacy_pop_total _ _ HI) as [[[p t] ot1] Hpop].
  unfold CaptureEnd. rewrite Hpop. simpl.
  apply legacy_pop_inv in Hpop as (st & Hst & Ht & ->).
  destruct (exit_convertible o g err t He) as (Hc1 & Hc2 & _).
  case_decide.
  - eexists. split; [done|].
    destruct (close_LInv d (createExit o g err) p t st ot HI Hst Ht) as [[? ? ? ? ?] ?];
      [intros t0; apply exit_Action|done|]. split_and!; try done.
  - eexists. split; [done|].
    destruct (close_LInv d (callExit o g err) p t st ot HI Hst Ht) as [[? ? ? ? ?] ?];
      [intros t0; apply exit_Action|done|]. split_and!; try done.
Qed.

Lemma CaptureEnter_LInv d typ from to input gas value ot :
  LInv d ot -> Tracer.call_like typ = true ->
  exists ot' action, CaptureEnter growcap typ from to input gas value ot = Some ot'
    /\ LInv (S d) ot'
    /\ Action <$> traces ot' = (Action <$> traces ot) ++ [action]
    /\ outPutTraces ot' = outPutTraces ot.
Proof.
  intros HI Hcl. unfold CaptureEnter, createEnter, callEnter, suicideEnter.
  unfold Tracer.call_like in Hcl. apply bool_decide_eq_true in Hcl.
  rewrite !elem_of_cons, elem_of_nil in Hcl.
  repeat case_decide; try tauto.
  all: match goal with
       | |- exists _ _, enterTrace _ ?a _ = _ /\ _ =>
           destruct (legacy_enterTrace_total a ot (linv_bound _ _ HI)) as [ot' H'];
           exists ot', a; split; [done|];
           apply (enterTrace_LInv d a ot ot' HI); [|done]
       end.
  all: simpl; unfold CallTypeCreate, CallTypeCall, CallTypeCallCode, CallTypeDelegateCall,
         CallTypeStaticCall, CallTypeSuicide; lia.
Qed.

Lemma CaptureStart_LInv d from to create input gas value ot :
  LInv d ot ->
  exists ot' action, CaptureStart growcap from to create input gas value ot = Some ot'
    /\ LInv (S d) ot'
    /\ Action <$> traces ot' = (Action <$> traces ot) ++ [action]
    /\ outPutTraces ot' = outPutTraces ot.
Proof.
  intros HI. unfold CaptureStart, createEnter, callEnter.
  destruct create.
  all: match goal with
       | |- exists _ _, enterTrace _ ?a _ = _ /\ _ =>
           destruct (legacy_enterTrace_total a ot (linv_bound _ _ HI)) as [ot' H'];
           exists ot', a; split; [done|];
           apply (enterTrace_LInv d a ot ot' HI); [|done]
       end.
  all: simpl; unfold CallTypeCreate, CallTypeCall; lia.
Qed.

(** Nested calls leave the output as it is and add one node per enter. *)
Lemma run_calls body : forall d d' ot,
  LInv d ot -> forallb is_call_event body = true -> forallb errs_ok body = true ->
  nesting d body = Some d' ->
  exists ot', run growcap body ot = Some ot' /\ LInv d' ot'
    /\ length (traces ot') = (length (traces ot) + length (filter is_enter body))%nat
    /\ take (length (traces ot)) (Action <$> traces ot') = Action <$> traces ot
    /\ outPutTraces ot' = outPutTraces ot
    /\ forall k, exists otk, run growcap (take k body) ot = Some otk
                             /\ outPutTraces otk = outPutTraces ot.
Proof.
  induction body as [|ev body IH]; intros d d' ot HI Hc He Hn; simpl in *.
  - injection Hn as <-. exists ot. split_and!; try done; try lia.
    + rewrite <- (length_fmap Action). apply firstn_all.
    + intros k. exists ot. by rewrite take_nil.
  - apply andb_prop in Hc as [Hc1 Hc2]. apply andb_prop in He as [He1 He2].
    apply bind_Some in Hn as (d1 & Hn1 & Hn).
    assert (exists ot1, step growcap ev ot = Some ot1 /\ LInv d1 ot1
              /\ (exists l, Action <$> traces ot1 = (Action <$> traces ot) ++ l
                    /\ length l = length (filter is_enter [ev]))
              /\ outPutTraces ot1 = outPutTraces ot) as (ot1 & H1 & HI1 & Ha1 & Ho1).
    { destruct ev; simpl in Hc1, He1, Hn1; try done.
      - destruct (Tracer.call_like typ) eqn:Hcl; simpl in Hn1; [|done].
        case_bool_decide; [|done]. injection Hn1 as <-.
        destruct (CaptureEnter_LInv d typ from to input gas value ot HI Hcl)
          as (ot1 & action & H1 & HI1 & Ha & Ho).
        exists ot1. split_and!; try done. exists [action]. done.
      - case_decide; [|done]. injection Hn1 as <-.
        destruct d as [|d]; [lia|]. replace (S d - 1)%nat with d by lia.
        destruct (CaptureExit_LInv d output gasUsed err ot HI He1)
          as (ot1 & H1 & HI1 & Ha & Ho).
        exists ot1. split_and!; try done. exists []. by rewrite app_nil_r. }
    destruct Ha1 as (l & Ha1 & Hl).
    destruct (IH d1 d' ot1 HI1 Hc2 He2 Hn) as (ot' & H' & HI' & Hlen & Htk & Ho' & Hk).
    exists ot'. rewrite H1. simpl. split_and!; try done.
    + pose proof (f_equal (@length _) Ha1) as Hl1.
      rewrite length_app, !length_fmap in Hl1. rewrite Hlen, Hl1, Hl.
      rewrite (filter_cons _ ev body), (filter_cons _ ev []), filter_nil.
      destruct (decide (is_enter ev)); simpl; lia.
    + pose proof (f_equal (take (length (traces ot))) Htk) as Hx.
      rewrite take_take in Hx.
      pose proof (f_equal (@length _) Ha1) as Hl1.
      rewrite length_app, !length_fmap in Hl1.
      rewrite Nat.min_l in Hx by lia. rewrite Hx, Ha1.
      rewrite take_app_le by (rewrite length_fmap; lia).
      rewrite <- (length_fmap Action). apply firstn_all.
    + congruence.
    + intros [|k].
      * exists ot. done.
      * destruct (Hk k) as (otk & Hr & Hok). exists otk. simpl. rewrite H1. simpl.
        split; [done|congruence].
Qed.

Lemma legacy_run_app evs1 evs2 ot :
  run growcap (evs1 ++ evs2) ot = ot1 ← run growcap evs1 ot; run growcap evs2 ot1.
Proof.
  revert ot. induction evs1 as [|ev evs1 IH]; intros ot; simpl; [done|].
  destruct (step growcap ev ot); simpl; [apply IH|done].
Qed.

Lemma NewOeTracer_LInv bh bn th tp : LInv 0 (NewOeTracer bh bn th tp).
Proof.
  constructor; simpl; try done.
  - constructor.
  - by intros p ?%elem_of_nil.
Qed.

(** One transaction, from a state with no open node. *)
Lemma run_transaction evs ot :
  LInv 0 ot -> transaction evs ->
  exists ot', run growcap evs ot = Some ot' /\ LInv 0 ot'
    /\ length (traces ot') = (length (traces ot) + length (filter is_enter evs))%nat
    /\ take (length (traces ot)) (Action <$> traces ot') = Action <$> traces ot
    /\ Traces (outPutTraces ot') = Traces (outPutTraces ot) ++ traces ot'
    /\ BlockHash (outPutTraces ot') = BlockHash (outPutTraces ot)
    /\ BlockNumber (outPutTraces ot') = BlockNumber (outPutTraces ot)
    /\ TransactionHash (outPutTraces ot') = TransactionHash (outPutTraces ot)
    /\ TransactionPosition (outPutTraces ot') = TransactionPosition (outPutTraces ot)
    /\ forall k, (k < length evs)%nat ->
          exists otk, run growcap (take k evs) ot = Some otk
                      /\ outPutTraces otk = outPutTraces ot.
Proof.
  intros HI (from & to & create & input & gas & value & body & output & gasUsed & err
             & -> & Hc & He & Hn).
  cbn [forallb] in He. apply andb_prop in He as [_ He].
  rewrite forallb_app in He. apply andb_prop in He as [Heb Hee].
  cbn [forallb errs_ok] in Hee. rewrite andb_true_r in Hee.
  destruct (CaptureStart_LInv 0 from to create input gas value ot HI)
    as (ot1 & action & H1 & HI1 & Ha1 & Ho1).
  destruct (run_calls body 1 1 ot1 HI1 Hc Heb Hn)
    as (ot2 & H2 & HI2 & Hlen2 & Htk2 & Ho2 & Hk2).
  destruct (CaptureEnd_LInv 0 output gasUsed err ot2 HI2 Hee)
    as (ot3 & H3 & HI3 & Ha3 & Ho3 & Hbh & Hbn & Hth & Htp).
  pose proof (f_equal (@length _) Ha1) as Hl1.
  rewrite length_app, !length_fmap in Hl1. simpl in Hl1.
  pose proof (f_equal (@length _) Ha3) as Hl3. rewrite !length_fmap in Hl3.
  exists ot3. split_and!.
  - cbn [run step]. rewrite H1. simpl. rewrite legacy_run_app, H2. simpl. by rewrite H3.
  - done.
  - rewrite Hl3, Hlen2, Hl1. rewrite filter_cons_True by done. rewrite filter_app.
    rewrite (filter_cons_False _ (EvEnd output gasUsed err)) by (simpl; tauto).
    rewrite filter_nil, app_nil_r. simpl. lia.
  - rewrite Ha3. pose proof (f_equal (take (length (traces ot))) Htk2) as Hx.
    rewrite take_take, Nat.min_l in Hx by lia. rewrite Hx, Ha1.
    rewrite take_app_le by (rewrite length_fmap; lia).
    rewrite <- (length_fmap Action). apply firstn_all.
  - rewrite Ho3. do 2 f_equal. congruence.
  - congruence.
  - congruence.
  - congruence.
  - congruence.
  - intros [|k] Hk.
    + exists ot. done.
    + simpl in Hk. rewrite length_app in Hk. simpl in Hk.
      destruct (Hk2 k) as (otk & Hr & Hok). exists otk.
      cbn [take run step]. rewrite H1. simpl.
      rewrite take_app_le by lia. split; [done|congruence].
Qed.

Lemma convertible_seal h (t : node) : convertible t -> convertible (seal h t).
Proof. done. Qed.

(** When no node is open every node converts. *)
Lemma LInv_convertible ot :
  LInv 0 ot -> Forall convertible (map (seal (heap_ ot)) (traces ot)).
Proof.
  intros [_ _ Hd _ Hc]. apply nil_length_inv in Hd.
  apply Forall_forall. intros t' Ht'. apply list_elem_of_fmap in Ht' as (t & -> & Ht).
  apply list_elem_of_lookup in Ht as [p Hp]. apply convertible_seal. apply (Hc p); [done|].
  rewrite Hd. apply not_elem_of_nil.
Qed.

(** X7. The earlier revision, over one complete and validly nested
    transaction whose errors carry messages: every callback returns; until
    the root closes the output holds no trace, so [GetRpcTraces] returns
    the empty list while calls are in flight; once the root has closed it
    returns one API trace per enter event, and never dereferences a nil
    result. *)
Theorem legacy_output_at_end evs bh bn th tp :
  transaction evs ->
  let init := NewOeTracer bh bn th tp in
  exists ot rs,
    run growcap evs init = Some ot
    /\ GetRpcTraces ot = Some rs
    /\ length rs = length (filter is_enter evs)
    /\ forall k, (k < length evs)%nat ->
          exists otk, run growcap (take k evs) init = Some otk
                      /\ GetRpcTraces otk = Some [].
Proof.
  intros Htx init.
  destruct (run_transaction evs init (NewOeTracer_LInv bh bn th tp) Htx)
    as (ot & Hrun & HI & Hlen & _ & Ho & _ & _ & _ & _ & Hk).
  simpl in Ho.
  destruct (CodecFacts.ToRpcTraces_total (GetInternalTraces ot)) as [rs Hrs].
  { unfold GetInternalTraces. cbn [Traces]. rewrite Ho. by apply LInv_convertible. }
  exists ot, rs. split_and!; try done.
  - unfold ToRpcTraces in Hrs. apply mapM_Some, Forall2_length in Hrs.
    unfold GetInternalTraces in Hrs. cbn [Traces] in Hrs.
    rewrite length_map, Ho in Hrs. simpl in Hlen. lia.
  - intros k Hlt. destruct (Hk k Hlt) as (otk & Hr & Hok). exists otk. split; [done|].
    unfold GetRpcTraces, GetInternalTraces, ToRpcTraces. cbn [Traces]. by rewrite Hok.
Qed.

(** X8. The tracer of the earlier revision is good for one transaction
    only: when a second transaction is traced with the same tracer, the
    closing loop appends every node collected so far once more, so the
    output then holds the nodes of the first transaction twice, followed by
    the nodes of the second. *)
Theorem legacy_reuse_duplicates evs1 evs2 bh bn th tp :
  transaction evs1 -> transaction evs2 ->
  exists ot1 ot2,
    run growcap evs1 (NewOeTracer bh bn th tp) = Some ot1
    /\ run growcap (evs1 ++ evs2) (NewOeTracer bh bn th tp) = Some ot2
    /\ Action <$> Traces (outPutTraces ot1) = Action <$> traces ot1
    /\ Action <$> Traces (outPutTraces ot2)
       = (Action <$> traces ot1) ++ (Action <$> traces ot1)
         ++ drop (length (traces ot1)) (Action <$> traces ot2)
    /\ length (Traces (outPutTraces ot2))
       = (2 * length (filter is_enter evs1) + length (filter is_enter evs2))%nat.
Proof.
  intros Htx1 Htx2.
  destruct (run_transaction evs1 _ (NewOeTracer_LInv bh bn th tp) Htx1)
    as (ot1 & Hrun1 & HI1 & Hlen1 & _ & Ho1 & _).
  destruct (run_transaction evs2 ot1 HI1 Htx2)
    as (ot2 & Hrun2 & HI2 & Hlen2 & Htk2 & Ho2 & _).
  simpl in Ho1, Hlen1.
  exists ot1, ot2. split_and!.
  - done.
  - by rewrite legacy_run_app, Hrun1.
  - by rewrite Ho1.
  - rewrite Ho2, Ho1, fmap_app. f_equal.
    rewrite <- Htk2 at 1. by rewrite take_drop.
  - rewrite Ho2, Ho1, length_app, Hlen2, Hlen1. lia.
Qed.

End Run.

Lemma one_call_transaction : transaction one_call.
Proof.
  exists zero_Address, zero_Address, false, [], 100, None,
    [EvEnter vm.CALL zero_Address zero_Address [] 50 None; EvExit [] 5 None], [], 12, None.
  by split_and!.
Defined.

Lemma legacy_output_at_end_witness :
  exists ot rs,
    run gc_growcap one_call legacy_init = Some ot
    /\ GetRpcTraces ot = Some rs /\ length rs = 2%nat.
Proof.
  destruct (legacy_output_at_end gc_growcap one_call zero_Hash (Some 1%Z) zero_Hash 0
              one_call_transaction) as (ot & rs & Hrun & Hrs & Hlen & _).
  exists ot, rs. split; [exact Hrun|]. split; [exact Hrs|exact Hlen].
Defined.

Lemma legacy_reuse_duplicates_witness :
  exists ot2,
    run gc_growcap (one_call ++ one_call) legacy_init = Some ot2
    /\ length (Traces (outPutTraces ot2)) = 6%nat.
Proof.
  destruct (legacy_reuse_duplicates gc_growcap one_call one_call zero_Hash (Some 1%Z)
              zero_Hash 0 one_call_transaction one_call_transaction)
    as (ot1 & ot2 & _ & Hrun & _ & _ & Hlen).
  exists ot2. split; [exact Hrun|exact Hlen].
Defined.

End LegacyRunFacts.

(** ** The tree tracer: helpers of [CaptureState] *)
Module V1HelperFacts.
Import GoSlice GoSliceFacts V1 V1Facts V1Helpers.

Lemma int64_small z : (- 2 ^ 63 <= z < 2 ^ 63)%Z -> int64 z = z.
Proof. intros Hz. unfold int64. rewrite Z.mod_small by lia. lia. Qed.

Lemma int64_over z : (2 ^ 63 <= z < 2 ^ 64)%Z -> int64 z = (z - 2 ^ 64)%Z.
Proof.
  intros Hz. unfold int64.
  replace (z + 2 ^ 63)%Z with ((z - 2 ^ 63) + 1 * 2 ^ 64)%Z by lia.
  rewrite Z.mod_add by lia. rewrite Z.mod_small by lia. lia.
Qed.

Lemma int64_under z : (- 2 ^ 64 <= z < - 2 ^ 63)%Z -> int64 z = (z + 2 ^ 64)%Z.
Proof.
  intros Hz. unfold int64.
  replace (z + 2 ^ 63)%Z with ((z + 2 ^ 63 + 2 ^ 64) + (-1) * 2 ^ 64)%Z by lia.
  rewrite Z.mod_add by lia. rewrite Z.mod_small by lia. lia.
Qed.

(** X15. [memorySlice] never panics, whatever [int64] offset and size it
    is given, also when their sum overflows: for a zero size it returns the
    empty slice; for a positive size and a non-negative offset whose window
    lies within the memory it returns exactly that window, of [size]
    bytes; in every other case (negative offset, negative size, overflow of
    the sum, window past the end) it returns nil. *)
Theorem memorySlice_safe memory offset size :
  (- 2 ^ 63 <= offset < 2 ^ 63)%Z -> (- 2 ^ 63 <= size < 2 ^ 63)%Z ->
  (Z.of_nat (length memory) < 2 ^ 63)%Z ->
  memorySlice memory offset size
  = Some (if decide (size = 0)%Z then Some []
          else if decide (0 <= offset /\ 0 < size
                          /\ offset + size <= Z.of_nat (length memory))%Z
               then Some (take (Z.to_nat size) (drop (Z.to_nat offset) memory))
               else None)
  /\ forall b, memorySlice memory offset size = Some (Some b) ->
       Z.of_nat (length b) = size.
Proof.
  intros Ho Hs Hm.
  assert (Heq : memorySlice memory offset size
    = Some (if decide (size = 0)%Z then Some []
            else if decide (0 <= offset /\ 0 < size
                            /\ offset + size <= Z.of_nat (length memory))%Z
                 then Some (take (Z.to_nat size) (drop (Z.to_nat offset) memory))
                 else None)).
  { unfold memorySlice, subslice. destruct (decide (size = 0%Z)) as [?|Hnz]; [done|].
    destruct (decide (- 2 ^ 63 <= offset + size < 2 ^ 63)%Z) as [Hin|Hout].
    - rewrite (int64_small _ Hin). repeat case_decide; try done; try lia.
      simpl. do 3 f_equal. lia.
    - destruct (decide (2 ^ 63 <= offset + size)%Z).
      + rewrite int64_over by lia. repeat case_decide; try done; lia.
      + rewrite int64_under by lia. repeat case_decide; try done; lia. }
  split; [done|]. intros b Hb. rewrite Heq in Hb.
  repeat case_decide; simplify_eq; [done|].
  rewrite length_take, length_drop. lia.
Qed.

Lemma memorySlice_safe_witness :
  memorySlice [x01; x02; x03] 1 (2 ^ 63 - 1) = Some None
  /\ memorySlice [x01; x02; x03] 1 2 = Some (Some [x02; x03]).
Proof.
  pose proof (proj1 (memorySlice_safe [x01; x02; x03] 1 (2 ^ 63 - 1)
                       ltac:(lia) ltac:(lia) ltac:(simpl; lia))) as H1.
  pose proof (proj1 (memorySlice_safe [x01; x02; x03] 1 2
                       ltac:(lia) ltac:(lia) ltac:(simpl; lia))) as H2.
  split; [exact H1|exact H2].
Defined.

(** X16. [stackPeek] never panics: it returns the word that [Stack.Back]
    returns wherever [Back] is defined, and zero for every position at
    which [Back] would index outside the stack, the negative ones
    included. *)
Theorem stackPeek_total scope pos :
  is_Some (stackPeek (vm.Stack scope) pos)
  /\ (forall n x, vm.Back scope n = Some x ->
        stackPeek (vm.Stack scope) (Z.of_nat n) = Some (Z.of_N x))
  /\ ((pos < 0 \/ Z.of_nat (length (vm.Stack scope)) <= pos)%Z ->
      stackPeek (vm.Stack scope) pos = Some 0%Z).
Proof.
  split_and!.
  - unfold stackPeek. case_decide; [by eexists|]. rewrite decide_True by lia.
    destruct (lookup_lt_is_Some_2 (vm.Stack scope)
                (Z.to_nat (Z.of_nat (length (vm.Stack scope)) - 1 - pos))) as [x ->];
      [lia|]. by eexists.
  - intros n x. unfold vm.Back, stackPeek. case_decide as Hn; [|done]. intros Hx.
    rewrite decide_False by lia. rewrite decide_True by lia.
    replace (Z.to_nat (Z.of_nat (length (vm.Stack scope)) - 1 - Z.of_nat n))
      with (length (vm.Stack scope) - 1 - n)%nat by lia.
    by rewrite Hx.
  - intros Hp. unfold stackPeek. rewrite decide_True by lia. done.
Qed.

Section Addresses.

Variable growcap : nat -> nat -> nat.

Lemma elems_length h s : slice_ok h s -> length (elems h s) = len s.
Proof.
  unfold slice_ok, elems, cap. rewrite length_take. destruct (base s) eqn:Hb.
  - unfold array. rewrite Hb. lia.
  - unfold array. rewrite Hb. simpl. lia.
Qed.

(** [make] and [copy]: a fresh array with the elements of the source. *)
Lemma make_copy h s :
  slice_ok h s ->
  copy (h ++ [replicate (len s) 0]) (Slice (Some (length h)) (len s)) s
  = h ++ [elems h s].
Proof.
  intros Hok. unfold copy. simpl.
  rewrite slice_ok_elems_app by done. rewrite Nat.min_id.
  rewrite <- (Nat.add_0_r (length h)), alter_app_r. simpl. f_equal.
  rewrite <- (elems_length h s Hok) at 1. rewrite firstn_all.
  rewrite drop_ge by (rewrite length_replicate; lia). by rewrite app_nil_r.
Qed.

Lemma elems_fresh h E n :
  (n <= length E)%nat -> elems (h ++ [E]) (Slice (Some (length h)) n) = take n E.
Proof.
  intros Hn. unfold elems, array. simpl.
  by rewrite lookup_app_r, Nat.sub_diag by lia.
Qed.

Lemma slice_ok_fresh h E n :
  (n <= length E)%nat -> slice_ok (h ++ [E]) (Slice (Some (length h)) n).
Proof.
  intros Hn. unfold slice_ok, cap, array. simpl. rewrite length_app. simpl.
  rewrite lookup_app_r, Nat.sub_diag by lia. simpl. lia.
Qed.

(** [pred_int] is the wrapping subtraction on the whole range of [int]. *)
Lemma pred_int_int64 depth :
  (- 2 ^ 63 <= depth < 2 ^ 63)%Z -> pred_int depth = int64 (depth - 1).
Proof.
  intros Hd. unfold pred_int. case_decide as Hm.
  - subst depth. by vm_compute.
  - symmetry. apply int64_small. lia.
Qed.

Lemma addTraceAddress_index h ta depth :
  slice_ok h ta -> (0 <= pred_int depth)%Z ->
  exists k r,
    addTraceAddress growcap h ta depth = Some (h ++ k, r)
    /\ slice_ok (h ++ k) r
    /\ elems (h ++ k) r
       = if decide (Z.of_nat (len ta) <= pred_int depth)%Z then elems h ta ++ [0]
         else alter (fun x => wrap32 (x + 1)) (Z.to_nat (pred_int depth)) (elems h ta).
Proof.
  intros Hok Hd. unfold addTraceAddress, make. rewrite (make_copy h ta Hok).
  set (index := pred_int depth) in *.
  pose proof (elems_length h ta Hok) as HlenE. set (E := elems h ta) in *.
  cbn [len]. destruct (decide (Z.of_nat (len ta) <= index)%Z) as [Hle|Hgt].
  - unfold append. cbn [len base]. unfold cap, array. cbn [base].
    rewrite lookup_app_r, Nat.sub_diag by lia. cbn [lookup list_lookup default]. unfold id.
    rewrite decide_False by lia.
    assert (Htake : elems (h ++ [E]) (Slice (Some (length h)) (len ta)) = E).
    { rewrite elems_fresh by lia. rewrite <- HlenE. apply firstn_all. }
    rewrite Htake. rewrite <- app_assoc.
    eexists _, _. split; [done|]. rewrite app_assoc. split.
    + replace (length (h ++ [E])) with (length (h ++ [E]) + 0)%nat by lia.
      rewrite Nat.add_0_r. apply slice_ok_fresh. rewrite length_app. simpl. lia.
    + rewrite elems_fresh by (rewrite length_app; simpl; lia).
      change (E ++ 0 :: ?l) with (E ++ [0] ++ l). rewrite app_assoc.
      replace (S (len ta)) with (length (E ++ [0])) by (rewrite length_app; simpl; lia).
      by rewrite take_app_length.
  - unfold index_update. cbn [len base]. rewrite decide_True by lia. simpl.
    rewrite <- (Nat.add_0_r (length h)), alter_app_r. simpl. rewrite Nat.add_0_r.
    eexists _, _. split; [done|]. split.
    + apply slice_ok_fresh. rewrite length_alter. lia.
    + rewrite elems_fresh by (rewrite length_alter; lia).
      rewrite <- HlenE, <- (length_alter (fun x => wrap32 (x + 1)) E (Z.to_nat index)).
      apply firstn_all.
Qed.

Lemma addTraceAddress_spec h ta depth :
  slice_ok h ta -> (1 <= depth)%Z ->
  exists k r,
    addTraceAddress growcap h ta depth = Some (h ++ k, r)
    /\ slice_ok (h ++ k) r
    /\ elems (h ++ k) r
       = if decide (Z.of_nat (len ta) <= depth - 1)%Z then elems h ta ++ [0]
         else alter (fun x => wrap32 (x + 1)) (Z.to_nat (depth - 1)) (elems h ta).
Proof.
  intros Hok Hd.
  assert (Hp : pred_int depth = (depth - 1)%Z)
    by (unfold pred_int; rewrite decide_False by lia; done).
  rewrite <- Hp. apply addTraceAddress_index; [done|lia].
Qed.

(** X17. [addTraceAddress] at a depth of at least 1 never panics and
    never writes to the array of the address it is given: it returns a
    slice over a fresh array, holding the address with a zero appended when
    the address is shorter than the depth, and otherwise the address with
    the index at position [depth - 1] incremented (modulo [2^32]); every
    slice of the caller reads as before.  At a depth below 1 it panics on
    the negative index, with one exception: at the least [int] the
    subtraction wraps around to the greatest, which no length exceeds, and
    the address comes back with a zero appended. *)
Theorem addTraceAddress_fresh h ta depth :
  slice_ok h ta ->
  ((1 <= depth)%Z ->
   exists h' r,
     addTraceAddress growcap h ta depth = Some (h', r)
     /\ slice_ok h' r
     /\ elems h' r
        = (if decide (Z.of_nat (len ta) <= depth - 1)%Z then elems h ta ++ [0]
           else alter (fun x => wrap32 (x + 1)) (Z.to_nat (depth - 1)) (elems h ta))
     /\ forall s, slice_ok h s -> slice_ok h' s /\ elems h' s = elems h s)
  /\ ((- 2 ^ 63 < depth < 1)%Z -> addTraceAddress growcap h ta depth = None)
  /\ (depth = (- 2 ^ 63)%Z -> (Z.of_nat (len ta) < 2 ^ 63)%Z ->
      exists h' r,
        addTraceAddress growcap h ta depth = Some (h', r)
        /\ slice_ok h' r
        /\ elems h' r = elems h ta ++ [0]
        /\ forall s, slice_ok h s -> slice_ok h' s /\ elems h' s = elems h s).
Proof.
  intros Hok. split_and!.
  - intros Hd. destruct (addTraceAddress_spec h ta depth Hok Hd) as (k & r & H & Hr & He).
    exists (h ++ k), r. split_and!; try done. intros s Hs. split.
    + by apply slice_ok_app.
    + by apply slice_ok_elems_app.
  - intros Hd. unfold addTraceAddress, make, index_update, pred_int. cbn [len].
    rewrite (decide_False (P := depth = (- 2 ^ 63)%Z)) by lia.
    rewrite decide_False by lia. by rewrite decide_False by lia.
  - intros -> Hlen.
    destruct (addTraceAddress_index h ta (- 2 ^ 63) Hok ltac:(done))
      as (k & r & H & Hr & He).
    exists (h ++ k), r. split_and!; try done.
    + rewrite He. change (pred_int (- 2 ^ 63)) with (2 ^ 63 - 1)%Z.
      by rewrite decide_True by lia.
    + intros s Hs. split; [by apply slice_ok_app|by apply slice_ok_elems_app].
Qed.

Lemma removeTraceAddressLevel_spec h ta depth :
  slice_ok h ta -> (0 <= depth)%Z ->
  exists k r,
    removeTraceAddressLevel h ta depth = Some (h ++ k, r)
    /\ slice_ok (h ++ k) r
    /\ elems (h ++ k) r
       = if decide (depth < Z.of_nat (len ta))%Z then take (len ta - 1) (elems h ta)
         else elems h ta.
Proof.
  intros Hok Hd. unfold removeTraceAddressLevel, make.
  destruct (decide (depth < Z.of_nat (len ta))%Z) as [Hlt|Hge].
  - rewrite (make_copy h ta Hok).
    pose proof (elems_length h ta Hok) as HlenE.
    unfold reslice, cap, array. cbn [len base].
    rewrite lookup_app_r, Nat.sub_diag by lia. cbn [lookup list_lookup default]. unfold id.
    rewrite decide_True by lia. simpl.
    replace (Z.to_nat (Z.of_nat (len ta) - 1)) with (len ta - 1)%nat by lia.
    eexists _, _. split; [done|]. split.
    + apply slice_ok_fresh. lia.
    + apply elems_fresh. lia.
  - exists [], ta. rewrite app_nil_r. done.
Qed.

(** X18. How the two helpers number the calls made at one depth.  When
    the address has one index less than the depth, [addTraceAddress] gives
    the first call the address with [0] appended.  When control is back at
    that depth, with the address of the previous call at this depth
    possibly followed by one index of a call made below it,
    [removeTraceAddressLevel] followed by [addTraceAddress] gives the next
    call the same prefix with the last index at this depth incremented; the
    slice of the previous call still reads as it did. *)
Theorem sibling_addresses h ta depth a :
  slice_ok h ta -> Z.of_nat (length a) = (depth - 1)%Z ->
  (elems h ta = a ->
   exists h' r, addTraceAddress growcap h ta depth = Some (h', r)
     /\ elems h' r = a ++ [0] /\ elems h' ta = a)
  /\ (forall k rest, elems h ta = a ++ k :: rest -> (length rest <= 1)%nat ->
      exists h1 r1 h2 r2,
        removeTraceAddressLevel h ta depth = Some (h1, r1)
        /\ addTraceAddress growcap h1 r1 depth = Some (h2, r2)
        /\ elems h2 r2 = a ++ [wrap32 (k + 1)]
        /\ elems h2 ta = a ++ k :: rest).
Proof.
  intros Hok Hlen. pose proof (elems_length h ta Hok) as HlenE. split.
  - intros Ha. destruct (addTraceAddress_spec h ta depth Hok ltac:(lia))
      as (k & r & H & Hr & He).
    exists (h ++ k), r. split_and!; [done| |].
    + rewrite He, Ha. rewrite Ha in HlenE. by rewrite decide_True by lia.
    + by rewrite slice_ok_elems_app.
  - intros k rest Ha Hrest. rewrite Ha, length_app in HlenE. simpl in HlenE.
    destruct (removeTraceAddressLevel_spec h ta depth Hok ltac:(lia))
      as (k1 & r1 & H1 & Hr1 & He1).
    destruct (addTraceAddress_spec (h ++ k1) r1 depth Hr1 ltac:(lia))
      as (k2 & r2 & H2 & Hr2 & He2).
    exists (h ++ k1), r1, ((h ++ k1) ++ k2), r2. split_and!; [done|done| |].
    + assert (elems (h ++ k1) r1 = a ++ [k]) as He1'.
      { rewrite He1, Ha. destruct rest as [|j [|? ?]]; simpl in Hrest; [| |lia].
        - by rewrite decide_False by (simpl in *; lia).
        - rewrite decide_True by (simpl in *; lia).
          replace (len ta - 1)%nat with (length (a ++ [k]))
            by (rewrite length_app; simpl in *; lia).
          change (a ++ [k; j]) with (a ++ [k] ++ [j]). rewrite app_assoc.
          by rewrite take_app_length. }
      pose proof (elems_length _ _ Hr1) as Hl1. rewrite He1', length_app in Hl1.
      simpl in Hl1. rewrite He2, He1'. rewrite decide_False by lia.
      replace (Z.to_nat (depth - 1)) with (length a + 0)%nat by lia.
      by rewrite alter_app_r.
    + rewrite <- app_assoc. by rewrite slice_ok_elems_app.
Qed.

End Addresses.

Lemma addTraceAddress_fresh_witness :
  (exists h' r,
     addTraceAddress gc_growcap sample_heap sample_address 2 = Some (h', r)
     /\ elems h' r = [3; 2; 4] /\ elems h' sample_address = [3; 1; 4])
  /\ addTraceAddress gc_growcap sample_heap sample_address 0 = None
  /\ (exists h' r,
        addTraceAddress gc_growcap sample_heap sample_address (- 2 ^ 63) = Some (h', r)
        /\ elems h' r = [3; 1; 4; 0]).
Proof.
  assert (slice_ok sample_heap sample_address) as Hok by (vm_compute; lia).
  destruct (addTraceAddress_fresh gc_growcap sample_heap sample_address 2 Hok)
    as (H2 & _ & _).
  destruct (addTraceAddress_fresh gc_growcap sample_heap sample_address 0 Hok)
    as (_ & H0 & _).
  destruct (addTraceAddress_fresh gc_growcap sample_heap sample_address (- 2 ^ 63) Hok)
    as (_ & _ & Hm).
  split; [|split].
  - destruct (H2 ltac:(lia)) as (h' & r & H & _ & He & Hs).
    exists h', r. split; [exact H|]. split; [exact He|].
    exact (proj2 (Hs sample_address Hok)).
  - apply H0. lia.
  - destruct (Hm eq_refl ltac:(simpl; lia)) as (h' & r & H & _ & He & _).
    exists h', r. split; [exact H|exact He].
Defined.

Lemma sibling_addresses_witness :
  exists h1 r1 h2 r2,
    removeTraceAddressLevel sample_heap sample_address 2 = Some (h1, r1)
    /\ addTraceAddress gc_growcap h1 r1 2 = Some (h2, r2)
    /\ elems h2 r2 = [3; 2].
Proof.
  assert (slice_ok sample_heap sample_address) as Hok by (vm_compute; lia).
  destruct (proj2 (sibling_addresses gc_growcap sample_heap sample_address 2 [3] Hok
                     eq_refl) 1 [4] eq_refl ltac:(simpl; lia))
    as (h1 & r1 & h2 & r2 & H1 & H2 & He & _).
  exists h1, r1, h2, r2. split; [exact H1|]. split; [exact H2|exact He].
Defined.

(** *** Flattening keeps every node *)

Lemma size_unfold t : size t = S (list_sum (map size (childTraces t))).
Proof. by destruct t. Qed.

Lemma flatten_length child : forall gas, length (flatten gas child) = size child.
Proof.
  induction child as [child IH] using ActionTrace_tree_ind. intros gas.
  rewrite flatten_unfold, size_unfold. simpl. f_equal.
  generalize (Gas (Action (render gas child))) as g.
  induction IH as [|c cs Hc _ IHcs]; intros g; simpl; [done|].
  by rewrite length_app, Hc, IHcs.
Qed.

Lemma render_fields gas child :
  childTraces (render gas child) = childTraces child
  /\ TraceType (render gas child) = TraceType child
  /\ TraceAddress (render gas child) = TraceAddress child
  /\ (TraceType child = SELFDESTRUCT ->
      Result (render gas child) = None /\ Gas (Action (render gas child)) = 0
      /\ From (Action (render gas child)) = None).
Proof.
  unfold render. cbv zeta. destruct (Result child) as [res|] eqn:Hres.
  - destruct (decide (TraceType (set_Action _ child) = SELFDESTRUCT)) as [Hs|Hs];
      simpl in *; split_and!; try done.
  - destruct (decide (TraceType child = SELFDESTRUCT)) as [Hs|Hs];
      simpl in *; split_and!; try done.
Qed.

Lemma flatten_Forall (P : ActionTrace -> Prop) child :
  (forall gas c, P (set_Subtraces (N.of_nat (length (childTraces c))) (render gas c))) ->
  forall gas, Forall P (flatten gas child).
Proof.
  intros HP. induction child as [child IH] using ActionTrace_tree_ind. intros gas.
  rewrite flatten_unfold. constructor; [apply HP|].
  generalize (Gas (Action (render gas child))) as g.
  induction IH as [|c cs Hc _ IHcs]; intros g; simpl; [constructor|].
  apply Forall_app. split; [apply Hc|apply IHcs].
Qed.

Lemma processTrace_snoc acc root :
  processTrace (mkCallTrace (acc ++ [root]))
  = Some (mkCallTrace
            (acc ++ set_Subtraces (N.of_nat (length (childTraces root))) root
               :: concat (map (flatten (Gas (Action root))) (childTraces root)))).
Proof.
  unfold processTrace, lastTrace. simpl. rewrite last_snoc. simpl.
  by rewrite processTraceOf_flatten.
Qed.

(** X19. The post-processing pass loses and repeats nothing: started on
    the last element of the list it appends exactly one trace for every
    node below that element, so the list grows by the size of the tree less
    one; every appended trace has its number of children as child count,
    and an appended selfdestruct trace has no result, zero gas and no
    sender. *)
Theorem processTrace_complete acc root :
  exists out,
    processTrace (mkCallTrace (acc ++ [root])) = Some out
    /\ length (Actions out) = (length acc + size root)%nat
    /\ take (length acc) (Actions out) = acc
    /\ Forall (fun t => Subtraces t = N.of_nat (length (childTraces t)))
         (drop (length acc) (Actions out))
    /\ Forall (fun t => TraceType t = SELFDESTRUCT ->
                        Result t = None /\ Gas (Action t) = 0 /\ From (Action t) = None)
         (drop (S (length acc)) (Actions out)).
Proof.
  eexists. split; [apply processTrace_snoc|]. cbn [Actions]. split_and!.
  - rewrite length_app, size_unfold. simpl. do 2 f_equal.
    generalize (Gas (Action root)) as g.
    induction (childTraces root) as [|c cs IH]; intros g; simpl; [done|].
    by rewrite length_app, flatten_length, IH.
  - by rewrite take_app_length.
  - rewrite drop_app_length. constructor; [done|].
    generalize (Gas (Action root)) as g.
    induction (childTraces root) as [|c cs IH]; intros g; simpl; [constructor|].
    apply Forall_app. split; [|apply IH].
    apply flatten_Forall. intros gas c0. simpl.
    by destruct (render_fields gas c0) as (-> & _).
  - change (acc ++ ?x :: ?l) with (acc ++ [x] ++ l). rewrite app_assoc.
    replace (S (length acc)) with (length (acc ++ [set_Subtraces
      (N.of_nat (length (childTraces root))) root])) by (rewrite length_app; simpl; lia).
    rewrite drop_app_length.
    generalize (Gas (Action root)) as g.
    induction (childTraces root) as [|c cs IH]; intros g; simpl; [constructor|].
    apply Forall_app. split; [|apply IH].
    apply flatten_Forall. intros gas c0. simpl. intros Hs.
    destruct (render_fields gas c0) as (_ & Ht & _ & Hsd). apply Hsd. by rewrite <- Ht.
Qed.

End V1HelperFacts.

(** ** The tree tracer: finishing and persisting *)
Module V1TracerFacts.
Import V1 V1Facts V1Helpers V1HelperFacts V1Tracer.

(** X20. When [PersistTrace] of the tree tracer finds no trace holder it
    synthesizes one error trace and persists that: a trace of type "empty"
    without result, whose error is the tracer's error or "Reverted" when
    there is none, and whose transaction position is the tracer's
    [gasUsed], which is what the call passes for the position, and not the
    tracer's [txIndex].  With a store, the bytes written under the
    transaction hash are the encoding of exactly that one trace; without a
    store the tracer is just reset. *)
Theorem error_trace_position {S : Type}
  (write : S -> common_Hash -> bytes -> S * option error)
  (encode : list ActionTrace -> option bytes) (s : S) (ot : OeTracer) :
  traceHolder ot = None ->
  let t := GetErrorTrace (blockHash ot) (blockNumber ot) (to ot) (tx ot) (gasUsed ot)
             (err ot) in
  TransactionPosition t = gasUsed ot
  /\ TraceType t = "empty" /\ Result t = None /\ Error t = default "Reverted" (err ot)
  /\ To (Action t) = to ot
  /\ PersistTrace write encode None ot
     = (None, reset ot)
  /\ forall raw, encode [t] = Some raw ->
       fst (PersistTrace write encode (Some s) ot) = Some (fst (write s (tx ot) raw))
       /\ (snd (write s (tx ot) raw) = None ->
           snd (PersistTrace write encode (Some s) ot) = reset ot).
Proof.
  intros Hh t.
  assert (Hf : TransactionPosition t = gasUsed ot /\ TraceType t = "empty"
               /\ Result t = None /\ Error t = default "Reverted" (err ot)
               /\ To (Action t) = to ot).
  { unfold t, GetErrorTrace. by destruct (err ot), (to ot). }
  destruct Hf as (? & ? & ? & ? & ?). split_and!; try done.
  - unfold PersistTrace. by rewrite Hh.
  - intros raw Hraw. unfold PersistTrace. rewrite Hh. fold t.
    change (GetResult (set_traceHolder _ ot)) with [t].
    rewrite decide_False by done. rewrite Hraw.
    change (tx (set_traceHolder _ ot)) with (tx ot).
    destruct (write s (tx ot) raw) as [s' [e|]]; simpl; [done|].
    split; [done|]. intros _. by destruct ot.
Qed.

Lemma error_trace_position_witness :
  let ot := idle (Some zero_Address) 7 21000 in
  let t := GetErrorTrace (blockHash ot) (blockNumber ot) (to ot) (tx ot) (gasUsed ot)
             (err ot) in
  txIndex ot = 7 /\ TransactionPosition t = 21000 /\ Error t = "Reverted".
Proof.
  destruct (error_trace_position (S := unit) (fun s _ _ => (s, None)) (fun _ => None) tt
              (idle (Some zero_Address) 7 21000) eq_refl) as (Hp & _ & _ & He & _).
  split; [reflexivity|]. split; [exact Hp|exact He].
Defined.

Lemma set_ResultGasUsed_fields g t :
  childTraces (set_ResultGasUsed g t) = childTraces t
  /\ TraceType (set_ResultGasUsed g t) = TraceType t
  /\ Action (set_ResultGasUsed g t) = Action t
  /\ Result (set_ResultGasUsed g t)
     = (fun r => mkTResult g (Output r) (Code r) (ResultAddress r) (RetOffset r) (RetSize r))
       <$> Result t.
Proof. unfold set_ResultGasUsed. destruct (Result t) eqn:Hr; simpl; by rewrite ?Hr. Qed.

Lemma update_last_single f x : update_last f (mkCallTrace [x]) = mkCallTrace [f x].
Proof. done. Qed.

(** X21. Closing and finalizing a traced transaction whose holder has the
    root as its only trace: [CaptureEnd] with a positive [gasUsed] followed
    by [Finalize] returns, and [GetResult] is then the root followed by the
    flattening of its children; the root's [gas] and its result's
    [gasUsed] (when it has a result) are both the gas used that
    [CaptureEnd] reported, whatever gas the root was started with, and the
    children are rendered against that value; no node is lost. *)
Theorem Finalize_root_gas (ot : OeTracer) (root : ActionTrace) (st : list nat)
  (output_ : bytes) (g : N) :
  traceHolder ot = Some (mkHolder (mkCallTrace [root]) st) ->
  0 < g ->
  exists ot1 ot2 root',
    CaptureEnd output_ g ot = Some ot1 /\ Finalize ot1 = Some ot2
    /\ GetResult ot2 = root' :: concat (map (flatten g) (childTraces root))
    /\ Gas (Action root') = g /\ TraceType root' = TraceType root
    /\ (forall r, Result root = Some r ->
          exists r', Result root' = Some r' /\ GasUsed r' = g /\ Output r' = Output r)
    /\ (Result root = None -> Result root' = None)
    /\ Subtraces root' = N.of_nat (length (childTraces root))
    /\ length (GetResult ot2) = size root.
Proof.
  intros Hh Hg.
  set (root1 := set_Action (set_Gas g (Action (set_ResultGasUsed g root)))
                  (set_ResultGasUsed g root)).
  set (root2 := set_ResultGasUsed g (set_Action (set_Gas g (Action root1)) root1)).
  destruct (set_ResultGasUsed_fields g root) as (Hc1 & Ht1 & Ha1 & Hr1).
  destruct (set_ResultGasUsed_fields g (set_Action (set_Gas g (Action root1)) root1))
    as (Hc2 & Ht2 & Ha2 & Hr2).
  fold root2 in Hc2, Ht2, Ha2, Hr2.
  assert (Hc : childTraces root2 = childTraces root) by (by rewrite Hc2).
  assert (Hgas : Gas (Action root2) = g) by (by rewrite Ha2).
  assert (Hres : Result root2
                 = (fun r => mkTResult g (Output r) (Code r) (ResultAddress r) (RetOffset r)
                               (RetSize r)) <$> Result root).
  { rewrite Hr2. cbn [Result set_Action root1]. rewrite Hr1. by destruct (Result root). }
  eexists _, _, (set_Subtraces (N.of_nat (length (childTraces root))) root2).
  split.
  { unfold CaptureEnd. rewrite decide_True by done. rewrite Hh.
    cbn [mbind option_bind holder Actions lookup list_lookup alter list_alter lastTrace last
         Stack].
    rewrite update_last_single. fold root1. reflexivity. }
  split.
  { unfold Finalize.
    cbn [traceHolder set_output set_gasUsed set_traceHolder holder gasUsed Stack lastTrace
         Actions last mbind option_bind].
    rewrite !update_last_single. fold root2.
    unfold processLastTrace.
    change [root2] with ([] ++ [root2]).
    rewrite (processTrace_snoc [] root2). simpl. reflexivity. }
  split_and!.
  - cbn [GetResult traceHolder set_traceHolder holder Actions app]. by rewrite Hc, Hgas.
  - done.
  - cbn [TraceType set_Subtraces]. by rewrite Ht2.
  - intros r Hr. cbn [Result set_Subtraces]. rewrite Hres, Hr. by eexists.
  - intros Hr. cbn [Result set_Subtraces]. by rewrite Hres, Hr.
  - done.
  - cbn [GetResult traceHolder set_traceHolder holder Actions app]. rewrite Hc, Hgas.
    rewrite size_unfold. simpl. f_equal.
    generalize (childTraces root) as cs. clear.
    induction cs as [|c cs IH]; simpl; [done|].
    by rewrite length_app, flatten_length, IH.
Qed.

Lemma Finalize_root_gas_witness :
  exists ot1 ot2,
    CaptureEnd [] 21000 (CaptureStart zero_Address false [] 90000
                           (idle (Some zero_Address) 0 0)) = Some ot1
    /\ Finalize ot1 = Some ot2
    /\ map (fun t => (TraceType t, Gas (Action t))) (GetResult ot2) = [(CALL, 21000)].
Proof.
  destruct (Finalize_root_gas
              (CaptureStart zero_Address false [] 90000 (idle (Some zero_Address) 0 0))
              _ _ [] 21000 eq_refl eq_refl)
    as (ot1 & ot2 & root' & H1 & H2 & Hres & Hgas & Hty & _).
  exists ot1, ot2. split; [exact H1|]. split; [exact H2|].
  rewrite Hres. simpl. by rewrite Hgas, Hty.
Defined.

End V1TracerFacts.
